(** * hono_sessions: cookie chunking and keyed-backend session stores

    A shallow embedding of [src/store/CookieStore.ts] and
    [src/store/CloudflareKVStore.ts], together with the pieces of the
    JavaScript platform they call (string iteration, [TextEncoder],
    [parseInt], [String(n)]), and the properties of the session
    persistence protocol proved about them. *)

From Stdlib Require Import ZArith List Lia Bool String Ascii DecimalString.
From stdpp Require Import gmap list.
Import ListNotations.

Local Open Scope Z_scope.

(* ===================================================================== *)
(** * Part I. The embedding *)
(* ===================================================================== *)

(** ** JavaScript strings

    A JavaScript string is a sequence of UTF-16 code units.  Code units
    are kept as [Z]; a well-formed one lies in [0, 0xFFFF]. *)

Abbreviation jsstring := (list Z).

(** String literals of the source, written as Rocq strings. *)
Definition lit (s : string) : jsstring :=
  map (fun a => Z.of_N (N_of_ascii a)) (list_ascii_of_string s).

(** [if (s)] on a string: only the empty string is falsy. *)
Definition truthy (s : jsstring) : bool :=
  match s with [] => false | _ :: _ => true end.

(** [if (x)] on a [string | null | undefined]. *)
Definition truthy_opt (o : option jsstring) : bool :=
  match o with Some s => truthy s | None => false end.

Definition is_high (u : Z) : bool := (0xD800 <=? u) && (u <=? 0xDBFF).
Definition is_low (u : Z) : bool := (0xDC00 <=? u) && (u <=? 0xDFFF).
Definition is_surrogate (u : Z) : bool := (0xD800 <=? u) && (u <=? 0xDFFF).

(** [for (const char of input)]: the string iterator yields one string per
    code point; a high surrogate directly followed by a low surrogate is
    yielded as one two-unit string, every other code unit on its own. *)
Fixpoint string_iterator (s : jsstring) : list jsstring :=
  match s with
  | [] => []
  | u :: rest =>
      match rest with
      | v :: rest' =>
          if is_high u && is_low v
          then [u; v] :: string_iterator rest'
          else [u] :: string_iterator rest
      | [] => [[u]]
      end
  end.

(** Conversion of a string to its Unicode scalar values, as [TextEncoder]
    does before encoding: surrogate pairs are combined, a lone surrogate
    becomes U+FFFD. *)
Fixpoint scalar_values (s : jsstring) : list Z :=
  match s with
  | [] => []
  | u :: rest =>
      match rest with
      | v :: rest' =>
          if is_high u && is_low v
          then (0x10000 + (u - 0xD800) * 0x400 + (v - 0xDC00))
                 :: scalar_values rest'
          else (if is_surrogate u then 0xFFFD else u) :: scalar_values rest
      | [] => [if is_surrogate u then 0xFFFD else u]
      end
  end.

(** UTF-8 encoding of one scalar value, as a list of bytes. *)
Definition utf8_encode (cp : Z) : list Z :=
  if cp <? 0x80 then [cp]
  else if cp <? 0x800 then
    [Z.lor 0xC0 (Z.shiftr cp 6); Z.lor 0x80 (Z.land cp 0x3F)]
  else if cp <? 0x10000 then
    [Z.lor 0xE0 (Z.shiftr cp 12);
     Z.lor 0x80 (Z.land (Z.shiftr cp 6) 0x3F);
     Z.lor 0x80 (Z.land cp 0x3F)]
  else
    [Z.lor 0xF0 (Z.shiftr cp 18);
     Z.lor 0x80 (Z.land (Z.shiftr cp 12) 0x3F);
     Z.lor 0x80 (Z.land (Z.shiftr cp 6) 0x3F);
     Z.lor 0x80 (Z.land cp 0x3F)].

(** [new TextEncoder().encode(s)] *)
Definition TextEncoder_encode (s : jsstring) : list Z :=
  flat_map utf8_encode (scalar_values s).

(** [encoder.encode(s).length] *)
Definition byte_length (s : jsstring) : Z :=
  Z.of_nat (length (TextEncoder_encode s)).

(** ** CookieStore.ts: the chunking codec *)

(** The body of the [for ... of] loop of [chunkStringByBytes], run over the
    characters that are left; the state is [chunks], [current] and
    [currentBytes]. *)
Fixpoint chunk_loop (maxBytes : Z) (chars : list jsstring)
    (chunks : list jsstring) (current : jsstring) (currentBytes : Z)
    : list jsstring * jsstring :=
  match chars with
  | [] => (chunks, current)
  | char :: rest =>
      let charBytes := byte_length char in
      if currentBytes + charBytes >? maxBytes
      then chunk_loop maxBytes rest (chunks ++ [current]) char charBytes
      else chunk_loop maxBytes rest chunks (current ++ char)
             (currentBytes + charBytes)
  end.

Definition chunkStringByBytes (input : jsstring) (maxBytes : Z)
    : list jsstring :=
  let '(chunks, current) :=
    chunk_loop maxBytes (string_iterator input) [] [] 0 in
  if truthy current then chunks ++ [current] else chunks.

(** ** JavaScript numbers, as far as the stores use them

    The numbers that occur are integers or [NaN]: a cookie count, an epoch
    time in milliseconds, a number of seconds. *)

Inductive number : Type :=
  | NaN
  | Num (z : Z).

(** [if (n)] on a number: [NaN] and [0] are falsy. *)
Definition truthy_number (n : number) : bool :=
  match n with
  | NaN => false
  | Num z => negb (z =? 0)
  end.

(** [isNaN(n)] *)
Definition isNaN (n : number) : bool :=
  match n with NaN => true | Num _ => false end.

(** [n < k] for an integer [k]; every comparison with [NaN] is false. *)
Definition number_lt (n : number) (k : Z) : bool :=
  match n with NaN => false | Num z => z <? k end.

(** [String(n)] for an integer [n]: its decimal digits, with a minus sign
    for a negative one. *)
Definition Number_toString (n : Z) : jsstring :=
  lit (NilZero.string_of_int (Z.to_int n)).

(** White space and line terminators, which [parseInt] skips at the start
    of its argument. *)
Definition is_white_space (u : Z) : bool :=
  ((0x9 <=? u) && (u <=? 0xD))
  || (u =? 0x20) || (u =? 0xA0) || (u =? 0x1680)
  || ((0x2000 <=? u) && (u <=? 0x200A))
  || (u =? 0x2028) || (u =? 0x2029) || (u =? 0x202F) || (u =? 0x205F)
  || (u =? 0x3000) || (u =? 0xFEFF).

Fixpoint trim_start (s : jsstring) : jsstring :=
  match s with
  | [] => []
  | u :: rest => if is_white_space u then trim_start rest else s
  end.

Definition is_decimal_digit (u : Z) : bool := (0x30 <=? u) && (u <=? 0x39).

(** The longest prefix of decimal digits. *)
Fixpoint leading_digits (s : jsstring) : jsstring :=
  match s with
  | [] => []
  | u :: rest => if is_decimal_digit u then u :: leading_digits rest else []
  end.

(** The integer a string of decimal digits denotes. *)
Definition digits_value (ds : jsstring) : Z :=
  fold_left (fun acc u => acc * 10 + (u - 0x30)) ds 0.

(** [parseInt(s, 10)]: skip leading white space, read an optional sign,
    then the longest run of decimal digits; [NaN] when that run is empty.
    Whatever follows the digits is ignored.  The result is kept exact: the
    rounding of integers beyond 2^53 to a double, and the sign of zero,
    change neither [isNaN] nor the comparison with 1. *)
Definition parseInt (s : jsstring) : number :=
  let trimmed := trim_start s in
  let '(sign, body) :=
    match trimmed with
    | u :: rest =>
        if u =? 0x2D then (-1, rest)
        else if u =? 0x2B then (1, rest)
        else (1, trimmed)
    | [] => (1, [])
    end in
  match leading_digits body with
  | [] => NaN
  | ds => Num (sign * digits_value ds)
  end.

(** ** Errors

    A computation of the source either returns or throws; an [Error] is
    kept as its message.  A rejected promise is a thrown error at the
    [await]. *)

Inductive outcome (A : Type) : Type :=
  | Ok (a : A)
  | Throw (message : jsstring).

Arguments Ok {A} a.
Arguments Throw {A} message.

(** ** Session data *)

(** JSON-serialisable values, for the [value] of a session entry. *)
#[local] Unset Elimination Schemes.
Inductive JSONValue : Type :=
  | JNull
  | JBool (b : bool)
  | JNumber (n : Z)
  | JString (s : jsstring)
  | JArray (items : list JSONValue)
  | JObject (members : list (jsstring * JSONValue)).
#[local] Set Elimination Schemes.

Record SessionEntry : Type := {
  value : JSONValue;
  flash : bool;
}.

(** Modelled from the spec: the [SessionData] type of [src/Session.ts],
    which is not among the sources.  Section 3 of the specification gives
    its four fields (values with their flash flag, a nullable expiry
    timestamp, a nullable last-access timestamp, the deletion flag); the
    field names are the ones the stores and their tests use.  [null] is
    [None]. *)
Record SessionData : Type := {
  _data : list (jsstring * SessionEntry);
  _expire : option jsstring;
  _delete : bool;
  _accessed : option jsstring;
}.

Definition set_accessed (d : SessionData) (a : option jsstring)
    : SessionData :=
  {| _data := _data d; _expire := _expire d; _delete := _delete d;
     _accessed := a |}.

(** ** The platform

    What the stores call and the repository does not define in the files
    at hand: the JSON codec, the encryption adapter of [src/Crypto.ts]
    (opaque, may reject), and [Date].  [JSON_parse] throws on text that
    is not JSON and gives [None] for [null] (or another falsy value);
    what it gives otherwise is taken to be a session, as the casts of the
    source do.  Times are epoch milliseconds; [Date_getTime s] is
    [new Date(s).getTime()], [NaN] for an invalid date. *)
Class Platform : Type := {
  JSON_stringify : SessionData -> jsstring;
  JSON_parse : jsstring -> outcome (option SessionData);
  encrypt : jsstring -> jsstring -> outcome jsstring;
  decrypt : jsstring -> jsstring -> outcome jsstring;
  Date_getTime : jsstring -> number;
  Date_toISOString : Z -> jsstring;
}.

(** ** The request context (Hono) *)

(** Options of a cookie, as [hono/utils/cookie] declares them; every field
    is optional. *)
Record CookieOptions : Type := {
  domain : option jsstring;
  expires : option Z;
  httpOnly : option bool;
  maxAge : option Z;
  path : option jsstring;
  secure : option bool;
  sameSite : option jsstring;
  partitioned : option bool;
  priority : option jsstring;
  prefix : option jsstring;
}.

Definition no_options : CookieOptions :=
  {| domain := None; expires := None; httpOnly := None; maxAge := None;
     path := None; secure := None; sameSite := None; partitioned := None;
     priority := None; prefix := None |}.

(** [{ ...options, maxAge: 0 }]; spreading [undefined] adds nothing. *)
Definition spread_maxAge_0 (options : option CookieOptions) : CookieOptions :=
  let o := match options with Some o => o | None => no_options end in
  {| domain := domain o; expires := expires o; httpOnly := httpOnly o;
     maxAge := Some 0;
     path := path o; secure := secure o; sameSite := sameSite o;
     partitioned := partitioned o; priority := priority o;
     prefix := prefix o |}.

(** One call of [setCookie(c, name, value, options)]. *)
Record SetCookie : Type := {
  sc_name : jsstring;
  sc_value : jsstring;
  sc_options : option CookieOptions;
}.

(** Options of [KVNamespace.put]. *)
Record PutOptions : Type := {
  put_expirationTtl : option Z;
  put_expiration : option number;
}.

(** A record of the key-value backend: the text that was put and the
    options it was put with. *)
Record KVEntry : Type := {
  entry_value : jsstring;
  entry_options : PutOptions;
}.

(** A [KVNamespace] binding.  The backend is external: it holds records
    under keys, and while [kv_fault] is set every call to it rejects with
    that message (an I/O failure). *)
Record KVNamespace : Type := {
  kv_records : gmap jsstring KVEntry;
  kv_fault : option jsstring;
}.

(** The Hono [Context], as far as the stores look at it: the cookies of
    the request, the cookies set on the response in the order of the
    calls, and the bindings of the environment. *)
Record Context : Type := {
  req_cookies : gmap jsstring jsstring;
  res_cookies : list SetCookie;
  env : option (gmap jsstring KVNamespace);
}.

(** [getCookie(c, name)] *)
Definition getCookie (c : Context) (name : jsstring) : option jsstring :=
  req_cookies c !! name.

(** [setCookie(c, name, value, options)] *)
Definition setCookie (c : Context) (name value : jsstring)
    (options : option CookieOptions) : Context :=
  {| req_cookies := req_cookies c;
     res_cookies := res_cookies c ++
       [{| sc_name := name; sc_value := value; sc_options := options |}];
     env := env c |}.

(** [for (let i = start; ...; i++) body], for [n] iterations. *)
Fixpoint for_loop {St : Type} (n : nat) (i : Z) (body : Z -> St -> St)
    (s : St) : St :=
  match n with
  | O => s
  | S n' => for_loop n' (i + 1) body (body i s)
  end.

(** ** CookieStore.ts: the cookie store *)

(** [getCookieName(name, index)] *)
Definition getCookieName (name : jsstring) (index : Z) : jsstring :=
  if index =? 0 then name
  else name ++ lit "_" ++ Number_toString index.

Module CookieStore.

Record CookieStoreOptions : Type := {
  opt_encryptionKey : option jsstring;
  opt_cookieOptions : option CookieOptions;
  opt_sessionCookieName : jsstring;
}.

Record t : Type := {
  encryptionKey : option jsstring;
  cookieOptions : option CookieOptions;
  sessionCookieName : jsstring;
}.

(** [new CookieStore(options?)] *)
Definition new (options : option CookieStoreOptions) : t :=
  match options with
  | Some o =>
      {| encryptionKey := opt_encryptionKey o;
         cookieOptions := opt_cookieOptions o;
         sessionCookieName :=
           if truthy (opt_sessionCookieName o) then opt_sessionCookieName o
           else lit "session" |}
  | None =>
      {| encryptionKey := None; cookieOptions := None;
         sessionCookieName := lit "session" |}
  end.

(** [`${this.sessionCookieName}_count`] *)
Definition countCookieName (this : t) : jsstring :=
  sessionCookieName this ++ lit "_count".

(** [countRaw ? parseInt(countRaw, 10) : 1] *)
Definition cookieCount (countRaw : option jsstring) : number :=
  match countRaw with
  | Some raw => if truthy raw then parseInt raw else Num 1
  | None => Num 1
  end.

(** [`${countRaw}`] *)
Definition show_countRaw (countRaw : option jsstring) : jsstring :=
  match countRaw with
  | Some raw => raw
  | None => lit "undefined"
  end.

(** The loop of [getSession] that joins the chunk cookies: [n] iterations
    are left, the index is [i]; a missing or empty chunk ends it. *)
Fixpoint read_chunks (this : t) (c : Context) (n : nat) (i : Z)
    (sessionCookie : jsstring) : jsstring :=
  match n with
  | O => sessionCookie
  | S n' =>
      match getCookie c (getCookieName (sessionCookieName this) i) with
      | Some chunk =>
          if truthy chunk
          then read_chunks this c n' (i + 1) (sessionCookie ++ chunk)
          else sessionCookie
      | None => sessionCookie
      end
  end.

(** The tail of [getSession], once the cookie string is assembled. *)
Definition decode_session `{Platform} (this : t) (sessionCookie : jsstring)
    : outcome (option SessionData) :=
  match encryptionKey this with
  | Some key =>
      if truthy key && truthy sessionCookie then
        match decrypt key sessionCookie with
        | Throw _ => Ok None
        | Ok session_data_raw =>
            match JSON_parse session_data_raw with
            | Throw _ => Ok None
            | Ok session_data => Ok session_data
            end
        end
      else Ok None
  | None => Ok None
  end.

(** The bound of [for (let i = 0; i < cookieCount; i++)]. *)
Definition iterations (cookieCount : number) : nat :=
  match cookieCount with
  | NaN => O
  | Num count => Z.to_nat count
  end.

Definition getSession `{Platform} (this : t) (c : Context)
    : outcome (option SessionData) :=
  let countRaw := getCookie c (countCookieName this) in
  let cookieCount := cookieCount countRaw in
  if isNaN cookieCount || number_lt cookieCount 1
  then Throw (lit "Invalid session cookie count: " ++ show_countRaw countRaw)
  else decode_session this (read_chunks this c (iterations cookieCount) 0 []).

(** The ten indexed cookies and the count cookie, set to the empty value:
    the statements shared by [deleteSession] and the start of
    [persistSessionData]. *)
Definition clear_cookies (this : t) (c : Context) : Context :=
  let c :=
    for_loop 10 0
      (fun i c =>
         setCookie c (getCookieName (sessionCookieName this) i) []
           (Some (spread_maxAge_0 (cookieOptions this))))
      c in
  setCookie c (countCookieName this) [] (cookieOptions this).

Definition deleteSession (this : t) (c : Context) : Context :=
  clear_cookies this c.

(** The payload of [persistSessionData]: the serialised session, encrypted
    when a key is configured. *)
Definition payload_of `{Platform} (this : t) (session_data : SessionData)
    : outcome jsstring :=
  let stringified_data := JSON_stringify session_data in
  match encryptionKey this with
  | Some key =>
      if truthy key then encrypt key stringified_data
      else Ok stringified_data
  | None => Ok stringified_data
  end.

Definition CHUNK_SIZE : Z := 4000.

Definition persistSessionData `{Platform} (this : t) (c : Context)
    (session_data : SessionData) : outcome unit * Context :=
  match payload_of this session_data with
  | Throw e => (Throw e, c)
  | Ok payload =>
      let splitPayload := chunkStringByBytes payload CHUNK_SIZE in
      let c := clear_cookies this c in
      let len := Z.of_nat (length splitPayload) in
      if len =? 1 then
        (Ok tt,
         setCookie c (sessionCookieName this) (nth 0 splitPayload [])
           (cookieOptions this))
      else if len >? 10 then
        (Throw (lit "Session too large for cookie storage"), c)
      else if len >? 1 then
        let c :=
          for_loop (length splitPayload) 0
            (fun i c =>
               setCookie c (getCookieName (sessionCookieName this) i)
                 (nth (Z.to_nat i) splitPayload []) (cookieOptions this))
            c in
        (Ok tt,
         setCookie c (countCookieName this) (Number_toString len)
           (cookieOptions this))
      else (Ok tt, c)
  end.

End CookieStore.

(** ** CloudflareKVStore.ts: the keyed backend store *)

Module CloudflareKVStore.

Record CloudflareKVStoreOptions : Type := {
  opt_kv : jsstring;
  opt_expirationTtl : option Z;
  opt_prefix : option jsstring;
}.

Record t : Type := {
  kvName : jsstring;
  expirationTtl : Z;
  prefix : jsstring;
}.

(** [new CloudflareKVStore(options)] *)
Definition new (options : CloudflareKVStoreOptions) : t :=
  {| kvName := opt_kv options;
     expirationTtl :=
       match opt_expirationTtl options with
       | Some ttl => if ttl =? 0 then 86400 else ttl
       | None => 86400
       end;
     prefix :=
       match opt_prefix options with
       | Some p => if truthy p then p else lit "session:"
       | None => lit "session:"
       end |}.

(** What the operations of the store act on: the context bound by
    [asyncLocalStore] for the request at hand (with the backend behind its
    bindings), and what was reported with [console.error], each report a
    label and the message of the error. *)
Record World : Type := {
  asyncLocalStore : option Context;
  console_errors : list (jsstring * jsstring);
}.

(** Computations over the world that may throw. *)
Definition M (A : Type) : Type := World -> outcome A * World.

Definition ret {A} (a : A) : M A := fun w => (Ok a, w).

Definition throw {A} (message : jsstring) : M A := fun w => (Throw message, w).

Definition bind {A B} (m : M A) (k : A -> M B) : M B :=
  fun w =>
    match m w with
    | (Ok a, w') => k a w'
    | (Throw e, w') => (Throw e, w')
    end.

(** [try { m } catch (error) { handler }] *)
Definition try_catch {A} (m : M A) (handler : jsstring -> M A) : M A :=
  fun w =>
    match m w with
    | (Ok a, w') => (Ok a, w')
    | (Throw e, w') => handler e w'
    end.

Notation "'let*' x ':=' m 'in' k" := (bind m (fun x => k))
  (at level 10, x name, m at level 100, k at level 200).

(** [console.error(label, error)] *)
Definition console_error (label error : jsstring) : M unit :=
  fun w =>
    (Ok tt,
     {| asyncLocalStore := asyncLocalStore w;
        console_errors := console_errors w ++ [(label, error)] |}).

(** The [kv] getter. *)
Definition kv (this : t) : M KVNamespace :=
  fun w =>
    match asyncLocalStore w with
    | None =>
        (Throw (lit "KV namespace is not available in the current context"),
         w)
    | Some context =>
        match env context with
        | Some bindings =>
            match bindings !! kvName this with
            | Some namespace => (Ok namespace, w)
            | None =>
                (Throw (lit "KV namespace " ++ [0x22] ++ kvName this
                          ++ [0x22]
                          ++ lit " is not available in the current context"),
                 w)
            end
        | None =>
            (Throw (lit "KV namespace " ++ [0x22] ++ kvName this ++ [0x22]
                      ++ lit " is not available in the current context"),
             w)
        end
    end.

(** The three calls of the backend.  [get] is called with type [json]: a
    missing key gives [null], a record is parsed. *)
Definition KV_get `{Platform} (namespace : KVNamespace) (key : jsstring)
    : outcome (option SessionData) :=
  match kv_fault namespace with
  | Some e => Throw e
  | None =>
      match kv_records namespace !! key with
      | Some entry => JSON_parse (entry_value entry)
      | None => Ok None
      end
  end.

Definition KV_put (namespace : KVNamespace) (key value : jsstring)
    (options : PutOptions) : outcome unit * KVNamespace :=
  match kv_fault namespace with
  | Some e => (Throw e, namespace)
  | None =>
      (Ok tt,
       {| kv_records :=
            <[key := {| entry_value := value; entry_options := options |}]>
              (kv_records namespace);
          kv_fault := kv_fault namespace |})
  end.

Definition KV_delete (namespace : KVNamespace) (key : jsstring)
    : outcome unit * KVNamespace :=
  match kv_fault namespace with
  | Some e => (Throw e, namespace)
  | None =>
      (Ok tt,
       {| kv_records := delete key (kv_records namespace);
          kv_fault := kv_fault namespace |})
  end.

(** The state of the backend after a call, seen through the binding. *)
Definition update_binding (this : t) (namespace : KVNamespace) (w : World)
    : World :=
  {| asyncLocalStore :=
       match asyncLocalStore w with
       | Some context =>
           Some {| req_cookies := req_cookies context;
                   res_cookies := res_cookies context;
                   env :=
                     match env context with
                     | Some bindings =>
                         Some (<[kvName this := namespace]> bindings)
                     | None => None
                     end |}
       | None => None
       end;
     console_errors := console_errors w |}.

Definition backend_call {A} (this : t) (r : outcome A * KVNamespace) : M A :=
  fun w => (fst r, update_binding this (snd r) w).

Definition lift {A} (r : outcome A) : M A := fun w => (r, w).

Definition getKeyFromSessionId (this : t) (sessionId : jsstring) : jsstring :=
  prefix this ++ sessionId.

Definition deleteSession (this : t) (sessionId : jsstring) : M unit :=
  if negb (truthy sessionId) then throw (lit "Session ID is required")
  else
    try_catch
      (let key := getKeyFromSessionId this sessionId in
       let* namespace := kv this in
       backend_call this (KV_delete namespace key))
      (fun error =>
         let* _ := console_error (lit "Error deleting session:") error in
         throw error).

(** What [getSessionById] resolves to. *)
Inductive found : Type :=
  | Undefined
  | Null
  | Session (sessionData : SessionData).

(** In the three operations below [now] is the time [new Date()] reads. *)
Definition getSessionById `{Platform} (this : t) (now : Z)
    (sessionId : option jsstring) : M found :=
  match sessionId with
  | None => ret Undefined
  | Some sessionId =>
      if negb (truthy sessionId) then ret Undefined
      else
        try_catch
          (let key := getKeyFromSessionId this sessionId in
           let* namespace := kv this in
           let* data := lift (KV_get namespace key) in
           match data with
           | None => ret Null
           | Some data =>
               let sessionData :=
                 set_accessed data (Some (Date_toISOString now)) in
               if _delete sessionData then
                 let* _ := deleteSession this sessionId in
                 ret Null
               else ret (Session sessionData)
           end)
          (fun error =>
             let* _ :=
               console_error (lit "Error retrieving session:") error in
             ret Null)
  end.

(** [Math.floor(new Date(expire).getTime() / 1000)] *)
Definition epoch_seconds `{Platform} (expire : jsstring) : number :=
  match Date_getTime expire with
  | NaN => NaN
  | Num ms => Num (ms / 1000)
  end.

(** The [expiration] variable: set when [_expire] is truthy. *)
Definition expiration_of `{Platform} (data : SessionData) : option number :=
  match _expire data with
  | Some expire => if truthy expire then Some (epoch_seconds expire) else None
  | None => None
  end.

(** The options of the [put]:
    [{ expirationTtl: expiration ? undefined : this.expirationTtl,
       expiration: expiration }] *)
Definition put_options (this : t) (expiration : option number) : PutOptions :=
  {| put_expirationTtl :=
       match expiration with
       | Some n => if truthy_number n then None else Some (expirationTtl this)
       | None => Some (expirationTtl this)
       end;
     put_expiration := expiration |}.

Definition createSession `{Platform} (this : t) (now : Z)
    (sessionId : jsstring) (initialData : SessionData) : M unit :=
  if negb (truthy sessionId) then throw (lit "Session ID is required")
  else
    try_catch
      (let key := getKeyFromSessionId this sessionId in
       let initialData :=
         if negb (truthy_opt (_accessed initialData))
         then set_accessed initialData (Some (Date_toISOString now))
         else initialData in
       let expiration := expiration_of initialData in
       let* namespace := kv this in
       backend_call this
         (KV_put namespace key (JSON_stringify initialData)
            (put_options this expiration)))
      (fun error =>
         let* _ := console_error (lit "Error creating session:") error in
         throw error).

Definition persistSessionData `{Platform} (this : t) (now : Z)
    (sessionId : jsstring) (sessionData : SessionData) : M unit :=
  if negb (truthy sessionId) then throw (lit "Session ID is required")
  else
    try_catch
      (let key := getKeyFromSessionId this sessionId in
       let sessionData :=
         set_accessed sessionData (Some (Date_toISOString now)) in
       if _delete sessionData then deleteSession this sessionId
       else
         let expiration := expiration_of sessionData in
         let* namespace := kv this in
         backend_call this
           (KV_put namespace key (JSON_stringify sessionData)
              (put_options this expiration)))
      (fun error =>
         let* _ :=
           console_error (lit "Error persisting session data:") error in
         throw error).

End CloudflareKVStore.

(** ** A reference platform

    A concrete [Platform] to run the stores on: [Date] for timestamps in
    the format [toISOString] writes ([YYYY-MM-DDTHH:mm:ss.sssZ]), a JSON
    serialiser for session data, a parser that recognises the
    serialisations of a given list of sessions, and the stand-ins for the
    encryption adapter that the test-suite of the repository uses
    (prefixing with [encrypted:]). *)

Module Reference.

(** Days since 1970-01-01 of a date of the proleptic Gregorian calendar. *)
Definition days_from_civil (y m d : Z) : Z :=
  let y := if m <=? 2 then y - 1 else y in
  let era := y / 400 in
  let yoe := y - era * 400 in
  let doy := (153 * (if m >? 2 then m - 3 else m + 9) + 2) / 5 + d - 1 in
  let doe := yoe * 365 + yoe / 4 - yoe / 100 + doy in
  era * 146097 + doe - 719468.

Definition civil_from_days (days : Z) : Z * Z * Z :=
  let z := days + 719468 in
  let era := z / 146097 in
  let doe := z - era * 146097 in
  let yoe := (doe - doe / 1460 + doe / 36524 - doe / 146096) / 365 in
  let doy := doe - (365 * yoe + yoe / 4 - yoe / 100) in
  let mp := (5 * doy + 2) / 153 in
  let d := doy - (153 * mp + 2) / 5 + 1 in
  let m := if mp <? 10 then mp + 3 else mp - 9 in
  let y := yoe + era * 400 + (if m <=? 2 then 1 else 0) in
  (y, m, d).

(** A non-negative integer in decimal, padded with zeros to [width]. *)
Definition pad (width : nat) (n : Z) : jsstring :=
  let digits := Number_toString n in
  repeat 0x30 (width - length digits)%nat ++ digits.

Definition toISOString (ms : Z) : jsstring :=
  let '(y, m, d) := civil_from_days (ms / 86400000) in
  let r := ms mod 86400000 in
  (if (0 <=? y) && (y <=? 9999) then pad 4 y
   else (if y <? 0 then lit "-" else lit "+") ++ pad 6 (Z.abs y))
  ++ lit "-" ++ pad 2 m ++ lit "-" ++ pad 2 d
  ++ lit "T" ++ pad 2 (r / 3600000)
  ++ lit ":" ++ pad 2 (r / 60000 mod 60)
  ++ lit ":" ++ pad 2 (r / 1000 mod 60)
  ++ lit "." ++ pad 3 (r mod 1000) ++ lit "Z".

(** The number written with decimal digits at positions [i .. i+n-1]. *)
Definition field (s : jsstring) (i n : nat) : option Z :=
  let ds := firstn n (skipn i s) in
  if (length ds =? n)%nat && forallb is_decimal_digit ds
  then Some (digits_value ds) else None.

Definition getTime (s : jsstring) : number :=
  if negb (length s =? 24)%nat then NaN
  else if negb (forallb (fun '(i, u) => nth i s 0 =? u)
                  [(4%nat, 0x2D); (7%nat, 0x2D); (10%nat, 0x54);
                   (13%nat, 0x3A); (16%nat, 0x3A); (19%nat, 0x2E);
                   (23%nat, 0x5A)])
  then NaN
  else
    match field s 0 4, field s 5 2, field s 8 2,
          field s 11 2, field s 14 2, field s 17 2, field s 20 3 with
    | Some y, Some m, Some d, Some h, Some mi, Some sec, Some f =>
        if (1 <=? m) && (m <=? 12) && (1 <=? d) && (d <=? 31)
           && (h <=? 23) && (mi <=? 59) && (sec <=? 59)
        then Num (days_from_civil y m d * 86400000
                  + h * 3600000 + mi * 60000 + sec * 1000 + f)
        else NaN
    | _, _, _, _, _, _, _ => NaN
    end.

Definition hex_digit (n : Z) : Z :=
  if n <? 10 then 0x30 + n else 0x61 + (n - 10).

Definition escape_unit (u : Z) : jsstring :=
  if u =? 0x22 then [0x5C; 0x22]
  else if u =? 0x5C then [0x5C; 0x5C]
  else if u =? 0x08 then lit "\b"
  else if u =? 0x09 then lit "\t"
  else if u =? 0x0A then lit "\n"
  else if u =? 0x0C then lit "\f"
  else if u =? 0x0D then lit "\r"
  else if u <? 0x20 then
    lit "\u00" ++ [hex_digit (u / 16); hex_digit (u mod 16)]
  else [u].

Definition quote (s : jsstring) : jsstring :=
  [0x22] ++ flat_map escape_unit s ++ [0x22].

Fixpoint stringify_value (v : JSONValue) : jsstring :=
  match v with
  | JNull => lit "null"
  | JBool b => if b then lit "true" else lit "false"
  | JNumber n => Number_toString n
  | JString s => quote s
  | JArray items =>
      lit "["
      ++ (fix go (l : list JSONValue) : jsstring :=
            match l with
            | [] => []
            | x :: r =>
                stringify_value x
                ++ match r with [] => [] | _ :: _ => lit "," ++ go r end
            end) items
      ++ lit "]"
  | JObject members =>
      lit "{"
      ++ (fix go (l : list (jsstring * JSONValue)) : jsstring :=
            match l with
            | [] => []
            | (k, x) :: r =>
                quote k ++ lit ":" ++ stringify_value x
                ++ match r with [] => [] | _ :: _ => lit "," ++ go r end
            end) members
      ++ lit "}"
  end.

Definition stringify_nullable (o : option jsstring) : jsstring :=
  match o with Some s => quote s | None => lit "null" end.

Definition entry_value_of (e : SessionEntry) : JSONValue :=
  JObject [(lit "value", value e); (lit "flash", JBool (flash e))].

Definition stringify (d : SessionData) : jsstring :=
  lit "{" ++ quote (lit "_data") ++ lit ":"
  ++ stringify_value
       (JObject (map (fun '(k, e) => (k, entry_value_of e)) (_data d)))
  ++ lit "," ++ quote (lit "_expire") ++ lit ":"
  ++ stringify_nullable (_expire d)
  ++ lit "," ++ quote (lit "_delete") ++ lit ":"
  ++ (if _delete d then lit "true" else lit "false")
  ++ lit "," ++ quote (lit "_accessed") ++ lit ":"
  ++ stringify_nullable (_accessed d)
  ++ lit "}".

(** A parser for the serialisations of the sessions in [known], for
    [null], and nothing else. *)
Definition parse_among (known : list SessionData) (text : jsstring)
    : outcome (option SessionData) :=
  match find (fun d => bool_decide (stringify d = text)) known with
  | Some d => Ok (Some d)
  | None =>
      if bool_decide (text = lit "null") then Ok None
      else Throw (lit "Unexpected token in JSON")
  end.

Definition tag_encrypt (key data : jsstring) : outcome jsstring :=
  Ok (lit "encrypted:" ++ data).

Definition tag_decrypt (key data : jsstring) : outcome jsstring :=
  let tag := lit "encrypted:" in
  if bool_decide (firstn (length tag) data = tag)
  then Ok (skipn (length tag) data)
  else Throw (lit "Invalid encrypted data format").

Definition platform (known : list SessionData) : Platform :=
  {| JSON_stringify := stringify;
     JSON_parse := parse_among known;
     encrypt := tag_encrypt;
     decrypt := tag_decrypt;
     Date_getTime := getTime;
     Date_toISOString := toISOString |}.

End Reference.

(** ** Specification-level notions for the chunking codec *)

(** Total UTF-8 size of a run of characters, each encoded on its own (what
    [currentBytes] accumulates). *)
Definition byte_sum (g : list jsstring) : Z :=
  fold_right (fun c acc => byte_length c + acc) 0 g.

(** The chunks as groups of whole characters: the result of the loop when
    the characters [g] are already in the current chunk and [cs] are still
    to come.  The last group is the chunk left in [current]. *)
Fixpoint groups (maxBytes : Z) (cs : list jsstring) (g : list jsstring)
    : list (list jsstring) :=
  match cs with
  | [] => [g]
  | c :: rest =>
      if byte_sum g + byte_length c >? maxBytes
      then g :: groups maxBytes rest [c]
      else groups maxBytes rest (g ++ [c])
  end.

Definition starts_low (cs : list jsstring) : bool :=
  match cs with
  | (v :: _) :: _ => is_low v
  | _ => false
  end.

(** A sequence of characters as the string iterator produces them: each is
    a surrogate pair or a single code unit, and a single high surrogate is
    never directly followed by a low one. *)
Inductive segmented : list jsstring -> Prop :=
  | seg_nil : segmented []
  | seg_pair h l cs :
      is_high h && is_low l = true ->
      segmented cs -> segmented ([h; l] :: cs)
  | seg_single u cs :
      is_high u && starts_low cs = false ->
      segmented cs -> segmented ([u] :: cs).

(** [ceil(a / b)] for a positive [b]. *)
Definition ceil_div (a b : Z) : Z := (a + b - 1) / b.

(** All characters single-byte: code units below 0x80. *)
Definition ascii_only (s : jsstring) : Prop :=
  Forall (fun u => 0 <= u < 0x80) s.

(** ** Specification-level notions for the cookie store *)

(** The names of the eleven cookies of a session with base name [N]:
    [N], [N_1], ..., [N_9] and [N_count]. *)
Definition cookie_names (N : jsstring) : list jsstring :=
  [N; N ++ lit "_1"; N ++ lit "_2"; N ++ lit "_3"; N ++ lit "_4";
   N ++ lit "_5"; N ++ lit "_6"; N ++ lit "_7"; N ++ lit "_8";
   N ++ lit "_9"; N ++ lit "_count"].

(** A cookie write that clears with immediate expiry: the empty value and
    [maxAge: 0]. *)
Definition expires_immediately (w : SetCookie) : Prop :=
  sc_value w = [] /\
  exists o, sc_options w = Some o /\ maxAge o = Some 0.

(** The decimal representation of a positive integer: decimal digits
    only, at least one, denoting a number from 1 on. *)
Definition is_positive_integer_string (v : jsstring) : bool :=
  truthy v && forallb is_decimal_digit v && (1 <=? digits_value v).

(** A context that only carries the cookies of a request. *)
Definition request_with (cookies : gmap jsstring jsstring) : Context :=
  {| req_cookies := cookies; res_cookies := []; env := None |}.

(** ** Specification-level notions for the keyed backend store *)

(** A world in which the request context binds [name] to [namespace]. *)
Definition world_with (name : jsstring) (namespace : KVNamespace)
    : CloudflareKVStore.World :=
  {| CloudflareKVStore.asyncLocalStore :=
       Some {| req_cookies := ∅; res_cookies := [];
               env := Some {[ name := namespace ]} |};
     CloudflareKVStore.console_errors := [] |}.

Definition empty_namespace : KVNamespace :=
  {| kv_records := ∅; kv_fault := None |}.

(** The ambient binding of the store is missing: no context is bound, or
    the context has no environment, or the environment has no namespace
    under the configured name. *)
Definition binding_missing (this : CloudflareKVStore.t)
    (w : CloudflareKVStore.World) : Prop :=
  match CloudflareKVStore.asyncLocalStore w with
  | None => True
  | Some context =>
      match env context with
      | None => True
      | Some bindings => bindings !! CloudflareKVStore.kvName this = None
      end
  end.

(** The message of the missing-binding error. *)
Definition missing_binding_message (this : CloudflareKVStore.t)
    (w : CloudflareKVStore.World) : jsstring :=
  match CloudflareKVStore.asyncLocalStore w with
  | None => lit "KV namespace is not available in the current context"
  | Some _ =>
      lit "KV namespace " ++ [0x22] ++ CloudflareKVStore.kvName this
      ++ [0x22] ++ lit " is not available in the current context"
  end.

(** The binding resolves to [namespace], and the backend answers. *)
Definition bound_to (this : CloudflareKVStore.t)
    (w : CloudflareKVStore.World) (namespace : KVNamespace) : Prop :=
  CloudflareKVStore.kv this w = (Ok namespace, w) /\
  kv_fault namespace = None.

(** The session as [createSession] serialises it: the last-access time is
    filled in when the session has none. *)
Definition created `{Platform} (now : Z) (initialData : SessionData)
    : SessionData :=
  if truthy_opt (_accessed initialData) then initialData
  else set_accessed initialData (Some (Date_toISOString now)).

(** The record under the key of [sessionId], as the store sees the backend
    in the world [w]. *)
Definition record_of (this : CloudflareKVStore.t)
    (w : CloudflareKVStore.World) (sessionId : jsstring) : option KVEntry :=
  match fst (CloudflareKVStore.kv this w) with
  | Ok namespace =>
      kv_records namespace
        !! CloudflareKVStore.getKeyFromSessionId this sessionId
  | Throw _ => None
  end.

(** The world after a report to [console.error]. *)
Definition reported (label error : jsstring) (w : CloudflareKVStore.World)
    : CloudflareKVStore.World :=
  snd (CloudflareKVStore.console_error label error w).

(** ** Fixtures, after the test-suite of the repository *)

(** [{ path: "/", httpOnly: true }] *)
Definition test_cookie_options : CookieOptions :=
  {| domain := None; expires := None; httpOnly := Some true; maxAge := None;
     path := Some (lit "/"); secure := None; sameSite := None;
     partitioned := None; priority := None; prefix := None |}.

Definition test_cookie_store : CookieStore.t :=
  CookieStore.new
    (Some {| CookieStore.opt_encryptionKey :=
               Some (lit "test-encryption-key-with-at-least-32-chars");
             CookieStore.opt_cookieOptions := Some test_cookie_options;
             CookieStore.opt_sessionCookieName := lit "test-session" |}).

(** [{ _data: { user: { value: { id: 1 }, flash: false } }, _expire: null,
       _delete: false, _accessed: null }] *)
Definition test_session : SessionData :=
  {| _data :=
       [(lit "user",
         {| value := JObject [(lit "id", JNumber 1)]; flash := false |})];
     _expire := None; _delete := false; _accessed := None |}.

(** ["a".repeat(4000)], eleven times. *)
Definition veryLargePayload : jsstring := repeat 0x61 (Z.to_nat 44000).

(** The reference platform with [encrypt] resolving to [payload], as the
    tests arrange with [mockResolvedValueOnce]. *)
Definition platform_encrypting_to (payload : jsstring) : Platform :=
  {| JSON_stringify := Reference.stringify;
     JSON_parse := Reference.parse_among [];
     encrypt := fun _ _ => Ok payload;
     decrypt := Reference.tag_decrypt;
     Date_getTime := Reference.getTime;
     Date_toISOString := Reference.toISOString |}.

(** [new CloudflareKVStore({ kv: "MY_KV" })] *)
Definition test_kv_store : CloudflareKVStore.t :=
  CloudflareKVStore.new
    {| CloudflareKVStore.opt_kv := lit "MY_KV";
       CloudflareKVStore.opt_expirationTtl := None;
       CloudflareKVStore.opt_prefix := None |}.

(** A session marked for deletion. *)
Definition deleted_session : SessionData :=
  {| _data := _data test_session; _expire := None; _delete := true;
     _accessed := Some (lit "2023-01-01T00:00:00.000Z") |}.

(** A session last accessed at the start of 2023. *)
Definition accessed_session : SessionData :=
  {| _data := _data test_session; _expire := None; _delete := false;
     _accessed := Some (lit "2023-01-01T00:00:00.000Z") |}.

(** A session whose expiry is the first instant of the epoch. *)
Definition epoch_session : SessionData :=
  {| _data := _data test_session;
     _expire := Some (lit "1970-01-01T00:00:00.000Z"); _delete := false;
     _accessed := Some (lit "2023-01-01T00:00:00.000Z") |}.

(** A session that expires at 2024-10-27T04:33:20Z. *)
Definition expiring_session : SessionData :=
  {| _data := _data test_session;
     _expire := Some (lit "2024-10-27T04:33:20.000Z"); _delete := false;
     _accessed := Some (lit "2023-01-01T00:00:00.000Z") |}.

(** The time of the clock in the examples: 2024-10-27T03:33:20Z. *)
Definition test_now : Z := 1730000000000.

(** A backend that holds one record, the serialisation of [d] under the
    key of [test-session-id]. *)
Definition namespace_holding (d : SessionData) : KVNamespace :=
  {| kv_records :=
       {[ lit "session:test-session-id" :=
            {| entry_value := Reference.stringify d;
               entry_options :=
                 {| put_expirationTtl := Some 86400;
                    put_expiration := None |} |} ]};
     kv_fault := None |}.

Definition no_context : CloudflareKVStore.World :=
  {| CloudflareKVStore.asyncLocalStore := None;
     CloudflareKVStore.console_errors := [] |}.

(** ** Configure.ts: the choice of the store and of the settings *)

Module Configure.

(** The variables of [process.env] that [configure] reads. *)
Record ProcessEnv : Type := {
  SESSION_STORE : option jsstring;
  SESSION_STORE_NAMESPACE : option jsstring;
  SESSION_EXPIRE_AFTER_SECONDS : option jsstring;
  SESSION_COOKIE_NAME : option jsstring;
  SESSION_ENCRYPTION_KEY : option jsstring;
}.

(** A session store: one of the two built-in ones at hand, or another
    implementation of the [Store] interface, of which [configure] only
    passes the reference on. *)
Inductive store (Custom : Type) : Type :=
  | KV (s : CloudflareKVStore.t)
  | Cookie (s : CookieStore.t)
  | Other (s : Custom).

Arguments KV {Custom} s.
Arguments Cookie {Custom} s.
Arguments Other {Custom} s.

Record SessionOptions (Custom : Type) : Type := {
  opt_store : option (store Custom);
  opt_encryptionKey : option jsstring;
  opt_expireAfterSeconds : option Z;
  opt_cookieOptions : option CookieOptions;
  opt_sessionCookieName : option jsstring;
  opt_autoExtendExpiration : option bool;
}.

Arguments opt_store {Custom} _.
Arguments opt_encryptionKey {Custom} _.
Arguments opt_expireAfterSeconds {Custom} _.
Arguments opt_cookieOptions {Custom} _.
Arguments opt_sessionCookieName {Custom} _.
Arguments opt_autoExtendExpiration {Custom} _.

(** What [configure] returns. *)
Record Settings (Custom : Type) : Type := {
  encryptionKey : option jsstring;
  expireAfterSeconds : option number;
  sessionCookieName : jsstring;
  chosen_store : store Custom;
  cookieOptions : CookieOptions;
}.

Arguments encryptionKey {Custom} _.
Arguments expireAfterSeconds {Custom} _.
Arguments sessionCookieName {Custom} _.
Arguments chosen_store {Custom} _.
Arguments cookieOptions {Custom} _.

(** [a ?? b] *)
Definition nullish {A} (a b : option A) : option A :=
  match a with Some _ => a | None => b end.

(** [{ httpOnly: true, sameSite: "Lax" }] *)
Definition default_cookieOptions : CookieOptions :=
  {| domain := None; expires := None; httpOnly := Some true; maxAge := None;
     path := None; secure := None; sameSite := Some (lit "Lax");
     partitioned := None; priority := None; prefix := None |}.

(** The store when the options give none: the first [if (!store)] block,
    up to the check that throws. *)
Definition store_from_env {Custom} (options : SessionOptions Custom)
    (env : ProcessEnv) : option (store Custom) :=
  if bool_decide (SESSION_STORE env = Some (lit "cloudflare-kv"))
     || truthy_opt (SESSION_STORE_NAMESPACE env)
  then
    Some (KV (CloudflareKVStore.new
                {| CloudflareKVStore.opt_kv :=
                     match SESSION_STORE_NAMESPACE env with
                     | Some name => if truthy name then name
                                    else lit "Sessions"
                     | None => lit "Sessions"
                     end;
                   CloudflareKVStore.opt_expirationTtl :=
                     opt_expireAfterSeconds options;
                   CloudflareKVStore.opt_prefix := None |}))
  else if negb (truthy_opt (SESSION_STORE env))
          || bool_decide (SESSION_STORE env = Some (lit "cookie"))
  then Some (Cookie (CookieStore.new None))
  else None.

Definition configure {Custom} (options : SessionOptions Custom)
    (env : ProcessEnv) : outcome (Settings Custom) :=
  let store :=
    match opt_store options with
    | Some s => Some s
    | None => store_from_env options env
    end in
  match store with
  | None =>
      Throw (lit "No session store provided. Please provide a session store or set the SESSION_STORE environment variable.")
  | Some store =>
      Ok {| cookieOptions :=
              match opt_cookieOptions options with
              | Some o => o
              | None => default_cookieOptions
              end;
            expireAfterSeconds :=
              nullish (Num <$> opt_expireAfterSeconds options)
                (parseInt <$> SESSION_EXPIRE_AFTER_SECONDS env);
            sessionCookieName :=
              match nullish (opt_sessionCookieName options)
                      (SESSION_COOKIE_NAME env) with
              | Some name => name
              | None => lit "session"
              end;
            encryptionKey :=
              nullish (opt_encryptionKey options)
                (SESSION_ENCRYPTION_KEY env);
            chosen_store := store |}
  end.

End Configure.

(** ** Further specification-level notions *)

(** The cookies a client holds after a sequence of [setCookie] calls, as
    far as names and values go: the last value set under each name. *)
Definition write_all (writes : list SetCookie)
    (jar : gmap jsstring jsstring) : gmap jsstring jsstring :=
  fold_left (fun jar w => <[sc_name w := sc_value w]> jar) writes jar.

Definition last_written (writes : list SetCookie) : gmap jsstring jsstring :=
  write_all writes ∅.

(** A request presents the cookies as they were last set: a cookie last
    set to a non-empty value comes back with that value, a cookie last
    set to the empty value comes back empty or not at all. *)
Definition presents (writes : list SetCookie)
    (jar : gmap jsstring jsstring) : Prop :=
  forall name value,
    last_written writes !! name = Some value ->
    if truthy value then jar !! name = Some value
    else truthy_opt (jar !! name) = false.

(** The writes of the chunk loop of [persistSessionData], from index [i]
    on. *)
Fixpoint indexed_writes (N : jsstring) (options : option CookieOptions)
    (i : Z) (chunks : list jsstring) : list SetCookie :=
  match chunks with
  | [] => []
  | chunk :: rest =>
      {| sc_name := getCookieName N i; sc_value := chunk;
         sc_options := options |}
      :: indexed_writes N options (i + 1) rest
  end.

(** The writes of the clean-up. *)
Definition cleanup_writes (this : CookieStore.t) : list SetCookie :=
  map (fun name =>
         {| sc_name := name; sc_value := [];
            sc_options :=
              Some (spread_maxAge_0 (CookieStore.cookieOptions this)) |})
      (firstn 10 (cookie_names (CookieStore.sessionCookieName this)))
  ++ [{| sc_name := CookieStore.countCookieName this; sc_value := [];
         sc_options := CookieStore.cookieOptions this |}].

(** The writes of [persistSessionData] after the clean-up, for the chunks
    of a payload that is not oversized. *)
Definition data_writes (this : CookieStore.t) (chunks : list jsstring)
    : list SetCookie :=
  match chunks with
  | [] => []
  | [chunk] =>
      [{| sc_name := CookieStore.sessionCookieName this; sc_value := chunk;
          sc_options := CookieStore.cookieOptions this |}]
  | _ =>
      indexed_writes (CookieStore.sessionCookieName this)
        (CookieStore.cookieOptions this) 0 chunks
      ++ [{| sc_name := CookieStore.countCookieName this;
             sc_value := Number_toString (Z.of_nat (length chunks));
             sc_options := CookieStore.cookieOptions this |}]
  end.

(** What follows the base name in the name of the cookie of index [i]. *)
Definition name_suffix (i : Z) : jsstring :=
  if i =? 0 then [] else lit "_" ++ Number_toString i.

(** Chunks filled greedily: each group but the last would exceed the
    budget with the first character of the next one. *)
Inductive greedy (maxBytes : Z) : list (list jsstring) -> Prop :=
  | greedy_last x : greedy maxBytes [x]
  | greedy_next x c rest G :
      byte_sum x + byte_length c > maxBytes ->
      greedy maxBytes ((c :: rest) :: G) ->
      greedy maxBytes (x :: (c :: rest) :: G).

(** The context after further [setCookie] calls. *)
Definition with_writes (c : Context) (writes : list SetCookie) : Context :=
  {| req_cookies := req_cookies c;
     res_cookies := res_cookies c ++ writes;
     env := env c |}.

(** The context of a later request that carries the cookies [jar]. *)
Definition next_request (c : Context) (jar : gmap jsstring jsstring)
    : Context :=
  {| req_cookies := jar; res_cookies := []; env := env c |}.

(** Options without a store, and an environment that names a namespace
    next to [SESSION_STORE=cookie]. *)
Definition options_without_store : Configure.SessionOptions unit :=
  {| Configure.opt_store := None;
     Configure.opt_encryptionKey := Some (lit "a-key");
     Configure.opt_expireAfterSeconds := Some 0;
     Configure.opt_cookieOptions := None;
     Configure.opt_sessionCookieName := None;
     Configure.opt_autoExtendExpiration := None |}.

Definition env_with_namespace : Configure.ProcessEnv :=
  {| Configure.SESSION_STORE := Some (lit "cookie");
     Configure.SESSION_STORE_NAMESPACE := Some (lit "MY_KV");
     Configure.SESSION_EXPIRE_AFTER_SECONDS := Some (lit "60");
     Configure.SESSION_COOKIE_NAME := None;
     Configure.SESSION_ENCRYPTION_KEY := None |}.

(* ===================================================================== *)
(** * Part II. Properties *)
(* ===================================================================== *)

(** ** The string iterator and the encoder *)

Section StringIterator.

(** Induction two code units at a time, following [string_iterator]. *)
Lemma jsstring_pair_ind (P : jsstring -> Prop) :
  P [] ->
  (forall u, P [u]) ->
  (forall u v r, P (v :: r) -> P r -> P (u :: v :: r)) ->
  forall s, P s.
Proof.
  intros Hnil Hone Hstep s.
  assert (H : P s /\ forall u, P (u :: s)).
  { induction s as [|v r [IH1 IH2]].
    - split; [exact Hnil | exact Hone].
    - split; [apply IH2 | intros u; apply Hstep; [apply IH2 | exact IH1]]. }
  exact (proj1 H).
Qed.

Lemma string_iterator_cons2 (u v : Z) (r : jsstring) :
  string_iterator (u :: v :: r) =
  if is_high u && is_low v
  then [u; v] :: string_iterator r
  else [u] :: string_iterator (v :: r).
Proof. reflexivity. Qed.

Lemma scalar_values_cons2 (u v : Z) (r : jsstring) :
  scalar_values (u :: v :: r) =
  if is_high u && is_low v
  then (0x10000 + (u - 0xD800) * 0x400 + (v - 0xDC00)) :: scalar_values r
  else (if is_surrogate u then 0xFFFD else u) :: scalar_values (v :: r).
Proof. reflexivity. Qed.

Lemma string_iterator_concat (s : jsstring) :
  concat (string_iterator s) = s.
Proof.
  induction s as [|u|u v r IH1 IH2] using jsstring_pair_ind; [done..|].
  rewrite string_iterator_cons2. destruct (is_high u && is_low v).
  - cbn [concat app]. by rewrite IH2.
  - cbn [concat app]. by rewrite IH1.
Qed.

Lemma starts_low_iterator (v : Z) (r : jsstring) :
  starts_low (string_iterator (v :: r)) = is_low v.
Proof.
  destruct r as [|w r]; [done|]. rewrite string_iterator_cons2.
  by destruct (is_high v && is_low w).
Qed.

Lemma string_iterator_segmented (s : jsstring) :
  segmented (string_iterator s).
Proof.
  induction s as [|u|u v r IH1 IH2] using jsstring_pair_ind.
  - constructor.
  - apply seg_single; [by rewrite andb_false_r | constructor].
  - rewrite string_iterator_cons2. destruct (is_high u && is_low v) eqn:E.
    + by apply seg_pair.
    + apply seg_single; [|exact IH1]. by rewrite starts_low_iterator.
Qed.

(** The first code unit of a non-empty segmented sequence, as
    [starts_low] sees it. *)
Lemma segmented_head (cs : list jsstring) :
  segmented cs ->
  cs = [] \/ exists v r, concat cs = v :: r /\ starts_low cs = is_low v.
Proof.
  destruct 1 as [|h l cs _ _|u cs _ _]; [by left|right..].
  - by exists h, (l :: concat cs).
  - by exists u, (concat cs).
Qed.

Lemma segmented_iterator (cs : list jsstring) :
  segmented cs -> string_iterator (concat cs) = cs.
Proof.
  induction 1 as [|h l cs E _ IH|u cs E Hs IH].
  - done.
  - cbn [concat app]. by rewrite string_iterator_cons2, E, IH.
  - cbn [concat app]. destruct (segmented_head _ Hs) as [->|(v & r & Hc & Hl)].
    + done.
    + rewrite Hc in *. rewrite Hl in E.
      by rewrite string_iterator_cons2, E, IH.
Qed.

Lemma segmented_scalar_values (cs : list jsstring) :
  segmented cs -> scalar_values (concat cs) = flat_map scalar_values cs.
Proof.
  induction 1 as [|h l cs E _ IH|u cs E Hs IH].
  - done.
  - cbn [concat app flat_map]. rewrite scalar_values_cons2, E, IH.
    cbn [scalar_values]. by rewrite E.
  - cbn [concat flat_map app]. rewrite <- IH. clear IH.
    destruct (segmented_head _ Hs) as [->|(v & r & Hc & Hl)].
    + done.
    + rewrite Hc. rewrite Hl in E. by rewrite scalar_values_cons2, E.
Qed.

Lemma segmented_app (a b : list jsstring) :
  segmented (a ++ b) -> segmented a /\ segmented b.
Proof.
  induction a as [|c a IH]; cbn [app].
  - intros H. split; [constructor | exact H].
  - intros H. inversion H as [|h l cs E Hs|u cs E Hs]; subst.
    + destruct (IH Hs) as [Ha Hb]. split; [by apply seg_pair | done].
    + destruct (IH Hs) as [Ha Hb]. split; [|done].
      apply seg_single; [|done].
      destruct a as [|[|w c'] a]; cbn in *; try done.
      by rewrite andb_false_r.
Qed.

Lemma segmented_concat (G : list (list jsstring)) :
  segmented (concat G) -> Forall segmented G.
Proof.
  induction G as [|g G IH]; cbn [concat]; intros H; constructor.
  - by apply segmented_app in H as [? _].
  - apply IH. by apply segmented_app in H as [_ ?].
Qed.

Lemma segmented_nonempty (cs : list jsstring) :
  segmented cs -> Forall (fun c => c <> []) cs.
Proof. induction 1; constructor; done. Qed.

Lemma encode_concat (cs : list jsstring) :
  segmented cs ->
  TextEncoder_encode (concat cs) = flat_map TextEncoder_encode cs.
Proof.
  intros H. unfold TextEncoder_encode.
  rewrite (segmented_scalar_values _ H).
  clear H. induction cs as [|c cs IH]; [done|].
  cbn [flat_map]. by rewrite flat_map_app, IH.
Qed.

Lemma byte_length_concat (cs : list jsstring) :
  segmented cs -> byte_length (concat cs) = byte_sum cs.
Proof.
  intros H. unfold byte_length. rewrite (encode_concat _ H). clear H.
  induction cs as [|c cs IH]; [done|].
  cbn [flat_map byte_sum fold_right]. rewrite length_app, Nat2Z.inj_add.
  unfold byte_sum in IH. by rewrite IH.
Qed.

End StringIterator.

(** ** The chunking codec *)

Section Chunking.

Variable maxBytes : Z.

Lemma byte_length_nonneg (c : jsstring) : 0 <= byte_length c.
Proof. unfold byte_length. lia. Qed.

Lemma byte_sum_cons (c : jsstring) (g : list jsstring) :
  byte_sum (c :: g) = byte_length c + byte_sum g.
Proof. reflexivity. Qed.

Lemma byte_sum_nonneg (g : list jsstring) : 0 <= byte_sum g.
Proof.
  induction g as [|c g IH]; [done|]. rewrite byte_sum_cons.
  pose proof (byte_length_nonneg c). lia.
Qed.

Lemma byte_sum_app (a b : list jsstring) :
  byte_sum (a ++ b) = byte_sum a + byte_sum b.
Proof.
  induction a as [|c a IH]; [done|].
  cbn [app]. rewrite !byte_sum_cons. lia.
Qed.

Lemma byte_sum_one (c : jsstring) : byte_sum [c] = byte_length c.
Proof. rewrite byte_sum_cons. cbn. lia. Qed.

Lemma concat_snoc (g : list jsstring) (c : jsstring) :
  concat (g ++ [c]) = concat g ++ c.
Proof. rewrite concat_app. cbn. by rewrite app_nil_r. Qed.

(** The loop over strings computes the concatenations of the groups of
    characters. *)
Lemma chunk_loop_groups (cs : list jsstring) :
  forall (chunks : list jsstring) (g : list jsstring),
    let r := chunk_loop maxBytes cs chunks (concat g) (byte_sum g) in
    fst r ++ [snd r] = chunks ++ map (@concat Z) (groups maxBytes cs g).
Proof.
  induction cs as [|c rest IH]; intros chunks g; [done|].
  cbn [chunk_loop groups].
  destruct (byte_sum g + byte_length c >? maxBytes).
  - specialize (IH (chunks ++ [concat g]) [c]).
    rewrite byte_sum_one in IH. cbn [concat] in IH.
    rewrite app_nil_r in IH. cbn zeta in IH. rewrite IH.
    cbn [map]. by rewrite <- app_assoc.
  - specialize (IH chunks (g ++ [c])).
    rewrite concat_snoc, byte_sum_app, byte_sum_one in IH. exact IH.
Qed.

Lemma groups_concat (cs g : list jsstring) :
  concat (groups maxBytes cs g) = g ++ cs.
Proof.
  revert g. induction cs as [|c rest IH]; intros g; cbn [groups].
  - cbn. by rewrite !app_nil_r.
  - destruct (_ >? _); [cbn [concat] | ]; rewrite IH; [done|].
    by rewrite <- app_assoc.
Qed.

Lemma groups_last (cs g : list jsstring) :
  exists G x,
    groups maxBytes cs g = G ++ [x] /\ (g <> [] \/ cs <> [] -> x <> []).
Proof.
  revert g. induction cs as [|c rest IH]; intros g; cbn [groups].
  - exists [], g. split; [done|]. by intros [?|?].
  - destruct (_ >? _).
    + destruct (IH [c]) as (G & x & -> & Hx).
      exists (g :: G), x. split; [done|]. intros _. apply Hx. by left.
    + destruct (IH (g ++ [c])) as (G & x & -> & Hx).
      exists G, x. split; [done|]. intros _. apply Hx. left.
      by destruct g.
Qed.

Lemma concat_nonempty (x : list jsstring) :
  x <> [] -> Forall (fun c : jsstring => c <> []) x -> concat x <> [].
Proof.
  destruct x as [|c x]; [done|]. intros _ H.
  apply Forall_cons_1 in H as [Hc _]. by destruct c.
Qed.

Lemma Forall_concat_groups {A} (P : A -> Prop) (G : list (list A)) :
  Forall P (concat G) -> Forall (Forall P) G.
Proof.
  induction G as [|g G IH]; cbn [concat]; intros H; constructor.
  - by apply Forall_app in H as [? _].
  - apply IH. by apply Forall_app in H as [_ ?].
Qed.

(** Groups of a string's characters, as the codec forms them. *)
Lemma groups_of_iterator (s : jsstring) :
  let G := groups maxBytes (string_iterator s) [] in
  concat G = string_iterator s /\
  Forall segmented G /\
  Forall (Forall (fun c : jsstring => c <> [])) G.
Proof.
  cbn zeta. pose proof (groups_concat (string_iterator s) []) as Hc.
  cbn [app] in Hc. pose proof (string_iterator_segmented s) as Hs.
  split; [done|]. split.
  - apply segmented_concat. by rewrite Hc.
  - apply Forall_concat_groups. rewrite Hc. by apply segmented_nonempty.
Qed.

Lemma chunkStringByBytes_empty : chunkStringByBytes [] maxBytes = [].
Proof. reflexivity. Qed.

(** On a non-empty input the chunks are exactly the concatenated groups:
    the chunk left in [current] after the loop holds the last character,
    so the final [if (current)] pushes it. *)
Lemma chunkStringByBytes_groups (s : jsstring) :
  s <> [] ->
  chunkStringByBytes s maxBytes =
  map (@concat Z) (groups maxBytes (string_iterator s) []).
Proof.
  intros Hs. unfold chunkStringByBytes.
  pose proof (chunk_loop_groups (string_iterator s) [] []) as H.
  cbn zeta in H. cbn [concat byte_sum fold_right app] in H.
  destruct (chunk_loop maxBytes (string_iterator s) [] [] 0)
    as [chunks current]. cbn [fst snd] in H.
  destruct (groups_of_iterator s) as (_ & _ & Hne). cbn zeta in Hne.
  destruct (groups_last (string_iterator s) []) as (G & x & HG & Hx).
  rewrite HG in *. rewrite map_app in H. cbn [map] in H.
  apply app_inj_tail in H as [-> ->].
  assert (concat x <> []) as Hcx.
  { apply concat_nonempty.
    - apply Hx. right. intros E.
      apply Hs. by rewrite <- (string_iterator_concat s), E.
    - apply Forall_app in Hne as [_ Hne].
      by apply Forall_cons_1 in Hne as [? _]. }
  rewrite map_app. cbn [map]. by destruct (concat x).
Qed.

Lemma concat_map_concat {A} (G : list (list (list A))) :
  concat (map (@concat A) G) = concat (concat G).
Proof.
  induction G as [|g G IH]; [done|].
  cbn [map concat]. by rewrite concat_app, IH.
Qed.

Lemma map_iterator_groups (G : list (list jsstring)) :
  Forall segmented G -> map string_iterator (map (@concat Z) G) = G.
Proof.
  induction 1 as [|g G Hg _ IH]; [done|].
  cbn [map]. by rewrite IH, (segmented_iterator _ Hg).
Qed.

Lemma encode_groups (G : list (list jsstring)) :
  Forall segmented G ->
  flat_map TextEncoder_encode (map (@concat Z) G) =
  flat_map TextEncoder_encode (concat G).
Proof.
  induction 1 as [|g G Hg _ IH]; [done|].
  cbn [map flat_map concat].
  by rewrite flat_map_app, IH, (encode_concat _ Hg).
Qed.

Lemma groups_fit (cs g : list jsstring) :
  byte_sum g + byte_sum cs <= maxBytes ->
  groups maxBytes cs g = [g ++ cs].
Proof.
  revert g. induction cs as [|c rest IH]; intros g H; cbn [groups].
  - by rewrite app_nil_r.
  - rewrite byte_sum_cons in H. pose proof (byte_sum_nonneg rest).
    destruct (Z.gtb_spec (byte_sum g + byte_length c) maxBytes); [lia|].
    rewrite IH, <- app_assoc; [done|].
    rewrite byte_sum_app, byte_sum_one. lia.
Qed.

Lemma groups_bounded (cs g : list jsstring) :
  Forall (fun c => byte_length c <= maxBytes) cs ->
  byte_sum g <= maxBytes ->
  Forall (fun x => byte_sum x <= maxBytes) (groups maxBytes cs g).
Proof.
  intros Hcs. revert g.
  induction Hcs as [|c rest Hc _ IH]; intros g Hg; cbn [groups].
  - by constructor.
  - destruct (Z.gtb_spec (byte_sum g + byte_length c) maxBytes).
    + constructor; [done|]. apply IH. by rewrite byte_sum_one.
    + apply IH. rewrite byte_sum_app, byte_sum_one. lia.
Qed.

Lemma groups_nonempty (cs g : list jsstring) :
  Forall (fun c => byte_length c <= maxBytes) cs ->
  g <> [] \/ cs <> [] ->
  Forall (fun x => x <> []) (groups maxBytes cs g).
Proof.
  intros Hcs. revert g.
  induction Hcs as [|c rest Hc _ IH]; intros g Hg; cbn [groups].
  - constructor; [|done]. by destruct Hg.
  - destruct (Z.gtb_spec (byte_sum g + byte_length c) maxBytes).
    + constructor.
      * intros ->. cbn in *. lia.
      * apply IH. by left.
    + apply IH. left. by destruct g.
Qed.

Lemma byte_length_iterator (s : jsstring) :
  byte_length s = byte_sum (string_iterator s).
Proof.
  rewrite <- byte_length_concat by apply string_iterator_segmented.
  by rewrite string_iterator_concat.
Qed.

Lemma groups_chunks_bounded (G : list (list jsstring)) :
  Forall segmented G ->
  Forall (Forall (fun c : jsstring => c <> [])) G ->
  Forall (fun x => x <> []) G ->
  Forall (fun x => byte_sum x <= maxBytes) G ->
  Forall (fun chunk => chunk <> [] /\ byte_length chunk <= maxBytes)
    (map (@concat Z) G).
Proof.
  induction 1 as [|g G Hg _ IH]; intros H2 H3 H4; [constructor|].
  apply Forall_cons_1 in H2 as [Hne H2].
  apply Forall_cons_1 in H3 as [Hg0 H3].
  apply Forall_cons_1 in H4 as [Hb H4].
  cbn [map]. constructor; [|by apply IH].
  split; [by apply concat_nonempty|].
  by rewrite byte_length_concat.
Qed.

Lemma byte_length_ascii (u : Z) : 0 <= u < 0x80 -> byte_length [u] = 1.
Proof.
  intros Hu. unfold byte_length, TextEncoder_encode, utf8_encode.
  cbn [scalar_values flat_map]. unfold is_surrogate.
  destruct (Z.leb_spec 0xD800 u); [lia|]. cbn [andb].
  by destruct (Z.ltb_spec u 0x80); [|lia].
Qed.

Lemma is_high_ascii (u : Z) : 0 <= u < 0x80 -> is_high u = false.
Proof.
  intros Hu. unfold is_high. by destruct (Z.leb_spec 0xD800 u); [lia|].
Qed.

Lemma string_iterator_ascii (s : jsstring) :
  ascii_only s ->
  Forall (fun c => byte_length c = 1) (string_iterator s).
Proof.
  unfold ascii_only.
  induction s as [|u|u v r IH1 IH2] using jsstring_pair_ind; intros H.
  - constructor.
  - apply Forall_cons_1 in H as [Hu _].
    constructor; [by apply byte_length_ascii | constructor].
  - apply Forall_cons_1 in H as [Hu H].
    rewrite string_iterator_cons2, (is_high_ascii _ Hu). cbn [andb].
    constructor; [by apply byte_length_ascii | by apply IH1].
Qed.

Lemma byte_sum_ones (cs : list jsstring) :
  Forall (fun c => byte_length c = 1) cs ->
  byte_sum cs = Z.of_nat (length cs).
Proof.
  induction 1 as [|c cs Hc _ IH]; [done|].
  rewrite byte_sum_cons, Hc, IH. cbn [length]. lia.
Qed.

(** Number of groups when every character takes one byte: [k] bytes are
    in the current chunk, which is open ([1 <= k <= maxBytes]). *)
Lemma groups_count_ones (cs g : list jsstring) :
  Forall (fun c => byte_length c = 1) cs ->
  1 <= byte_sum g <= maxBytes ->
  Z.of_nat (length (groups maxBytes cs g)) =
  ceil_div (byte_sum g + byte_sum cs) maxBytes.
Proof.
  intros Hcs. revert g. unfold ceil_div.
  induction Hcs as [|c rest Hc _ IH]; intros g Hg; cbn [groups].
  - cbn [byte_sum fold_right length].
    apply Z.div_unique with (byte_sum g - 1); lia.
  - rewrite byte_sum_cons, Hc. pose proof (byte_sum_nonneg rest).
    destruct (Z.gtb_spec (byte_sum g + 1) maxBytes).
    + cbn [length]. rewrite Nat2Z.inj_succ, IH
        by (rewrite byte_sum_one; lia).
      rewrite byte_sum_one, Hc.
      replace (byte_sum g + (1 + byte_sum rest) + maxBytes - 1)
        with (1 + byte_sum rest + maxBytes - 1 + 1 * maxBytes) by lia.
      rewrite Z.div_add by lia. lia.
    + rewrite IH by (rewrite byte_sum_app, byte_sum_one; lia).
      rewrite byte_sum_app, byte_sum_one, Hc. f_equal. lia.
Qed.

End Chunking.

(** [ceil_div a b] is the least number of [b]-sized pieces covering [a]. *)
Lemma ceil_div_spec (a b : Z) :
  0 < b -> (ceil_div a b - 1) * b < a <= ceil_div a b * b.
Proof.
  intros Hb. unfold ceil_div.
  pose proof (Z.div_mod (a + b - 1) b ltac:(lia)).
  pose proof (Z.mod_pos_bound (a + b - 1) b Hb). nia.
Qed.

(** C1. For every input string and every [maxBytes >= 1], the chunks of
    [chunkStringByBytes] concatenated in order give back the input, and no
    code point is divided between two chunks: iterating the code points
    of the chunks one chunk after the other gives exactly the code points
    of the input, and the UTF-8 bytes of the chunks, joined, are the UTF-8
    bytes of the input. *)
Theorem chunks_rejoin_whole_code_points (s : jsstring) (maxBytes : Z) :
  1 <= maxBytes ->
  concat (chunkStringByBytes s maxBytes) = s /\
  concat (map string_iterator (chunkStringByBytes s maxBytes)) =
    string_iterator s /\
  flat_map TextEncoder_encode (chunkStringByBytes s maxBytes) =
    TextEncoder_encode s.
Proof.
  intros _. destruct s as [|u s]; [done|].
  rewrite chunkStringByBytes_groups by done.
  destruct (groups_of_iterator maxBytes (u :: s)) as (Hc & Hseg & _).
  cbn zeta in *. split; [|split].
  - by rewrite concat_map_concat, Hc, string_iterator_concat.
  - by rewrite map_iterator_groups, Hc.
  - rewrite encode_groups, Hc by done.
    rewrite <- encode_concat by apply string_iterator_segmented.
    by rewrite string_iterator_concat.
Qed.

(** UTF-8 leaves single-byte characters as they are. *)
Lemma encode_ascii (s : jsstring) :
  ascii_only s -> TextEncoder_encode s = s.
Proof.
  unfold ascii_only, TextEncoder_encode.
  assert (forall u, 0 <= u < 0x80 ->
            utf8_encode (if is_surrogate u then 0xFFFD else u) = [u]) as Hu.
  { intros u Hu. unfold is_surrogate, utf8_encode.
    destruct (Z.leb_spec 0xD800 u); [lia|]. cbn [andb].
    by destruct (Z.ltb_spec u 0x80); [|lia]. }
  induction s as [|u|u v r IH1 IH2] using jsstring_pair_ind; intros H.
  - done.
  - apply Forall_cons_1 in H as [H _]. cbn [scalar_values flat_map].
    by rewrite (Hu _ H).
  - apply Forall_cons_1 in H as [H Hr].
    rewrite scalar_values_cons2, (is_high_ascii _ H). cbn [andb flat_map].
    by rewrite (Hu _ H), (IH1 Hr).
Qed.

Lemma byte_length_ascii_only (s : jsstring) :
  ascii_only s -> byte_length s = Z.of_nat (length s).
Proof. intros H. unfold byte_length. by rewrite (encode_ascii _ H). Qed.

(** The number of chunks of a non-empty input of single-byte characters. *)
Lemma chunk_count_ascii (s : jsstring) (maxBytes : Z) :
  1 <= maxBytes -> s <> [] -> ascii_only s ->
  Z.of_nat (length (chunkStringByBytes s maxBytes)) =
  ceil_div (byte_length s) maxBytes.
Proof.
  intros HB Hs Hascii. rewrite chunkStringByBytes_groups by done.
  rewrite length_map, byte_length_iterator.
  pose proof (string_iterator_ascii s Hascii) as Hones.
  destruct (string_iterator s) as [|c cs] eqn:E.
  { exfalso. apply Hs. by rewrite <- (string_iterator_concat s), E. }
  apply Forall_cons_1 in Hones as [Hc Hones].
  cbn [groups]. cbn [byte_sum fold_right]. rewrite Hc.
  destruct (Z.gtb_spec (0 + 1) maxBytes); [lia|]. cbn [app].
  rewrite groups_count_ones; [|done|rewrite byte_sum_one; lia].
  by rewrite byte_sum_one, Hc.
Qed.

Lemma ascii_only_repeat (u : Z) (n : nat) :
  0 <= u < 0x80 -> ascii_only (repeat u n).
Proof. intros Hu. induction n; constructor; done. Qed.

Lemma veryLargePayload_chunks :
  length (chunkStringByBytes veryLargePayload 4000) = 11%nat.
Proof.
  assert (ascii_only veryLargePayload) as Hascii
    by (apply ascii_only_repeat; lia).
  assert (length veryLargePayload = Z.to_nat 44000) as Hlen
    by apply repeat_length.
  assert (veryLargePayload <> []) as Hne.
  { intros E. rewrite E in Hlen. cbn [length] in Hlen. lia. }
  pose proof (chunk_count_ascii veryLargePayload 4000
                ltac:(lia) Hne Hascii) as Hcount.
  rewrite (byte_length_ascii_only _ Hascii), Hlen in Hcount.
  rewrite Z2Nat.id in Hcount by lia.
  change (ceil_div 44000 4000) with 11 in Hcount. lia.
Qed.

Lemma chunks_rejoin_whole_code_points_witness :
  let s := [0x61; 0x2764; 0xD83D; 0xDE00; 0xDC00; 0x7A] in
  concat (chunkStringByBytes s 4) = s /\
  concat (map string_iterator (chunkStringByBytes s 4)) =
    string_iterator s /\
  flat_map TextEncoder_encode (chunkStringByBytes s 4) =
    TextEncoder_encode s.
Proof.
  exact (chunks_rejoin_whole_code_points
           [0x61; 0x2764; 0xD83D; 0xDE00; 0xDC00; 0x7A] 4 ltac:(lia)).
Defined.

(** C2. The empty string gives no chunk; a non-empty input whose UTF-8
    size is at most [maxBytes] gives the single chunk equal to the input;
    a non-empty input of single-byte characters of total size [L], split
    with a byte budget [B >= 1], gives exactly [ceil(L / B)] chunks. *)
Theorem chunk_edge_cases_and_count (maxBytes : Z) :
  chunkStringByBytes [] maxBytes = [] /\
  (forall s : jsstring,
      s <> [] -> byte_length s <= maxBytes ->
      chunkStringByBytes s maxBytes = [s]) /\
  (forall s : jsstring,
      1 <= maxBytes -> s <> [] -> ascii_only s ->
      Z.of_nat (length (chunkStringByBytes s maxBytes)) =
      ceil_div (byte_length s) maxBytes).
Proof.
  split; [reflexivity|]. split.
  - intros s Hs Hlen. rewrite chunkStringByBytes_groups by done.
    rewrite groups_fit.
    + cbn [app map]. by rewrite string_iterator_concat.
    + rewrite <- byte_length_iterator. cbn. lia.
  - intros s HB Hs Hascii. by apply chunk_count_ascii.
Qed.

Lemma chunk_edge_cases_and_count_witness :
  chunkStringByBytes [] 4 = [] /\
  chunkStringByBytes (lit "abcd") 4 = [lit "abcd"] /\
  Z.of_nat (length (chunkStringByBytes (lit "hello") 2)) = 3.
Proof.
  destruct (chunk_edge_cases_and_count 4) as (H0 & H1 & _).
  destruct (chunk_edge_cases_and_count 2) as (_ & _ & H2).
  split; [exact H0|]. split.
  - apply H1; [discriminate | vm_compute; discriminate].
  - apply (H2 (lit "hello")); [lia | discriminate |].
    repeat constructor; vm_compute; discriminate.
Defined.

(** C10. For every [maxBytes >= 1] and every input each of whose code
    points encodes to at most [maxBytes] UTF-8 bytes, every chunk returned
    by [chunkStringByBytes] is non-empty and at most [maxBytes] bytes
    long. *)
Theorem chunks_within_budget (s : jsstring) (maxBytes : Z) :
  1 <= maxBytes ->
  Forall (fun c => byte_length c <= maxBytes) (string_iterator s) ->
  Forall (fun chunk => chunk <> [] /\ byte_length chunk <= maxBytes)
    (chunkStringByBytes s maxBytes).
Proof.
  intros HB Hchars. destruct s as [|u s]; [constructor|].
  rewrite chunkStringByBytes_groups by done.
  destruct (groups_of_iterator maxBytes (u :: s)) as (Hc & Hseg & Hne).
  cbn zeta in *. apply groups_chunks_bounded; try done.
  - apply groups_nonempty; [done|]. right. intros E.
    assert (concat (string_iterator (u :: s)) = []) as Hnil by by rewrite E.
    by rewrite string_iterator_concat in Hnil.
  - apply groups_bounded; [done|]. cbn. lia.
Qed.

Lemma chunks_within_budget_witness :
  Forall (fun chunk => chunk <> [] /\ byte_length chunk <= 4)
    (chunkStringByBytes [0x61; 0x2764; 0xD83D; 0xDE00; 0xDC00; 0x7A] 4).
Proof.
  apply chunks_within_budget; [lia|].
  repeat constructor; vm_compute; discriminate.
Defined.

(** The bound on the chunks needs the bound on the characters: with a
    budget of one byte a two-byte character is emitted whole, after an
    empty first chunk. *)
Example chunk_oversized_character :
  chunkStringByBytes [0xE9] 1 = [[]; [0xE9]] /\ byte_length [0xE9] = 2.
Proof. split; reflexivity. Qed.


(** ** The cookie store *)

Section CookieStoreProperties.

Context `{Platform}.
Variable this : CookieStore.t.

Lemma clear_cookies_writes (c : Context) :
  CookieStore.clear_cookies this c =
  {| req_cookies := req_cookies c;
     res_cookies :=
       res_cookies c ++
       map (fun name =>
              {| sc_name := name; sc_value := [];
                 sc_options :=
                   Some (spread_maxAge_0 (CookieStore.cookieOptions this)) |})
           (firstn 10 (cookie_names (CookieStore.sessionCookieName this)))
       ++ [{| sc_name := CookieStore.countCookieName this; sc_value := [];
              sc_options := CookieStore.cookieOptions this |}];
     env := env c |}.
Proof.
  unfold CookieStore.clear_cookies. cbn [for_loop]. unfold setCookie.
  cbn [req_cookies res_cookies env]. f_equal.
  rewrite <- !app_assoc. reflexivity.
Qed.

(** The writes of the clean-up, by name, value and options. *)
Lemma clear_cookies_spec (c : Context) :
  exists writes : list SetCookie,
    CookieStore.clear_cookies this c =
      {| req_cookies := req_cookies c;
         res_cookies := res_cookies c ++ writes;
         env := env c |} /\
    map sc_name writes = cookie_names (CookieStore.sessionCookieName this) /\
    Forall (fun w => sc_value w = []) writes /\
    map sc_options writes =
      repeat (Some (spread_maxAge_0 (CookieStore.cookieOptions this))) 10
      ++ [CookieStore.cookieOptions this].
Proof.
  eexists. split; [apply clear_cookies_writes|].
  split; [reflexivity|]. split; [|reflexivity].
  cbn [firstn cookie_names map app]. repeat constructor.
Qed.

Lemma decode_session_returns (sessionCookie : jsstring) :
  exists r, CookieStore.decode_session this sessionCookie = Ok r.
Proof.
  unfold CookieStore.decode_session.
  destruct (CookieStore.encryptionKey this) as [key|]; [|by eexists].
  destruct (truthy key && truthy sessionCookie); [|by eexists].
  destruct (decrypt key sessionCookie) as [raw|]; [|by eexists].
  destruct (JSON_parse raw); by eexists.
Qed.

(** When [getSession] throws, and with what. *)
Lemma getSession_throws_iff (c : Context) :
  let countRaw := getCookie c (CookieStore.countCookieName this) in
  let count := CookieStore.cookieCount countRaw in
  (isNaN count || number_lt count 1 = true ->
   CookieStore.getSession this c =
     Throw (lit "Invalid session cookie count: "
              ++ CookieStore.show_countRaw countRaw)) /\
  (isNaN count || number_lt count 1 = false ->
   CookieStore.getSession this c =
     CookieStore.decode_session this
       (CookieStore.read_chunks this c (CookieStore.iterations count) 0 [])).
Proof.
  cbn zeta. unfold CookieStore.getSession.
  split; intros ->; reflexivity.
Qed.

End CookieStoreProperties.

Lemma leading_digits_all (v : jsstring) :
  forallb is_decimal_digit v = true -> leading_digits v = v.
Proof.
  induction v as [|u v IH]; [done|]. cbn [forallb leading_digits].
  intros [-> Hv]%andb_prop. by rewrite IH.
Qed.

Lemma digit_not_white_space (u : Z) :
  is_decimal_digit u = true ->
  is_white_space u = false /\ (u =? 0x2D) = false /\ (u =? 0x2B) = false.
Proof.
  unfold is_decimal_digit, is_white_space. intros [H1 H2]%andb_prop.
  apply Z.leb_le in H1, H2.
  repeat match goal with
         | |- context [Z.leb ?a ?b] => destruct (Z.leb_spec a b); try lia
         | |- context [Z.eqb ?a ?b] => destruct (Z.eqb_spec a b); try lia
         end; try done.
Qed.

(** The decimal representation of a positive integer is read as that
    integer. *)
Lemma parseInt_positive_integer_string (v : jsstring) :
  is_positive_integer_string v = true ->
  parseInt v = Num (digits_value v) /\ 1 <= digits_value v.
Proof.
  unfold is_positive_integer_string.
  intros [[Hne Hd]%andb_prop Hpos%Z.leb_le]%andb_prop. split; [|done].
  destruct v as [|u v]; [done|].
  pose proof Hd as Hd'. cbn [forallb] in Hd'.
  apply andb_prop in Hd' as [Hu _].
  destruct (digit_not_white_space u Hu) as (Hw & Hm & Hp).
  unfold parseInt. cbn [trim_start]. rewrite Hw, Hm, Hp.
  rewrite (leading_digits_all _ Hd). f_equal. lia.
Qed.

(** C9 (as amended). [deleteSession] unconditionally sets eleven cookies,
    whatever cookies the request carries: [N], [N_1], ..., [N_9] and then
    [N_count], each to the empty value.  The ten indexed cookies are set
    with the options of the store overridden by [maxAge: 0]; the count
    cookie is set with the options of the store as they are. *)
Theorem deleteSession_clears_eleven_cookies
    (this : CookieStore.t) (c : Context) :
  exists writes : list SetCookie,
    CookieStore.deleteSession this c =
      {| req_cookies := req_cookies c;
         res_cookies := res_cookies c ++ writes;
         env := env c |} /\
    map sc_name writes = cookie_names (CookieStore.sessionCookieName this) /\
    Forall (fun w => sc_value w = []) writes /\
    map sc_options writes =
      repeat (Some (spread_maxAge_0 (CookieStore.cookieOptions this))) 10
      ++ [CookieStore.cookieOptions this] /\
    maxAge (spread_maxAge_0 (CookieStore.cookieOptions this)) = Some 0.
Proof.
  destruct (clear_cookies_spec this c) as (writes & H1 & H2 & H3 & H4).
  exists writes. by repeat split.
Qed.

(** C9 as stated fails: with the store of the test-suite the count cookie
    is not written with [maxAge: 0]. *)
Lemma deleteSession_count_cookie_not_expired :
  ~ Forall expires_immediately
      (res_cookies (CookieStore.deleteSession test_cookie_store
                      (request_with ∅))).
Proof.
  intros Hall.
  assert (expires_immediately
            {| sc_name := lit "test-session_count"; sc_value := [];
               sc_options := Some test_cookie_options |})
    as (_ & o & Ho & Hmax).
  { eapply Forall_lookup_1 with (i := 10%nat); [exact Hall|]. reflexivity. }
  injection Ho as <-. discriminate Hmax.
Qed.

(** C3. When the payload of a session (its serialisation, encrypted if a
    key is configured) splits into more than 10 chunks of 4000 bytes,
    [persistSessionData] throws the oversized-session error, and the only
    cookies it has set are those of the clean-up before the size check:
    [N], [N_1], ..., [N_9] and [N_count], each with the empty value, the
    same writes as [deleteSession] does. *)
Theorem persist_oversized_only_cleans_up `{Platform}
    (this : CookieStore.t) (c : Context) (session_data : SessionData)
    (payload : jsstring) :
  CookieStore.payload_of this session_data = Ok payload ->
  (10 < length (chunkStringByBytes payload 4000))%nat ->
  exists writes : list SetCookie,
    CookieStore.persistSessionData this c session_data =
      (Throw (lit "Session too large for cookie storage"),
       {| req_cookies := req_cookies c;
          res_cookies := res_cookies c ++ writes;
          env := env c |}) /\
    map sc_name writes = cookie_names (CookieStore.sessionCookieName this) /\
    Forall (fun w => sc_value w = []) writes /\
    snd (CookieStore.persistSessionData this c session_data) =
      CookieStore.deleteSession this c.
Proof.
  intros Hpayload Hlen.
  destruct (clear_cookies_spec this c) as (writes & H1 & H2 & H3 & _).
  exists writes.
  assert (CookieStore.persistSessionData this c session_data =
            (Throw (lit "Session too large for cookie storage"),
             CookieStore.clear_cookies this c)) as Hrun.
  { unfold CookieStore.persistSessionData. rewrite Hpayload.
    unfold CookieStore.CHUNK_SIZE. cbn zeta.
    destruct (Z.eqb_spec
                (Z.of_nat (length (chunkStringByBytes payload 4000))) 1);
      [lia|].
    destruct (Z.gtb_spec
                (Z.of_nat (length (chunkStringByBytes payload 4000))) 10);
      [done|lia]. }
  rewrite Hrun. cbn [snd]. by rewrite H1.
Qed.

Lemma persist_oversized_only_cleans_up_witness :
  exists writes : list SetCookie,
    @CookieStore.persistSessionData
       (platform_encrypting_to veryLargePayload)
       test_cookie_store (request_with ∅) test_session =
      (Throw (lit "Session too large for cookie storage"),
       {| req_cookies := ∅; res_cookies := [] ++ writes; env := None |}) /\
    map sc_name writes = cookie_names (lit "test-session") /\
    Forall (fun w => sc_value w = []) writes /\
    snd (@CookieStore.persistSessionData
           (platform_encrypting_to veryLargePayload)
           test_cookie_store (request_with ∅) test_session) =
      CookieStore.deleteSession test_cookie_store (request_with ∅).
Proof.
  apply (@persist_oversized_only_cleans_up
           (platform_encrypting_to veryLargePayload) test_cookie_store
           (request_with ∅) test_session veryLargePayload).
  - reflexivity.
  - rewrite veryLargePayload_chunks. lia.
Defined.

(** The loop of [getSession] when every chunk cookie it asks for is
    present and non-empty: it joins them in the order of the indices. *)
Lemma read_chunks_all_present (this : CookieStore.t) (c : Context)
    (chunks : list jsstring) (i : Z) (sessionCookie : jsstring) :
  (forall (j : nat) x,
     chunks !! j = Some x ->
     getCookie c
       (getCookieName (CookieStore.sessionCookieName this) (i + Z.of_nat j))
       = Some x /\ truthy x = true) ->
  CookieStore.read_chunks this c (length chunks) i sessionCookie =
    sessionCookie ++ concat chunks.
Proof.
  revert i sessionCookie.
  induction chunks as [|x chunks IH]; intros i acc Hhit.
  - cbn. by rewrite app_nil_r.
  - cbn [length CookieStore.read_chunks].
    destruct (Hhit 0%nat x eq_refl) as [Hx Ht]. rewrite Z.add_0_r in Hx.
    rewrite Hx, Ht. cbn [concat]. rewrite app_assoc. apply IH.
    intros j y Hj. specialize (Hhit (S j) y Hj).
    by replace (i + 1 + Z.of_nat j) with (i + Z.of_nat (S j)) by lia.
Qed.

(** C4 (as amended). [getSession] treats an absent count cookie as a
    count of 1 (it reads the cookie [N] alone).  For a count cookie that
    is present with value [v], it throws exactly when [v] is non-empty
    and [parseInt(v, 10)] is [NaN] or below 1, and the error then names
    [v]; an empty value is treated as absent.  A non-empty value that
    [parseInt] reads as an integer [n >= 1] is accepted with the count
    [n]: the loop asks for [n] chunk cookies, and when [N], [N_1], ...,
    [N_(n-1)] are present and non-empty what is decoded is their values
    joined in that order.  That holds of every decimal representation of
    a positive integer, and of a value that only starts with one. *)
Theorem getSession_count_cookie `{Platform}
    (this : CookieStore.t) (c : Context) :
  (getCookie c (CookieStore.countCookieName this) = None ->
   CookieStore.cookieCount None = Num 1 /\
   CookieStore.getSession this c =
     CookieStore.decode_session this
       (CookieStore.read_chunks this c 1 0 [])) /\
  (forall v : jsstring,
     getCookie c (CookieStore.countCookieName this) = Some v ->
     ((exists message, CookieStore.getSession this c = Throw message) <->
      truthy v = true /\
      (parseInt v = NaN \/ exists n, parseInt v = Num n /\ n < 1)) /\
     (truthy v = true ->
      parseInt v = NaN \/ (exists n, parseInt v = Num n /\ n < 1) ->
      CookieStore.getSession this c =
        Throw (lit "Invalid session cookie count: " ++ v)) /\
     (truthy v = false ->
      CookieStore.getSession this c =
        CookieStore.decode_session this
          (CookieStore.read_chunks this c 1 0 [])) /\
     (forall n : Z,
        truthy v = true -> parseInt v = Num n -> 1 <= n ->
        CookieStore.getSession this c =
          CookieStore.decode_session this
            (CookieStore.read_chunks this c (Z.to_nat n) 0 []) /\
        (forall chunks : list jsstring,
           Z.of_nat (length chunks) = n ->
           (forall (j : nat) x,
              chunks !! j = Some x ->
              getCookie c
                (getCookieName (CookieStore.sessionCookieName this)
                   (Z.of_nat j)) = Some x /\ truthy x = true) ->
           CookieStore.getSession this c =
             CookieStore.decode_session this (concat chunks))) /\
     (is_positive_integer_string v = true ->
      parseInt v = Num (digits_value v) /\
      CookieStore.getSession this c =
        CookieStore.decode_session this
          (CookieStore.read_chunks this c
             (Z.to_nat (digits_value v)) 0 []))).
Proof.
  split.
  - intros Habsent. split; [reflexivity|].
    unfold CookieStore.getSession. by rewrite Habsent.
  - intros v Hv.
    destruct (getSession_throws_iff this c) as [Hthrow Hpass].
    cbn zeta in Hthrow, Hpass. rewrite Hv in Hthrow, Hpass.
    cbn [CookieStore.cookieCount CookieStore.show_countRaw] in *.
    assert (truthy v = true ->
            parseInt v = NaN \/ (exists n, parseInt v = Num n /\ n < 1) ->
            CookieStore.getSession this c =
              Throw (lit "Invalid session cookie count: " ++ v)) as Hbad.
    { intros Ht Hp. rewrite Ht in Hthrow. apply Hthrow.
      destruct Hp as [->|(n & -> & Hn)]; [done|].
      cbn [isNaN number_lt orb]. by apply Z.ltb_lt. }
    assert (forall n : Z,
              truthy v = true -> parseInt v = Num n -> 1 <= n ->
              CookieStore.getSession this c =
                CookieStore.decode_session this
                  (CookieStore.read_chunks this c (Z.to_nat n) 0 []))
      as Hgood.
    { intros n Ht Hp Hn. rewrite Ht, Hp in Hpass.
      cbn [isNaN number_lt orb CookieStore.iterations] in Hpass.
      apply Hpass. by apply Z.ltb_ge. }
    split; [|split; [exact Hbad|split; [|split]]].
    + split.
      * intros [message Hm]. destruct (truthy v) eqn:Ht.
        -- split; [done|].
           destruct (parseInt v) as [|n] eqn:Hp; [by left|right].
           exists n. split; [done|].
           destruct (Z.ltb_spec n 1) as [|Hge]; [done|]. exfalso.
           rewrite Hpass in Hm.
           ++ destruct (decode_session_returns this
                (CookieStore.read_chunks this c
                   (CookieStore.iterations (Num n)) 0 [])) as [r Hr].
              congruence.
           ++ cbn [isNaN number_lt orb]. by apply Z.ltb_ge.
        -- exfalso. rewrite Hpass in Hm by done.
           destruct (decode_session_returns this
             (CookieStore.read_chunks this c
                (CookieStore.iterations (Num 1)) 0 [])) as [r Hr].
           congruence.
      * intros [Ht Hp]. eexists. by apply Hbad.
    + intros Ht. rewrite Ht in Hpass. by apply Hpass.
    + intros n Ht Hp Hn. split; [by apply Hgood|].
      intros chunks Hlen Hpresent. rewrite (Hgood n Ht Hp Hn).
      rewrite <- Hlen, Nat2Z.id.
      by rewrite (read_chunks_all_present this c chunks 0 []).
    + intros Hpos.
      destruct (parseInt_positive_integer_string v Hpos) as [Hp Hn].
      split; [done|]. apply Hgood; [|done|done].
      unfold is_positive_integer_string in Hpos.
      by apply andb_prop in Hpos as [[? _]%andb_prop _].
Qed.

Lemma getSession_count_cookie_witness :
  let c := request_with {[ lit "test-session_count" := lit "abc" ]} in
  let text := lit "encrypted:" ++ Reference.stringify test_session in
  let c3 :=
    request_with
      (<[lit "test-session_count" := lit "3abc"]>
       (<[lit "test-session" := firstn 20 text]>
        (<[lit "test-session_1" := firstn 20 (skipn 20 text)]>
         {[ lit "test-session_2" := skipn 40 text ]}))) in
  @CookieStore.getSession (Reference.platform [test_session])
     test_cookie_store c =
    Throw (lit "Invalid session cookie count: abc") /\
  @CookieStore.getSession (Reference.platform [test_session])
     test_cookie_store c3 =
    @CookieStore.decode_session (Reference.platform [test_session])
      test_cookie_store
      (concat [firstn 20 text; firstn 20 (skipn 20 text); skipn 40 text]) /\
  @CookieStore.decode_session (Reference.platform [test_session])
    test_cookie_store
    (concat [firstn 20 text; firstn 20 (skipn 20 text); skipn 40 text])
    = Ok (Some test_session).
Proof.
  cbn zeta. split; [|split].
  - destruct (@getSession_count_cookie (Reference.platform [test_session])
                test_cookie_store
                (request_with {[ lit "test-session_count" := lit "abc" ]}))
      as [_ Hpresent].
    destruct (Hpresent (lit "abc") ltac:(reflexivity)) as (_ & Hbad & _).
    apply Hbad; [reflexivity|]. left. reflexivity.
  - match goal with
    | |- CookieStore.getSession _ ?c3 = _ =>
        destruct (@getSession_count_cookie
                    (Reference.platform [test_session])
                    test_cookie_store c3) as [_ Hpresent]
    end.
    destruct (Hpresent (lit "3abc") ltac:(vm_compute; reflexivity))
      as (_ & _ & _ & Hgood & _).
    destruct (Hgood 3 ltac:(reflexivity) ltac:(reflexivity) ltac:(lia))
      as [_ Hjoin].
    apply Hjoin; [reflexivity|].
    intros [|[|[|j]]] x Hj; try done; injection Hj as <-;
      split; vm_compute; reflexivity.
  - vm_compute. reflexivity.
Defined.

(** C4 as stated fails.  A count cookie that starts with a positive
    integer and goes on with other characters is not the decimal
    representation of a positive integer, and neither is the empty value
    that the clean-up of the store itself writes; on both [getSession]
    returns (here [null], no chunk cookie being present) instead of
    throwing. *)
Lemma getSession_accepts_trailing_characters :
  let c := request_with {[ lit "test-session_count" := lit "3abc" ]} in
  let c' := request_with {[ lit "test-session_count" := [] ]} in
  (getCookie c (CookieStore.countCookieName test_cookie_store)
     = Some (lit "3abc") /\
   is_positive_integer_string (lit "3abc") = false /\
   @CookieStore.getSession (Reference.platform []) test_cookie_store c
     = Ok None) /\
  (getCookie c' (CookieStore.countCookieName test_cookie_store)
     = Some [] /\
   is_positive_integer_string [] = false /\
   @CookieStore.getSession (Reference.platform []) test_cookie_store c'
     = Ok None).
Proof. repeat split. Qed.

(** *** The scenarios of the test-suite, run on the embedding *)

(** A small payload goes to the cookie [N] alone, after the clean-up. *)
Example persist_single_cookie :
  let r := @CookieStore.persistSessionData
             (platform_encrypting_to (lit "small-encrypted-data"))
             test_cookie_store (request_with ∅) test_session in
  fst r = Ok tt /\
  length (res_cookies (snd r)) = 12%nat /\
  last (res_cookies (snd r)) =
    Some {| sc_name := lit "test-session";
            sc_value := lit "small-encrypted-data";
            sc_options := Some test_cookie_options |}.
Proof. cbn zeta. repeat split; vm_compute; reflexivity. Qed.

(** 6000 bytes go to two cookies, and the count cookie says 2. *)
Example persist_two_cookies :
  let r := @CookieStore.persistSessionData
             (platform_encrypting_to (repeat 0x61 (Z.to_nat 6000)))
             test_cookie_store (request_with ∅) test_session in
  fst r = Ok tt /\
  skipn 11 (res_cookies (snd r)) =
    [{| sc_name := lit "test-session";
        sc_value := repeat 0x61 (Z.to_nat 4000);
        sc_options := Some test_cookie_options |};
     {| sc_name := lit "test-session_1";
        sc_value := repeat 0x61 (Z.to_nat 2000);
        sc_options := Some test_cookie_options |};
     {| sc_name := lit "test-session_count"; sc_value := lit "2";
        sc_options := Some test_cookie_options |}].
Proof. cbn zeta. split; vm_compute; reflexivity. Qed.

(** Three chunk cookies and a count of 3 are joined, decrypted and
    parsed. *)
Example getSession_three_chunks :
  let text := lit "encrypted:" ++ Reference.stringify test_session in
  let c :=
    request_with
      (<[lit "test-session_count" := lit "3"]>
       (<[lit "test-session" := firstn 20 text]>
        (<[lit "test-session_1" := firstn 20 (skipn 20 text)]>
         {[ lit "test-session_2" := skipn 40 text ]}))) in
  @CookieStore.getSession (Reference.platform [test_session])
     test_cookie_store c = Ok (Some test_session).
Proof. vm_compute. reflexivity. Qed.

(** Without an encryption key [getSession] returns [null]. *)
Lemma getSession_without_key `{Platform} (this : CookieStore.t)
    (c : Context) (r : option SessionData) :
  CookieStore.encryptionKey this = None ->
  CookieStore.getSession this c = Ok r -> r = None.
Proof.
  intros Hkey. unfold CookieStore.getSession.
  destruct (_ || _); [done|].
  unfold CookieStore.decode_session. rewrite Hkey. congruence.
Qed.

(** ** The keyed backend store *)

Section KeyedBackendProperties.

Import CloudflareKVStore.

Context `{Platform}.
Variable this : CloudflareKVStore.t.

(** Pass the guard [if (!sessionId)] with a non-empty identifier and
    enter the [try] block. *)
Ltac enter_try Hid := rewrite Hid; cbn [negb]; unfold try_catch.

Lemma kv_missing (w : World) :
  binding_missing this w ->
  kv this w = (Throw (missing_binding_message this w), w).
Proof.
  unfold binding_missing, missing_binding_message, kv.
  destruct (asyncLocalStore w) as [context|]; [|done].
  destruct (env context) as [bindings|]; [|done]. by intros ->.
Qed.

Lemma kv_resolves (w : World) (namespace : KVNamespace) :
  kv this w = (Ok namespace, w) ->
  exists context bindings,
    asyncLocalStore w = Some context /\ env context = Some bindings /\
    bindings !! kvName this = Some namespace.
Proof.
  unfold kv. destruct (asyncLocalStore w) as [context|]; [|done].
  destruct (env context) as [bindings|] eqn:He; [|done].
  destruct (bindings !! kvName this) as [ns|] eqn:E; [|done].
  intros [= ->]. exists context, bindings. by repeat split.
Qed.

(** After a call the binding resolves to the new state of the backend. *)
Lemma kv_update_binding (w : World) (namespace namespace' : KVNamespace) :
  kv this w = (Ok namespace, w) ->
  kv this (update_binding this namespace' w) =
    (Ok namespace', update_binding this namespace' w).
Proof.
  intros (context & bindings & Hc & He & _)%kv_resolves.
  unfold kv, update_binding. rewrite Hc. cbn. rewrite He.
  by rewrite lookup_insert_eq.
Qed.

Lemma deleteSession_ok (w : World) (namespace : KVNamespace)
    (sessionId : jsstring) :
  truthy sessionId = true -> bound_to this w namespace ->
  deleteSession this sessionId w =
    (Ok tt,
     update_binding this
       {| kv_records :=
            delete (getKeyFromSessionId this sessionId) (kv_records namespace);
          kv_fault := None |} w).
Proof.
  intros Hid [Hkv Hfault]. unfold deleteSession. enter_try Hid.
  unfold bind. rewrite Hkv.
  unfold backend_call, KV_delete. by rewrite Hfault.
Qed.

Lemma deleteSession_missing (w : World) (sessionId : jsstring) :
  truthy sessionId = true -> binding_missing this w ->
  deleteSession this sessionId w =
    (Throw (missing_binding_message this w),
     reported (lit "Error deleting session:")
       (missing_binding_message this w) w).
Proof.
  intros Hid Hmiss. unfold deleteSession. enter_try Hid.
  unfold bind. by rewrite (kv_missing _ Hmiss).
Qed.

Lemma createSession_ok (w : World) (namespace : KVNamespace) (now : Z)
    (sessionId : jsstring) (initialData : SessionData) :
  truthy sessionId = true -> bound_to this w namespace ->
  createSession this now sessionId initialData w =
    (Ok tt,
     update_binding this
       {| kv_records :=
            <[getKeyFromSessionId this sessionId :=
                {| entry_value := JSON_stringify (created now initialData);
                   entry_options :=
                     put_options this
                       (expiration_of (created now initialData)) |}]>
              (kv_records namespace);
          kv_fault := None |} w).
Proof.
  intros Hid [Hkv Hfault]. unfold createSession, created.
  enter_try Hid. unfold bind. rewrite Hkv.
  unfold backend_call, KV_put. rewrite Hfault. cbn [fst snd].
  by destruct (truthy_opt (_accessed initialData)).
Qed.

Lemma persistSessionData_ok (w : World) (namespace : KVNamespace) (now : Z)
    (sessionId : jsstring) (sessionData : SessionData) :
  truthy sessionId = true -> bound_to this w namespace ->
  _delete sessionData = false ->
  let stored := set_accessed sessionData (Some (Date_toISOString now)) in
  persistSessionData this now sessionId sessionData w =
    (Ok tt,
     update_binding this
       {| kv_records :=
            <[getKeyFromSessionId this sessionId :=
                {| entry_value := JSON_stringify stored;
                   entry_options :=
                     put_options this (expiration_of stored) |}]>
              (kv_records namespace);
          kv_fault := None |} w).
Proof.
  intros Hid [Hkv Hfault] Hdel. cbn zeta. unfold persistSessionData.
  rewrite Hid. cbn [negb set_accessed _delete]. rewrite Hdel.
  unfold try_catch, bind. rewrite Hkv.
  unfold backend_call, KV_put. by rewrite Hfault.
Qed.

Lemma persistSessionData_deletes (w : World) (namespace : KVNamespace)
    (now : Z) (sessionId : jsstring) (sessionData : SessionData) :
  truthy sessionId = true -> bound_to this w namespace ->
  _delete sessionData = true ->
  persistSessionData this now sessionId sessionData w =
    (Ok tt,
     update_binding this
       {| kv_records :=
            delete (getKeyFromSessionId this sessionId) (kv_records namespace);
          kv_fault := None |} w).
Proof.
  intros Hid Hbound Hdel. unfold persistSessionData.
  rewrite Hid. cbn [negb set_accessed _delete]. rewrite Hdel.
  unfold try_catch. by rewrite (deleteSession_ok _ _ _ Hid Hbound).
Qed.

Lemma getSessionById_deletes (w : World) (namespace : KVNamespace)
    (now : Z) (sessionId : jsstring) (entry : KVEntry) (data : SessionData) :
  truthy sessionId = true -> bound_to this w namespace ->
  kv_records namespace !! getKeyFromSessionId this sessionId = Some entry ->
  JSON_parse (entry_value entry) = Ok (Some data) ->
  _delete data = true ->
  getSessionById this now (Some sessionId) w =
    (Ok Null,
     update_binding this
       {| kv_records :=
            delete (getKeyFromSessionId this sessionId) (kv_records namespace);
          kv_fault := None |} w).
Proof.
  intros Hid Hbound Hentry Hparse Hdel. unfold getSessionById.
  enter_try Hid. unfold bind at 1.
  destruct Hbound as [Hkv Hfault]. rewrite Hkv.
  unfold bind at 1, lift, KV_get. rewrite Hfault, Hentry, Hparse.
  cbn [set_accessed _delete]. rewrite Hdel. unfold bind.
  by rewrite (deleteSession_ok _ _ _ Hid (conj Hkv Hfault)).
Qed.

Lemma record_of_update (w : World) (namespace namespace' : KVNamespace)
    (sessionId : jsstring) :
  kv this w = (Ok namespace, w) ->
  record_of this (update_binding this namespace' w) sessionId =
    kv_records namespace' !! getKeyFromSessionId this sessionId.
Proof.
  intros Hkv. unfold record_of.
  by rewrite (kv_update_binding _ _ namespace' Hkv).
Qed.

Lemma createSession_missing (w : World) (now : Z) (sessionId : jsstring)
    (initialData : SessionData) :
  truthy sessionId = true -> binding_missing this w ->
  createSession this now sessionId initialData w =
    (Throw (missing_binding_message this w),
     reported (lit "Error creating session:")
       (missing_binding_message this w) w).
Proof.
  intros Hid Hmiss. unfold createSession. enter_try Hid.
  unfold bind. by rewrite (kv_missing _ Hmiss).
Qed.

Lemma persistSessionData_missing (w : World) (now : Z) (sessionId : jsstring)
    (sessionData : SessionData) :
  truthy sessionId = true -> binding_missing this w ->
  fst (persistSessionData this now sessionId sessionData w) =
    Throw (missing_binding_message this w).
Proof.
  intros Hid Hmiss. unfold persistSessionData. rewrite Hid.
  cbn [negb set_accessed _delete]. unfold try_catch.
  destruct (_delete sessionData).
  - by rewrite (deleteSession_missing _ _ Hid Hmiss).
  - unfold bind at 1. by rewrite (kv_missing _ Hmiss).
Qed.

Lemma getSessionById_missing (w : World) (now : Z) (sessionId : jsstring) :
  truthy sessionId = true -> binding_missing this w ->
  getSessionById this now (Some sessionId) w =
    (Ok Null,
     reported (lit "Error retrieving session:")
       (missing_binding_message this w) w).
Proof.
  intros Hid Hmiss. unfold getSessionById. enter_try Hid.
  unfold bind at 1. by rewrite (kv_missing _ Hmiss).
Qed.

Lemma expiration_of_set_accessed (d : SessionData) (a : option jsstring) :
  expiration_of (set_accessed d a) = expiration_of d.
Proof. reflexivity. Qed.

Lemma expiration_of_created (now : Z) (d : SessionData) :
  expiration_of (created now d) = expiration_of d.
Proof. unfold created. by destruct (truthy_opt (_accessed d)). Qed.

(** What a successful write leaves under the key of the session. *)
Lemma keyed_write_record (w : World) (namespace : KVNamespace) (now : Z)
    (sessionId : jsstring) (data : SessionData) :
  truthy sessionId = true -> bound_to this w namespace ->
  (exists w',
     createSession this now sessionId data w = (Ok tt, w') /\
     record_of this w' sessionId =
       Some {| entry_value := JSON_stringify (created now data);
               entry_options := put_options this (expiration_of data) |}) /\
  (_delete data = false ->
   exists w',
     persistSessionData this now sessionId data w = (Ok tt, w') /\
     record_of this w' sessionId =
       Some {| entry_value :=
                 JSON_stringify
                   (set_accessed data (Some (Date_toISOString now)));
               entry_options := put_options this (expiration_of data) |}).
Proof.
  intros Hid Hbound. split; [|intros Hdel]; eexists.
  - split; [by apply createSession_ok|]. destruct Hbound as [Hkv _].
    rewrite (record_of_update _ _ _ _ Hkv). cbn [kv_records].
    by rewrite lookup_insert_eq, expiration_of_created.
  - split; [by apply persistSessionData_ok|]. destruct Hbound as [Hkv _].
    rewrite (record_of_update _ _ _ _ Hkv). cbn [kv_records].
    by rewrite lookup_insert_eq.
Qed.

(** The options of a [put], by the value of [expiration]. *)
Lemma put_options_cases (expiration : option number) :
  match expiration with
  | None =>
      put_options this expiration =
        {| put_expirationTtl := Some (expirationTtl this);
           put_expiration := None |}
  | Some (Num seconds) =>
      if seconds =? 0
      then put_options this expiration =
             {| put_expirationTtl := Some (expirationTtl this);
                put_expiration := Some (Num 0) |}
      else put_options this expiration =
             {| put_expirationTtl := None;
                put_expiration := Some (Num seconds) |}
  | Some NaN =>
      put_options this expiration =
        {| put_expirationTtl := Some (expirationTtl this);
           put_expiration := Some NaN |}
  end.
Proof.
  destruct expiration as [[|seconds]|]; [done| |done].
  unfold put_options. cbn [truthy_number].
  by destruct (Z.eqb_spec seconds 0) as [->|].
Qed.

End KeyedBackendProperties.

(** The default time-to-live is 24 hours. *)
Lemma default_expirationTtl (name : jsstring) (p : option jsstring) :
  CloudflareKVStore.expirationTtl
    (CloudflareKVStore.new
       {| CloudflareKVStore.opt_kv := name;
          CloudflareKVStore.opt_expirationTtl := None;
          CloudflareKVStore.opt_prefix := p |}) = 86400.
Proof. reflexivity. Qed.

(** C5 (as amended). With the ambient backend binding missing (no context
    bound, no environment, or no namespace under the configured name) and
    a non-empty session identifier, [createSession], [persistSessionData]
    and [deleteSession] throw the missing-binding error to their caller;
    [getSessionById] reports it to [console.error] and resolves to
    [null]. *)
Theorem missing_binding_writes_raise_read_returns_null `{Platform}
    (this : CloudflareKVStore.t) (w : CloudflareKVStore.World) (now : Z)
    (sessionId : jsstring) (data : SessionData) :
  truthy sessionId = true ->
  binding_missing this w ->
  fst (CloudflareKVStore.createSession this now sessionId data w) =
    Throw (missing_binding_message this w) /\
  fst (CloudflareKVStore.persistSessionData this now sessionId data w) =
    Throw (missing_binding_message this w) /\
  fst (CloudflareKVStore.deleteSession this sessionId w) =
    Throw (missing_binding_message this w) /\
  CloudflareKVStore.getSessionById this now (Some sessionId) w =
    (Ok CloudflareKVStore.Null,
     reported (lit "Error retrieving session:")
       (missing_binding_message this w) w).
Proof.
  intros Hid Hmiss. repeat split.
  - by rewrite createSession_missing.
  - by apply persistSessionData_missing.
  - by rewrite deleteSession_missing.
  - by apply getSessionById_missing.
Qed.

Lemma missing_binding_writes_raise_read_returns_null_witness :
  let P := Reference.platform [] in
  let id := lit "test-session-id" in
  let message := lit "KV namespace is not available in the current context" in
  fst (@CloudflareKVStore.createSession P test_kv_store test_now id
         test_session no_context) = Throw message /\
  fst (@CloudflareKVStore.persistSessionData P test_kv_store test_now id
         test_session no_context) = Throw message /\
  fst (CloudflareKVStore.deleteSession test_kv_store id no_context)
    = Throw message /\
  @CloudflareKVStore.getSessionById P test_kv_store test_now (Some id)
     no_context =
    (Ok CloudflareKVStore.Null,
     reported (lit "Error retrieving session:") message no_context).
Proof.
  exact (@missing_binding_writes_raise_read_returns_null
           (Reference.platform []) test_kv_store no_context test_now
           (lit "test-session-id") test_session eq_refl I).
Defined.

(** C5 as stated fails for [getSessionById]: with no context bound it
    resolves to [null] instead of throwing. *)
Lemma getSessionById_swallows_missing_binding :
  binding_missing test_kv_store no_context /\
  fst (@CloudflareKVStore.getSessionById (Reference.platform [])
         test_kv_store test_now (Some (lit "test-session-id")) no_context)
    = Ok CloudflareKVStore.Null.
Proof. split; [exact I | reflexivity]. Qed.

(** C6. With a non-empty identifier and the backend bound and answering:
    [persistSessionData] of a session whose [_delete] flag is set deletes
    the record under the derived key and writes nothing, and
    [getSessionById] on a stored record whose [_delete] flag is set
    deletes the record and resolves to [null]; after either, the backend,
    otherwise unchanged, holds no record under the derived key. *)
Theorem deletion_is_terminal `{Platform}
    (this : CloudflareKVStore.t) (w : CloudflareKVStore.World)
    (namespace : KVNamespace) (now : Z) (sessionId : jsstring) :
  truthy sessionId = true ->
  bound_to this w namespace ->
  let key := CloudflareKVStore.getKeyFromSessionId this sessionId in
  let purged :=
    CloudflareKVStore.update_binding this
      {| kv_records := delete key (kv_records namespace);
         kv_fault := None |} w in
  record_of this purged sessionId = None /\
  (forall sessionData : SessionData,
     _delete sessionData = true ->
     CloudflareKVStore.persistSessionData this now sessionId sessionData w
       = (Ok tt, purged)) /\
  (forall (entry : KVEntry) (data : SessionData),
     kv_records namespace !! key = Some entry ->
     JSON_parse (entry_value entry) = Ok (Some data) ->
     _delete data = true ->
     CloudflareKVStore.getSessionById this now (Some sessionId) w
       = (Ok CloudflareKVStore.Null, purged)).
Proof.
  intros Hid Hbound. cbn zeta. split; [|split].
  - destruct Hbound as [Hkv _].
    rewrite (record_of_update _ _ _ _ _ Hkv). cbn [kv_records].
    apply lookup_delete_eq.
  - intros sessionData Hdel. by apply persistSessionData_deletes.
  - intros entry data Hentry Hparse Hdel.
    by apply getSessionById_deletes with entry data.
Qed.

Lemma deletion_is_terminal_witness :
  let P := Reference.platform [deleted_session] in
  let id := lit "test-session-id" in
  let w := world_with (lit "MY_KV") (namespace_holding deleted_session) in
  let purged := world_with (lit "MY_KV") empty_namespace in
  record_of test_kv_store purged id = None /\
  @CloudflareKVStore.persistSessionData P test_kv_store test_now id
     deleted_session w = (Ok tt, purged) /\
  @CloudflareKVStore.getSessionById P test_kv_store test_now (Some id) w
    = (Ok CloudflareKVStore.Null, purged).
Proof.
  cbn zeta.
  destruct (@deletion_is_terminal (Reference.platform [deleted_session])
              test_kv_store
              (world_with (lit "MY_KV") (namespace_holding deleted_session))
              (namespace_holding deleted_session) test_now
              (lit "test-session-id") eq_refl (conj eq_refl eq_refl))
    as (Hgone & Hpersist & Hget).
  split; [exact Hgone|]. split.
  - exact (Hpersist deleted_session eq_refl).
  - refine (Hget _ deleted_session _ _ eq_refl).
    + vm_compute. reflexivity.
    + vm_compute. reflexivity.
Defined.

(** C7 fails on the code at an expiry within the first second of the
    epoch: [expiration] is then [0], which the test
    [expiration ? undefined : this.expirationTtl] takes for an absent
    one, and the [put] of [createSession] and of [persistSessionData]
    receives the default time-to-live together with the absolute
    expiration. *)
Lemma keyed_write_epoch_zero_expiry :
  let P := Reference.platform [] in
  let id := lit "test-session-id" in
  let w := world_with (lit "MY_KV") empty_namespace in
  @CloudflareKVStore.epoch_seconds P (lit "1970-01-01T00:00:00.000Z")
    = Num 0 /\
  entry_options <$>
    record_of test_kv_store
      (snd (@CloudflareKVStore.createSession P test_kv_store test_now id
              epoch_session w)) id
    = Some {| put_expirationTtl := Some 86400;
              put_expiration := Some (Num 0) |} /\
  entry_options <$>
    record_of test_kv_store
      (snd (@CloudflareKVStore.persistSessionData P test_kv_store test_now id
              epoch_session w)) id
    = Some {| put_expirationTtl := Some 86400;
              put_expiration := Some (Num 0) |}.
Proof. cbn zeta. repeat split; vm_compute; reflexivity. Qed.

(** Away from that instant the writes do what C7 says: an expiry whose
    epoch seconds are a non-zero number is passed as the absolute
    expiration, without time-to-live; without an expiry the time-to-live
    of the store is passed, without absolute expiration. *)
Lemma keyed_write_expiration `{Platform}
    (this : CloudflareKVStore.t) (w : CloudflareKVStore.World)
    (namespace : KVNamespace) (now : Z) (sessionId : jsstring)
    (data : SessionData) (options : PutOptions) :
  truthy sessionId = true -> bound_to this w namespace ->
  _delete data = false ->
  match _expire data with
  | Some expire =>
      exists seconds,
        truthy expire = true /\
        CloudflareKVStore.epoch_seconds expire = Num seconds /\
        seconds <> 0 /\
        options = {| put_expirationTtl := None;
                     put_expiration := Some (Num seconds) |}
  | None =>
      options =
        {| put_expirationTtl := Some (CloudflareKVStore.expirationTtl this);
           put_expiration := None |}
  end ->
  entry_options <$>
    record_of this
      (snd (CloudflareKVStore.createSession this now sessionId data w))
      sessionId = Some options /\
  entry_options <$>
    record_of this
      (snd (CloudflareKVStore.persistSessionData this now sessionId data w))
      sessionId = Some options.
Proof.
  intros Hid Hbound Hdel Hoptions.
  destruct (keyed_write_record this w namespace now sessionId data
              Hid Hbound) as [(w1 & Hc & Hr1) Hpersist].
  destruct (Hpersist Hdel) as (w2 & Hp & Hr2).
  rewrite Hc, Hp. cbn [snd]. rewrite Hr1, Hr2.
  cbn [fmap option_fmap option_map entry_options].
  assert (CloudflareKVStore.put_options this
            (CloudflareKVStore.expiration_of data) = options) as ->; [|done].
  unfold CloudflareKVStore.expiration_of.
  destruct (_expire data) as [expire|]; [|by subst].
  destruct Hoptions as (seconds & -> & -> & Hnz & ->).
  unfold CloudflareKVStore.put_options. cbn [truthy_number].
  by destruct (Z.eqb_spec seconds 0).
Qed.

(** C8 (as amended). With a non-empty identifier and the backend bound
    and answering: [createSession] stores the session with its own
    [_accessed] timestamp when it has a non-empty one, and with the
    current time when [_accessed] is absent (or empty);
    [persistSessionData] of a session not marked for deletion always
    stores it with [_accessed] set to the current time. *)
Theorem accessed_timestamp_on_write `{Platform}
    (this : CloudflareKVStore.t) (w : CloudflareKVStore.World)
    (namespace : KVNamespace) (now : Z) (sessionId : jsstring)
    (data : SessionData) :
  truthy sessionId = true ->
  bound_to this w namespace ->
  (exists w',
     CloudflareKVStore.createSession this now sessionId data w
       = (Ok tt, w') /\
     entry_value <$> record_of this w' sessionId =
       Some (JSON_stringify
               (if truthy_opt (_accessed data) then data
                else set_accessed data (Some (Date_toISOString now))))) /\
  (_delete data = false ->
   exists w',
     CloudflareKVStore.persistSessionData this now sessionId data w
       = (Ok tt, w') /\
     entry_value <$> record_of this w' sessionId =
       Some (JSON_stringify
               (set_accessed data (Some (Date_toISOString now))))).
Proof.
  intros Hid Hbound.
  destruct (keyed_write_record this w namespace now sessionId data
              Hid Hbound) as [(w1 & Hc & Hr) Hpersist].
  split.
  - exists w1. split; [done|]. by rewrite Hr.
  - intros Hdel. destruct (Hpersist Hdel) as (w2 & Hp & Hr2).
    exists w2. split; [done|]. by rewrite Hr2.
Qed.

Lemma accessed_timestamp_on_write_witness :
  let P := Reference.platform [] in
  let id := lit "test-session-id" in
  let w := world_with (lit "MY_KV") empty_namespace in
  (exists w',
     @CloudflareKVStore.createSession P test_kv_store test_now id
        accessed_session w = (Ok tt, w') /\
     entry_value <$> record_of test_kv_store w' id =
       Some (Reference.stringify accessed_session)) /\
  (exists w',
     @CloudflareKVStore.persistSessionData P test_kv_store test_now id
        accessed_session w = (Ok tt, w') /\
     entry_value <$> record_of test_kv_store w' id =
       Some (Reference.stringify
               (set_accessed accessed_session
                  (Some (lit "2024-10-27T03:33:20.000Z"))))).
Proof.
  cbn zeta.
  destruct (@accessed_timestamp_on_write (Reference.platform [])
              test_kv_store (world_with (lit "MY_KV") empty_namespace)
              empty_namespace test_now (lit "test-session-id")
              accessed_session eq_refl (conj eq_refl eq_refl))
    as [Hcreate Hpersist].
  split; [exact Hcreate | exact (Hpersist eq_refl)].
Defined.

(** C8 as stated fails for [persistSessionData]: a session that carries
    an [_accessed] timestamp is stored with the current time in its
    place. *)
Lemma persistSessionData_overwrites_accessed :
  let P := Reference.platform [] in
  let id := lit "test-session-id" in
  let w := world_with (lit "MY_KV") empty_namespace in
  let stored :=
    entry_value <$>
      record_of test_kv_store
        (snd (@CloudflareKVStore.persistSessionData P test_kv_store test_now
                id accessed_session w)) id in
  _accessed accessed_session = Some (lit "2023-01-01T00:00:00.000Z") /\
  stored =
    Some (Reference.stringify
            (set_accessed accessed_session
               (Some (lit "2024-10-27T03:33:20.000Z")))) /\
  stored <> Some (Reference.stringify accessed_session).
Proof.
  cbn zeta. split; [reflexivity|]. split.
  - vm_compute. reflexivity.
  - vm_compute. discriminate.
Qed.

(** *** The scenarios of the test-suite, run on the embedding *)

(** An expiry one hour ahead is passed as absolute expiration in epoch
    seconds, a session without expiry with the default time-to-live. *)
Example keyed_write_options :
  let P := Reference.platform [] in
  let id := lit "test-session-id" in
  let w := world_with (lit "MY_KV") empty_namespace in
  entry_options <$>
    record_of test_kv_store
      (snd (@CloudflareKVStore.createSession P test_kv_store test_now id
              expiring_session w)) id
    = Some {| put_expirationTtl := None;
              put_expiration := Some (Num 1730003600) |} /\
  entry_options <$>
    record_of test_kv_store
      (snd (@CloudflareKVStore.persistSessionData P test_kv_store test_now
              id test_session w)) id
    = Some {| put_expirationTtl := Some 86400; put_expiration := None |}.
Proof. cbn zeta. split; vm_compute; reflexivity. Qed.

(** A stored session is read back with [_accessed] refreshed. *)
Example getSessionById_refreshes_accessed :
  let P := Reference.platform [accessed_session] in
  let w := world_with (lit "MY_KV") (namespace_holding accessed_session) in
  @CloudflareKVStore.getSessionById P test_kv_store test_now
     (Some (lit "test-session-id")) w =
    (Ok (CloudflareKVStore.Session
           (set_accessed accessed_session
              (Some (lit "2024-10-27T03:33:20.000Z")))), w).
Proof. vm_compute. reflexivity. Qed.

(** A failing backend: the read resolves to [null] after a report, the
    write throws after a report. *)
Example backend_failure :
  let P := Reference.platform [] in
  let id := lit "test-session-id" in
  let w :=
    world_with (lit "MY_KV")
      {| kv_records := ∅; kv_fault := Some (lit "KV error") |} in
  @CloudflareKVStore.getSessionById P test_kv_store test_now (Some id) w =
    (Ok CloudflareKVStore.Null,
     reported (lit "Error retrieving session:") (lit "KV error") w) /\
  @CloudflareKVStore.createSession P test_kv_store test_now id
     test_session w =
    (Throw (lit "KV error"),
     reported (lit "Error creating session:") (lit "KV error") w).
Proof. cbn zeta. split; vm_compute; reflexivity. Qed.

(** A context whose environment lacks the namespace of the store: the
    error names the binding. *)
Example missing_namespace :
  let P := Reference.platform [] in
  let w := world_with (lit "OTHER_KV") empty_namespace in
  @CloudflareKVStore.createSession P test_kv_store test_now
     (lit "test-session-id") test_session w =
    (Throw (lit "KV namespace " ++ [0x22] ++ lit "MY_KV" ++ [0x22]
              ++ lit " is not available in the current context"),
     reported (lit "Error creating session:")
       (lit "KV namespace " ++ [0x22] ++ lit "MY_KV" ++ [0x22]
          ++ lit " is not available in the current context") w).
Proof. vm_compute. reflexivity. Qed.

(** An empty identifier: the read resolves to [undefined], the writes
    throw, and the backend is not called. *)
Example empty_identifier :
  let P := Reference.platform [] in
  let w := world_with (lit "MY_KV") empty_namespace in
  @CloudflareKVStore.getSessionById P test_kv_store test_now (Some []) w =
    (Ok CloudflareKVStore.Undefined, w) /\
  @CloudflareKVStore.createSession P test_kv_store test_now []
     test_session w = (Throw (lit "Session ID is required"), w).
Proof. cbn zeta. split; reflexivity. Qed.

(* ===================================================================== *)
(** * Part III. Further properties of the code *)
(* ===================================================================== *)

(** ** The chunking codec: sizes *)

Lemma utf8_encode_length (cp : Z) :
  (1 <= length (utf8_encode cp) <= 4)%nat.
Proof.
  unfold utf8_encode.
  destruct (cp <? 0x80); [cbn; lia|].
  destruct (cp <? 0x800); [cbn; lia|].
  destruct (cp <? 0x10000); cbn; lia.
Qed.

(** A character of the string iterator takes one to four bytes. *)
Lemma segmented_char_bytes (cs : list jsstring) :
  segmented cs -> Forall (fun c => 1 <= byte_length c <= 4) cs.
Proof.
  induction 1 as [|h l cs E _ IH|u cs _ _ IH]; constructor; try done.
  - unfold byte_length, TextEncoder_encode. rewrite scalar_values_cons2, E.
    cbn [scalar_values flat_map]. rewrite app_nil_r.
    pose proof (utf8_encode_length
                  (0x10000 + (h - 0xD800) * 0x400 + (l - 0xDC00))). lia.
  - unfold byte_length, TextEncoder_encode.
    cbn [scalar_values flat_map]. rewrite app_nil_r.
    pose proof (utf8_encode_length (if is_surrogate u then 0xFFFD else u)).
    lia.
Qed.

Lemma iterator_char_bytes (s : jsstring) :
  Forall (fun c => 1 <= byte_length c <= 4) (string_iterator s).
Proof. apply segmented_char_bytes, string_iterator_segmented. Qed.

Lemma groups_head (maxBytes : Z) (cs g : list jsstring) :
  exists more tail, groups maxBytes cs g = (g ++ more) :: tail.
Proof.
  revert g. induction cs as [|c rest IH]; intros g; cbn [groups].
  - exists [], []. by rewrite app_nil_r.
  - destruct (_ >? _).
    + exists [], (groups maxBytes rest [c]). by rewrite app_nil_r.
    + destruct (IH (g ++ [c])) as (more & tail & ->).
      exists (c :: more), tail. by rewrite <- app_assoc.
Qed.

Lemma groups_greedy (maxBytes : Z) (cs g : list jsstring) :
  greedy maxBytes (groups maxBytes cs g).
Proof.
  revert g. induction cs as [|c rest IH]; intros g; cbn [groups].
  - constructor.
  - destruct (Z.gtb_spec (byte_sum g + byte_length c) maxBytes) as [Hgt|].
    + specialize (IH [c]).
      destruct (groups_head maxBytes rest [c]) as (more & tail & E).
      rewrite E in *. cbn [app] in *. constructor; [lia | done].
    + apply IH.
Qed.

(** Adjacent groups of a greedy sequence, by position. *)
Lemma greedy_lookup (maxBytes : Z) (G : list (list jsstring)) (i : nat)
    (x y : list jsstring) :
  greedy maxBytes G -> G !! i = Some x -> G !! S i = Some y ->
  exists c rest, y = c :: rest /\ byte_sum x + byte_length c > maxBytes.
Proof.
  intros HG. revert i. induction HG as [x0|x0 c rest G Hgt _ IH]; intros i.
  - by destruct i.
  - destruct i as [|i]; cbn.
    + intros [= <-] [= <-]. by exists c, rest.
    + intros Hx Hy. by apply (IH i).
Qed.

(** The total size of a greedy sequence of non-empty groups whose
    characters take at most four bytes: every group but the last holds
    more than [maxBytes - 4] bytes. *)
Lemma greedy_size (maxBytes : Z) (G : list (list jsstring)) :
  greedy maxBytes G ->
  Forall (Forall (fun c => 1 <= byte_length c <= 4)) G ->
  Forall (fun x => x <> []) G ->
  (Z.of_nat (length G) - 1) * (maxBytes - 3) < byte_sum (concat G).
Proof.
  induction 1 as [x|x c rest G Hgt _ IH]; intros Hchars Hne.
  - apply Forall_cons_1 in Hne as [Hx _].
    apply Forall_cons_1 in Hchars as [Hcx _].
    destruct x as [|c x]; [done|].
    apply Forall_cons_1 in Hcx as [Hc1 _].
    cbn [length concat app]. rewrite app_nil_r, byte_sum_cons.
    pose proof (byte_sum_nonneg x). lia.
  - apply Forall_cons_1 in Hne as [_ Hne].
    apply Forall_cons_1 in Hchars as [_ Hchars].
    specialize (IH Hchars Hne).
    apply Forall_cons_1 in Hchars as [Hc _].
    apply Forall_cons_1 in Hc as [Hc _].
    change (concat (x :: (c :: rest) :: G))
      with (x ++ concat ((c :: rest) :: G)).
    rewrite byte_sum_app. cbn [length] in *. nia.
Qed.

Lemma byte_sum_concat_le (maxBytes : Z) (G : list (list jsstring)) :
  Forall (fun x => byte_sum x <= maxBytes) G ->
  byte_sum (concat G) <= Z.of_nat (length G) * maxBytes.
Proof.
  induction 1 as [|x G Hx _ IH]; [done|].
  cbn [concat length]. rewrite byte_sum_app. nia.
Qed.

(** The groups of a non-empty input under a budget of four bytes or more:
    segmented, non-empty, within the budget, greedy. *)
Lemma groups_of_input (maxBytes : Z) (s : jsstring) :
  4 <= maxBytes -> s <> [] ->
  let G := groups maxBytes (string_iterator s) [] in
  chunkStringByBytes s maxBytes = map (@concat Z) G /\
  concat G = string_iterator s /\
  Forall segmented G /\
  Forall (Forall (fun c => 1 <= byte_length c <= 4)) G /\
  Forall (fun x => x <> []) G /\
  Forall (fun x => byte_sum x <= maxBytes) G /\
  greedy maxBytes G.
Proof.
  intros HB Hs. cbn zeta.
  destruct (groups_of_iterator maxBytes s) as (Hc & Hseg & Hne).
  cbn zeta in *.
  assert (Forall (fun c => byte_length c <= maxBytes) (string_iterator s))
    as Hfit.
  { eapply Forall_impl; [apply iterator_char_bytes|]. cbn. lia. }
  split; [by apply chunkStringByBytes_groups|]. split; [done|].
  split; [done|]. split.
  { apply Forall_concat_groups. rewrite Hc. apply iterator_char_bytes. }
  split.
  { apply groups_nonempty; [done|]. right. intros E. apply Hs.
    by rewrite <- (string_iterator_concat s), E. }
  split; [|apply groups_greedy].
  apply groups_bounded; [done|]. cbn. lia.
Qed.

(** X1. With a budget of four bytes or more, whatever the input, every
    chunk is a non-empty string of at most [maxBytes] bytes: a code point
    never takes more than four bytes.  In particular every cookie value
    cut with [CHUNK_SIZE = 4000] fits. *)
Theorem chunks_fit_any_input (s : jsstring) (maxBytes : Z) :
  4 <= maxBytes ->
  Forall (fun chunk => chunk <> [] /\ byte_length chunk <= maxBytes)
    (chunkStringByBytes s maxBytes).
Proof.
  intros HB. destruct s as [|u s]; [constructor|].
  destruct (groups_of_input maxBytes (u :: s) HB ltac:(done))
    as (-> & Hc & Hseg & Hchars & Hne & Hle & _).
  apply groups_chunks_bounded; try done.
  eapply Forall_impl; [exact Hchars|]. intros x Hx.
  eapply Forall_impl; [exact Hx|]. cbn. intros c Hc1 ->.
  unfold byte_length in Hc1. cbn in Hc1. lia.
Qed.

Lemma chunks_fit_any_input_witness :
  Forall (fun chunk => chunk <> [] /\ byte_length chunk <= 4)
    (chunkStringByBytes [0xD83D; 0xDE00; 0x61; 0xDC00; 0x62; 0x20AC] 4).
Proof. apply chunks_fit_any_input. lia. Defined.

(** X2. The chunks are filled greedily: a chunk that is followed by
    another one would exceed [maxBytes] with the first code point of the
    chunk that follows it. *)
Theorem chunks_are_greedy (s : jsstring) (maxBytes : Z) (i : nat)
    (a b : jsstring) :
  4 <= maxBytes ->
  chunkStringByBytes s maxBytes !! i = Some a ->
  chunkStringByBytes s maxBytes !! S i = Some b ->
  exists char more,
    string_iterator b = char :: more /\
    byte_length a + byte_length char > maxBytes.
Proof.
  intros HB Ha Hb. destruct s as [|u s]; [done|].
  destruct (groups_of_input maxBytes (u :: s) HB ltac:(done))
    as (E & _ & Hseg & _ & _ & _ & Hgreedy).
  rewrite E in Ha, Hb.
  change (map (@concat Z)) with (fmap (M := list) (@concat Z)) in Ha, Hb.
  rewrite list_lookup_fmap in Ha, Hb.
  destruct (groups maxBytes (string_iterator (u :: s)) [] !! i)
    as [x|] eqn:Hx; [|done].
  destruct (groups maxBytes (string_iterator (u :: s)) [] !! S i)
    as [y|] eqn:Hy; [|done].
  cbn in Ha, Hb. injection Ha as <-. injection Hb as <-.
  destruct (greedy_lookup _ _ _ _ _ Hgreedy Hx Hy) as (c & rest & -> & Hgt).
  exists c, rest.
  assert (segmented x /\ segmented (c :: rest)) as [Hsx Hsy].
  { rewrite Forall_lookup in Hseg. split; by eapply Hseg. }
  split; [by apply segmented_iterator|].
  by rewrite byte_length_concat.
Qed.

Lemma chunks_are_greedy_witness :
  exists char more,
    string_iterator [0x20AC; 0x64] = char :: more /\
    byte_length (lit "abc") + byte_length char > 4.
Proof.
  apply (chunks_are_greedy (lit "abc" ++ [0x20AC] ++ lit "de") 4 0
           (lit "abc") [0x20AC; 0x64]).
  - lia.
  - reflexivity.
  - reflexivity.
Defined.

(** X3. The number of chunks of a non-empty input of [L] bytes, for a
    budget of four bytes or more: at least [L / maxBytes] rounded up,
    since every chunk fits, and fewer than [L / (maxBytes - 3)] plus one,
    since every chunk but the last holds more than [maxBytes - 4]
    bytes. *)
Theorem chunk_count_bounds (s : jsstring) (maxBytes : Z) :
  4 <= maxBytes -> s <> [] ->
  let count := Z.of_nat (length (chunkStringByBytes s maxBytes)) in
  byte_length s <= count * maxBytes /\
  (count - 1) * (maxBytes - 3) < byte_length s.
Proof.
  intros HB Hs. cbn zeta.
  destruct (groups_of_input maxBytes s HB Hs)
    as (-> & Hc & _ & Hchars & Hne & Hle & Hgreedy).
  rewrite length_map, byte_length_iterator.
  remember (groups maxBytes (string_iterator s) []) as G eqn:EG.
  rewrite <- Hc. clear EG Hc. split.
  - by apply byte_sum_concat_le.
  - by apply greedy_size.
Qed.

Lemma chunk_count_bounds_witness :
  let s := lit "abc" ++ [0x20AC] ++ lit "de" in
  let count := Z.of_nat (length (chunkStringByBytes s 4)) in
  byte_length s <= count * 4 /\ (count - 1) * (4 - 3) < byte_length s.
Proof.
  apply (chunk_count_bounds (lit "abc" ++ [0x20AC] ++ lit "de") 4);
    [lia | discriminate].
Defined.

(** ** The cookie store: names, writes and the way back *)

Lemma getCookieName_suffix (N : jsstring) (i : Z) :
  getCookieName N i = N ++ name_suffix i.
Proof.
  unfold getCookieName, name_suffix.
  destruct (i =? 0); [by rewrite app_nil_r | done].
Qed.

Ltac index_cases i :=
  let H := fresh in
  assert (i = 0 \/ i = 1 \/ i = 2 \/ i = 3 \/ i = 4 \/ i = 5 \/ i = 6
          \/ i = 7 \/ i = 8 \/ i = 9) as H by lia;
  destruct H as [->|[->|[->|[->|[->|[->|[->|[->|[->| ->]]]]]]]]].

Lemma name_suffix_inj (i j : Z) :
  0 <= i <= 9 -> 0 <= j <= 9 -> name_suffix i = name_suffix j -> i = j.
Proof.
  intros Hi Hj. index_cases i; index_cases j;
    vm_compute; intros E; first [reflexivity | discriminate E].
Qed.

Lemma name_suffix_not_count (i : Z) :
  0 <= i <= 9 -> name_suffix i <> lit "_count".
Proof. intros Hi. index_cases i; vm_compute; discriminate. Qed.

(** X4. The names of the ten chunk cookies are pairwise distinct, and
    none of them is the name of the count cookie: no chunk overwrites
    another one or the count. *)
Theorem cookie_names_distinct (this : CookieStore.t) (i j : Z) :
  0 <= i <= 9 -> 0 <= j <= 9 ->
  (getCookieName (CookieStore.sessionCookieName this) i =
   getCookieName (CookieStore.sessionCookieName this) j -> i = j) /\
  getCookieName (CookieStore.sessionCookieName this) i <>
    CookieStore.countCookieName this.
Proof.
  intros Hi Hj. rewrite !getCookieName_suffix. split.
  - intros E%app_inv_head. by apply name_suffix_inj.
  - unfold CookieStore.countCookieName. intros E%app_inv_head.
    by apply (name_suffix_not_count i).
Qed.

Lemma cookie_names_distinct_witness :
  (getCookieName (lit "test-session") 0 = getCookieName (lit "test-session") 7
   -> 0 = 7) /\
  getCookieName (lit "test-session") 0 <> lit "test-session_count".
Proof. apply (cookie_names_distinct test_cookie_store 0 7); lia. Defined.

Section CookieWrites.

Context `{Platform}.
Variable this : CookieStore.t.

Lemma clear_cookies_cleanup (c : Context) :
  CookieStore.clear_cookies this c = with_writes c (cleanup_writes this).
Proof.
  rewrite clear_cookies_writes. reflexivity.
Qed.

Lemma with_writes_app (c : Context) (a b : list SetCookie) :
  with_writes (with_writes c a) b = with_writes c (a ++ b).
Proof. unfold with_writes. cbn. by rewrite <- app_assoc. Qed.

(** The chunk loop of [persistSessionData], started at the index that
    follows the chunks [done]. *)
Lemma for_loop_indexed (todo done : list jsstring) (c : Context) :
  for_loop (length todo) (Z.of_nat (length done))
    (fun i c =>
       setCookie c (getCookieName (CookieStore.sessionCookieName this) i)
         (nth (Z.to_nat i) (done ++ todo) [])
         (CookieStore.cookieOptions this))
    c =
  with_writes c
    (indexed_writes (CookieStore.sessionCookieName this)
       (CookieStore.cookieOptions this) (Z.of_nat (length done)) todo).
Proof.
  revert done c. induction todo as [|x todo IH]; intros done c.
  - unfold with_writes. cbn. rewrite app_nil_r. by destruct c.
  - cbn [length for_loop indexed_writes].
    rewrite Nat2Z.id, nth_middle.
    replace (Z.of_nat (length done) + 1)
      with (Z.of_nat (length (done ++ [x])))
      by (rewrite length_app; cbn; lia).
    replace (done ++ x :: todo) with ((done ++ [x]) ++ todo)
      by by rewrite <- app_assoc.
    rewrite IH. unfold with_writes, setCookie. cbn.
    by rewrite <- app_assoc.
Qed.

Lemma persistSessionData_writes (c : Context) (session_data : SessionData)
    (payload : jsstring) :
  CookieStore.payload_of this session_data = Ok payload ->
  (length (chunkStringByBytes payload 4000) <= 10)%nat ->
  CookieStore.persistSessionData this c session_data =
    (Ok tt,
     with_writes c
       (cleanup_writes this
        ++ data_writes this (chunkStringByBytes payload 4000))).
Proof.
  intros Hpayload Hlen. unfold CookieStore.persistSessionData.
  rewrite Hpayload. unfold CookieStore.CHUNK_SIZE. cbn zeta.
  rewrite clear_cookies_cleanup.
  destruct (chunkStringByBytes payload 4000) as [|x [|y chunks]] eqn:E.
  - cbn [data_writes]. rewrite app_nil_r. reflexivity.
  - cbn [data_writes]. rewrite <- with_writes_app. reflexivity.
  - destruct (Z.eqb_spec (Z.of_nat (length (x :: y :: chunks))) 1) as [E1|_];
      [cbn [length] in E1; lia|].
    destruct (Z.gtb_spec (Z.of_nat (length (x :: y :: chunks))) 10);
      [lia|].
    destruct (Z.gtb_spec (Z.of_nat (length (x :: y :: chunks))) 1) as [_|E1];
      [|cbn [length] in E1; lia].
    pose proof (for_loop_indexed (x :: y :: chunks) []
                  (with_writes c (cleanup_writes this))) as Hloop.
    change (Z.of_nat (length (@nil jsstring))) with 0 in Hloop.
    cbn [app] in Hloop. rewrite Hloop. cbn [data_writes].
    unfold setCookie, with_writes. cbn [req_cookies res_cookies env].
    by rewrite <- !app_assoc.
Qed.

End CookieWrites.

Section CookieJar.

Variable N : jsstring.

Lemma write_all_app (a b : list SetCookie) (jar : gmap jsstring jsstring) :
  write_all (a ++ b) jar = write_all b (write_all a jar).
Proof. apply fold_left_app. Qed.

Lemma write_all_indexed_other (options : option CookieOptions)
    (chunks : list jsstring) (i : Z) (jar : gmap jsstring jsstring)
    (name : jsstring) :
  (forall j, i <= j < i + Z.of_nat (length chunks) ->
             getCookieName N j <> name) ->
  write_all (indexed_writes N options i chunks) jar !! name = jar !! name.
Proof.
  revert i jar. induction chunks as [|x chunks IH]; intros i jar Hne.
  - done.
  - cbn [indexed_writes write_all fold_left]. cbn [length] in Hne.
    change (fold_left _ ?ws ?j) with (write_all ws j).
    rewrite IH by (intros j Hj; apply Hne; lia).
    cbn [sc_name sc_value]. apply lookup_insert_ne. apply Hne. lia.
Qed.

Lemma write_all_indexed_hit (options : option CookieOptions)
    (chunks : list jsstring) (i : Z) (jar : gmap jsstring jsstring)
    (j : nat) (x : jsstring) :
  0 <= i -> i + Z.of_nat (length chunks) <= 10 ->
  chunks !! j = Some x ->
  write_all (indexed_writes N options i chunks) jar
    !! getCookieName N (i + Z.of_nat j) = Some x.
Proof.
  revert i jar j. induction chunks as [|y chunks IH]; intros i jar j Hi Hk Hj.
  - done.
  - cbn [indexed_writes write_all fold_left]. cbn [length] in Hk.
    change (fold_left _ ?ws ?m) with (write_all ws m).
    destruct j as [|j].
    + injection Hj as ->. rewrite Z.add_0_r.
      rewrite write_all_indexed_other.
      * cbn [sc_name sc_value]. apply lookup_insert_eq.
      * intros k Hk' E. rewrite !getCookieName_suffix in E.
        apply app_inv_head, name_suffix_inj in E; lia.
    + replace (i + Z.of_nat (S j)) with (i + 1 + Z.of_nat j) by lia.
      apply IH; [lia | lia | done].
Qed.

Lemma write_all_one (name value : jsstring) (options : option CookieOptions)
    (jar : gmap jsstring jsstring) :
  write_all [{| sc_name := name; sc_value := value;
                sc_options := options |}] jar = <[name := value]> jar.
Proof. reflexivity. Qed.

End CookieJar.

Section CookieRoundTrip.

Context `{Platform}.
Variable this : CookieStore.t.

Local Abbreviation N := (CookieStore.sessionCookieName this).

Lemma lookup_repeat {A} (x : A) (n i : nat) :
  (i < n)%nat -> repeat x n !! i = Some x.
Proof.
  revert i. induction n as [|n IH]; intros i Hi; [lia|].
  destruct i as [|i]; [done|]. cbn. apply IH. lia.
Qed.

Lemma cleanup_writes_indexed :
  cleanup_writes this =
  indexed_writes N (Some (spread_maxAge_0 (CookieStore.cookieOptions this)))
    0 (repeat [] 10)
  ++ [{| sc_name := CookieStore.countCookieName this; sc_value := [];
         sc_options := CookieStore.cookieOptions this |}].
Proof. reflexivity. Qed.

Lemma data_writes_indexed (chunks : list jsstring) :
  data_writes this chunks =
  indexed_writes N (CookieStore.cookieOptions this) 0 chunks
  ++ match chunks with
     | [] | [_] => []
     | _ =>
         [{| sc_name := CookieStore.countCookieName this;
             sc_value := Number_toString (Z.of_nat (length chunks));
             sc_options := CookieStore.cookieOptions this |}]
     end.
Proof. by destruct chunks as [|x [|y chunks]]. Qed.

Lemma count_name_other (j : Z) :
  0 <= j <= 9 -> getCookieName N j <> CookieStore.countCookieName this.
Proof.
  intros Hj. rewrite getCookieName_suffix. unfold CookieStore.countCookieName.
  intros E%app_inv_head. by apply (name_suffix_not_count j).
Qed.

(** What the client holds after the writes of a clean-up followed by the
    chunks of a payload: the chunks under their names, the empty value
    under the names of the chunk cookies that are not used, and under the
    count cookie the number of chunks when there are several, the empty
    value otherwise. *)
Lemma last_written_persisted (before : list SetCookie)
    (chunks : list jsstring) :
  (length chunks <= 10)%nat ->
  let held :=
    last_written (before ++ cleanup_writes this ++ data_writes this chunks) in
  (forall (j : nat) x,
     chunks !! j = Some x ->
     held !! getCookieName N (Z.of_nat j) = Some x) /\
  (forall j : Z,
     Z.of_nat (length chunks) <= j <= 9 ->
     held !! getCookieName N j = Some []) /\
  held !! CookieStore.countCookieName this =
    Some (match chunks with
          | [] | [_] => []
          | _ => Number_toString (Z.of_nat (length chunks))
          end).
Proof.
  intros Hlen. cbn zeta. unfold last_written.
  rewrite cleanup_writes_indexed, data_writes_indexed.
  rewrite !write_all_app. rewrite write_all_one.
  set (jar0 := write_all before ∅).
  set (jar1 := write_all (indexed_writes N _ 0 (repeat [] 10)) jar0).
  set (jar2 := <[CookieStore.countCookieName this := []]> jar1).
  set (jar3 := write_all (indexed_writes N _ 0 chunks) jar2).
  assert (forall (j : nat) x, chunks !! j = Some x ->
            jar3 !! getCookieName N (Z.of_nat j) = Some x) as Hhit.
  { intros j x Hj. unfold jar3.
    replace (Z.of_nat j) with (0 + Z.of_nat j) by lia.
    apply write_all_indexed_hit; [lia | lia | done]. }
  assert (forall j : Z, Z.of_nat (length chunks) <= j <= 9 ->
            jar3 !! getCookieName N j = Some []) as Hstale.
  { intros j Hj. unfold jar3. rewrite write_all_indexed_other.
    - unfold jar2. rewrite lookup_insert_ne
        by (intros E; by apply (count_name_other j); [lia|]).
      unfold jar1. replace j with (0 + Z.of_nat (Z.to_nat j)) by lia.
      apply write_all_indexed_hit; [lia | cbn; lia |].
      apply lookup_repeat. lia.
    - intros k Hk E. rewrite !getCookieName_suffix in E.
      apply app_inv_head, name_suffix_inj in E; lia. }
  assert (jar3 !! CookieStore.countCookieName this = Some []) as Hcount.
  { unfold jar3. rewrite write_all_indexed_other.
    - unfold jar2. apply lookup_insert_eq.
    - intros k Hk. apply count_name_other. lia. }
  destruct chunks as [|x [|y chunks]].
  - done.
  - done.
  - rewrite write_all_one. repeat split.
    + intros j z Hj. rewrite lookup_insert_ne; [by apply Hhit|].
      intros E. symmetry in E. revert E. apply count_name_other.
      apply lookup_lt_Some in Hj. lia.
    + intros j Hj. rewrite lookup_insert_ne; [by apply Hstale|].
      intros E. symmetry in E. revert E. by apply count_name_other; lia.
    + apply lookup_insert_eq.
Qed.

End CookieRoundTrip.

Lemma parseInt_small_count (k : Z) :
  2 <= k <= 10 ->
  truthy (Number_toString k) = true /\ parseInt (Number_toString k) = Num k.
Proof.
  intros Hk.
  assert (k = 2 \/ k = 3 \/ k = 4 \/ k = 5 \/ k = 6 \/ k = 7 \/ k = 8
          \/ k = 9 \/ k = 10) as Hcases by lia.
  destruct Hcases as [->|[->|[->|[->|[->|[->|[->|[->| ->]]]]]]]];
    by vm_compute.
Qed.

(** The chunks of a non-empty payload: they join to the payload and none
    is empty. *)
Lemma chunks_of_payload (payload : jsstring) (maxBytes : Z) :
  4 <= maxBytes -> payload <> [] ->
  concat (chunkStringByBytes payload maxBytes) = payload /\
  Forall (fun chunk => truthy chunk = true)
    (chunkStringByBytes payload maxBytes) /\
  chunkStringByBytes payload maxBytes <> [].
Proof.
  intros HB Hne.
  destruct (groups_of_input maxBytes payload HB Hne)
    as (E & Hc & Hseg & Hchars & Hgne & Hle & _).
  assert (concat (chunkStringByBytes payload maxBytes) = payload) as Hjoin.
  { by rewrite E, concat_map_concat, Hc, string_iterator_concat. }
  split; [done|]. split.
  - rewrite E. clear E Hc Hle Hseg Hjoin.
    induction Hgne as [|x G Hx _ IH]; [constructor|].
    apply Forall_cons_1 in Hchars as [Hcx Hchars].
    cbn [map]. constructor; [|by apply IH].
    destruct x as [|c x]; [done|].
    apply Forall_cons_1 in Hcx as [Hc _].
    destruct c as [|u c]; [|done].
    unfold byte_length in Hc. cbn in Hc. lia.
  - intros E'. rewrite E' in Hjoin. by apply Hne.
Qed.

Section CookieReads.

Context `{Platform}.
Variable this : CookieStore.t.

Local Abbreviation N := (CookieStore.sessionCookieName this).

(** The loop of [getSession] over the chunks that are present: it joins
    them, and stops at the bound or at the first cookie that is missing
    or empty. *)
Lemma read_chunks_spec (c : Context) (chunks : list jsstring) (n : nat)
    (i : Z) (sessionCookie : jsstring) :
  (length chunks <= n)%nat ->
  (forall (j : nat) x,
     chunks !! j = Some x ->
     getCookie c (getCookieName N (i + Z.of_nat j)) = Some x /\
     truthy x = true) ->
  ((length chunks < n)%nat ->
   truthy_opt
     (getCookie c (getCookieName N (i + Z.of_nat (length chunks))))
     = false) ->
  CookieStore.read_chunks this c n i sessionCookie =
    sessionCookie ++ concat chunks.
Proof.
  revert n i sessionCookie.
  induction chunks as [|x chunks IH]; intros n i acc Hlen Hhit Hstop.
  - cbn [concat]. rewrite app_nil_r. destruct n as [|n]; [done|].
    cbn [CookieStore.read_chunks]. cbn [length] in Hstop.
    rewrite Z.add_0_r in Hstop. specialize (Hstop ltac:(lia)).
    destruct (getCookie c (getCookieName N i)) as [chunk|]; [|done].
    cbn [truthy_opt] in Hstop. by rewrite Hstop.
  - destruct n as [|n]; [cbn [length] in Hlen; lia|].
    cbn [CookieStore.read_chunks].
    destruct (Hhit 0%nat x eq_refl) as [Hx Ht]. rewrite Z.add_0_r in Hx.
    rewrite Hx, Ht. cbn [concat]. rewrite app_assoc. apply IH.
    + cbn [length] in Hlen. lia.
    + intros j y Hj. specialize (Hhit (S j) y Hj).
      by replace (i + 1 + Z.of_nat j) with (i + Z.of_nat (S j)) by lia.
    + intros Hlt. cbn [length] in Hstop.
      replace (i + 1 + Z.of_nat (length chunks))
        with (i + Z.of_nat (S (length chunks))) by lia.
      apply Hstop. lia.
Qed.

End CookieReads.

(** X5. [persistSessionData] sets no cookie when the payload cannot be
    produced (the encryption rejects): it throws that error and leaves
    the response as it was.  With a payload of at most ten chunks it
    returns, having set the eleven clean-up cookies and then: nothing for
    no chunk, the cookie [N] for one chunk, and for several chunks the
    cookies [N], [N_1], ... in order followed by [N_count] holding their
    number in decimal, all with the options of the store. *)
Theorem persistSessionData_outcomes `{Platform}
    (this : CookieStore.t) (c : Context) (session_data : SessionData) :
  (forall e,
     CookieStore.payload_of this session_data = Throw e ->
     CookieStore.persistSessionData this c session_data = (Throw e, c)) /\
  (forall payload,
     CookieStore.payload_of this session_data = Ok payload ->
     (length (chunkStringByBytes payload 4000) <= 10)%nat ->
     CookieStore.persistSessionData this c session_data =
       (Ok tt,
        with_writes c
          (cleanup_writes this
           ++ data_writes this (chunkStringByBytes payload 4000)))).
Proof.
  split.
  - intros e He. unfold CookieStore.persistSessionData. by rewrite He.
  - intros payload Hp Hlen. by apply persistSessionData_writes.
Qed.

Lemma persistSessionData_outcomes_witness :
  @CookieStore.persistSessionData
     (platform_encrypting_to (repeat 0x61 (Z.to_nat 6000)))
     test_cookie_store (request_with ∅) test_session =
    (Ok tt,
     with_writes (request_with ∅)
       (cleanup_writes test_cookie_store
        ++ data_writes test_cookie_store
             [repeat 0x61 (Z.to_nat 4000); repeat 0x61 (Z.to_nat 2000)])).
Proof.
  destruct (@persistSessionData_outcomes
              (platform_encrypting_to (repeat 0x61 (Z.to_nat 6000)))
              test_cookie_store (request_with ∅) test_session) as [_ Hok].
  specialize (Hok (repeat 0x61 (Z.to_nat 6000)) eq_refl).
  assert (chunkStringByBytes (repeat 0x61 (Z.to_nat 6000)) 4000 =
            [repeat 0x61 (Z.to_nat 4000); repeat 0x61 (Z.to_nat 2000)])
    as E by (vm_compute; reflexivity).
  rewrite E in Hok. apply Hok. cbn. lia.
Defined.

(** X6. After a successful [persistSessionData] of [k] chunks, whatever
    was set before, the client holds chunk [j] under the name of index
    [j] for [j < k], the empty value under the names of the indices from
    [k] to 9 (no chunk of an earlier, larger session stays readable), and
    under [N_count] the decimal [k] when [k >= 2], the empty value
    otherwise. *)
Theorem persisted_cookies `{Platform}
    (this : CookieStore.t) (c : Context) (session_data : SessionData)
    (payload : jsstring) :
  CookieStore.payload_of this session_data = Ok payload ->
  (length (chunkStringByBytes payload 4000) <= 10)%nat ->
  let chunks := chunkStringByBytes payload 4000 in
  let held :=
    last_written
      (res_cookies
         (snd (CookieStore.persistSessionData this c session_data))) in
  (forall (j : nat) x,
     chunks !! j = Some x ->
     held !! getCookieName (CookieStore.sessionCookieName this) (Z.of_nat j)
       = Some x) /\
  (forall j : Z,
     Z.of_nat (length chunks) <= j <= 9 ->
     held !! getCookieName (CookieStore.sessionCookieName this) j
       = Some []) /\
  held !! CookieStore.countCookieName this =
    Some (if (length chunks <=? 1)%nat then []
          else Number_toString (Z.of_nat (length chunks))).
Proof.
  intros Hp Hlen. cbn zeta.
  rewrite (persistSessionData_writes this c _ _ Hp Hlen).
  cbn [snd with_writes res_cookies].
  destruct (last_written_persisted this (res_cookies c)
              (chunkStringByBytes payload 4000) Hlen) as (H1 & H2 & H3).
  cbn zeta in *. split; [done|]. split; [done|]. rewrite H3.
  by destruct (chunkStringByBytes payload 4000) as [|x [|y l]].
Qed.

Lemma persisted_cookies_witness :
  let P := platform_encrypting_to (repeat 0x61 (Z.to_nat 6000)) in
  let held :=
    last_written
      (res_cookies
         (snd (@CookieStore.persistSessionData P test_cookie_store
                 (request_with ∅) test_session))) in
  held !! lit "test-session_1" = Some (repeat 0x61 (Z.to_nat 2000)) /\
  held !! lit "test-session_2" = Some [] /\
  held !! lit "test-session_count" = Some (lit "2").
Proof.
  cbn zeta.
  assert (chunkStringByBytes (repeat 0x61 (Z.to_nat 6000)) 4000 =
            [repeat 0x61 (Z.to_nat 4000); repeat 0x61 (Z.to_nat 2000)])
    as E by (vm_compute; reflexivity).
  destruct (@persisted_cookies
              (platform_encrypting_to (repeat 0x61 (Z.to_nat 6000)))
              test_cookie_store (request_with ∅) test_session
              (repeat 0x61 (Z.to_nat 6000)) eq_refl
              ltac:(rewrite E; cbn; lia)) as (H1 & H2 & H3).
  cbn zeta in *. rewrite E in H1, H2, H3. split; [|split].
  - exact (H1 1%nat _ eq_refl).
  - apply (H2 2). cbn. lia.
  - exact H3.
Defined.

Section CookieSessions.

Context `{Platform}.
Variable this : CookieStore.t.

Local Abbreviation N := (CookieStore.sessionCookieName this).

(** [getSession] on a request that presents the cookies of a persisted
    payload reads the payload back. *)
Lemma getSession_reads_payload (c : Context) (before : list SetCookie)
    (payload : jsstring) (jar : gmap jsstring jsstring) :
  payload <> [] ->
  (length (chunkStringByBytes payload 4000) <= 10)%nat ->
  presents
    (before ++ cleanup_writes this
     ++ data_writes this (chunkStringByBytes payload 4000)) jar ->
  CookieStore.getSession this (next_request c jar) =
    CookieStore.decode_session this payload.
Proof.
  intros Hne Hlen Hjar.
  destruct (chunks_of_payload payload 4000 ltac:(lia) Hne)
    as (Hjoin & Htruthy & Hsome).
  destruct (last_written_persisted this before _ Hlen) as (Hhit & _ & Hcount).
  cbn zeta in Hhit, Hcount.
  set (chunks := chunkStringByBytes payload 4000) in *.
  assert (forall (j : nat) x,
            chunks !! j = Some x ->
            getCookie (next_request c jar) (getCookieName N (0 + Z.of_nat j))
              = Some x /\ truthy x = true) as Hread.
  { intros j x Hj.
    assert (truthy x = true) as Hx
      by (rewrite Forall_lookup in Htruthy; by eapply Htruthy).
    split; [|done]. specialize (Hjar _ _ (Hhit j x Hj)).
    by rewrite Hx in Hjar. }
  specialize (Hjar _ _ Hcount).
  unfold CookieStore.getSession.
  change (getCookie (next_request c jar) (CookieStore.countCookieName this))
    with (jar !! CookieStore.countCookieName this).
  destruct chunks as [|x [|y rest]] eqn:E; [done| |].
  - cbn [truthy] in Hjar.
    assert (CookieStore.cookieCount (jar !! CookieStore.countCookieName this)
              = Num 1) as ->.
    { destruct (jar !! CookieStore.countCookieName this) as [raw|]; [|done].
      cbn in Hjar. cbn. by rewrite Hjar. }
    cbn [isNaN number_lt orb Z.ltb Z.compare Pos.compare
         Pos.compare_cont CookieStore.iterations].
    rewrite (read_chunks_spec this _ [x] 1 0 []); [|done|done|cbn; lia].
    cbn [app]. by rewrite <- Hjoin.
  - destruct (parseInt_small_count (Z.of_nat (length (x :: y :: rest))))
      as [Ht Hparse]; [cbn [length] in *; lia|].
    rewrite Ht in Hjar. rewrite Hjar. cbn [CookieStore.cookieCount].
    rewrite Ht, Hparse. cbn [isNaN orb number_lt CookieStore.iterations].
    destruct (Z.ltb_spec (Z.of_nat (length (x :: y :: rest))) 1);
      [cbn [length] in *; lia|].
    rewrite Nat2Z.id.
    rewrite (read_chunks_spec this _ (x :: y :: rest)); [|done|done|lia].
    cbn [app]. by rewrite <- Hjoin.
Qed.

End CookieSessions.

(** X7. Round trip of the cookie store.  Let the store have a non-empty
    key, let the encryption of the serialised session give a non-empty
    payload of at most ten chunks that decrypts to the serialisation, and
    the serialisation parse to the session.  Then [persistSessionData]
    returns, and [getSession] on a later request that presents the
    cookies as they were last set returns the session. *)
Theorem cookie_round_trip `{Platform}
    (this : CookieStore.t) (c : Context) (session_data : SessionData)
    (key payload : jsstring) (jar : gmap jsstring jsstring) :
  CookieStore.encryptionKey this = Some key ->
  truthy key = true ->
  encrypt key (JSON_stringify session_data) = Ok payload ->
  payload <> [] ->
  (length (chunkStringByBytes payload 4000) <= 10)%nat ->
  decrypt key payload = Ok (JSON_stringify session_data) ->
  JSON_parse (JSON_stringify session_data) = Ok (Some session_data) ->
  let r := CookieStore.persistSessionData this c session_data in
  presents (res_cookies (snd r)) jar ->
  fst r = Ok tt /\
  CookieStore.getSession this (next_request c jar) = Ok (Some session_data).
Proof.
  intros Hkey Hk Henc Hne Hlen Hdec Hparse. cbn zeta.
  assert (CookieStore.payload_of this session_data = Ok payload) as Hp.
  { unfold CookieStore.payload_of. by rewrite Hkey, Hk. }
  rewrite (persistSessionData_writes this c _ _ Hp Hlen).
  cbn [fst snd with_writes res_cookies]. intros Hjar. split; [done|].
  rewrite (getSession_reads_payload this c (res_cookies c) payload jar);
    try done.
  unfold CookieStore.decode_session. rewrite Hkey, Hk.
  destruct payload; [done|]. cbn [truthy andb].
  by rewrite Hdec, Hparse.
Qed.

(** The cookies a client that keeps every cookie holds after a response. *)
Lemma presents_last_written (writes : list SetCookie) :
  presents writes (last_written writes).
Proof.
  intros name value Hv. rewrite Hv. by destruct value.
Qed.

Lemma cookie_round_trip_witness :
  let P := Reference.platform [test_session] in
  let r := @CookieStore.persistSessionData P test_cookie_store
             (request_with ∅) test_session in
  fst r = Ok tt /\
  @CookieStore.getSession P test_cookie_store
     (next_request (request_with ∅) (last_written (res_cookies (snd r))))
    = Ok (Some test_session).
Proof.
  apply (@cookie_round_trip (Reference.platform [test_session])
           test_cookie_store (request_with ∅) test_session
           (lit "test-encryption-key-with-at-least-32-chars")
           (lit "encrypted:" ++ Reference.stringify test_session)).
  - reflexivity.
  - reflexivity.
  - reflexivity.
  - discriminate.
  - vm_compute. lia.
  - vm_compute. reflexivity.
  - vm_compute. reflexivity.
  - apply presents_last_written.
Defined.

Lemma persistSessionData_oversized `{Platform}
    (this : CookieStore.t) (c : Context) (session_data : SessionData)
    (payload : jsstring) :
  CookieStore.payload_of this session_data = Ok payload ->
  (10 < length (chunkStringByBytes payload 4000))%nat ->
  CookieStore.persistSessionData this c session_data =
    (Throw (lit "Session too large for cookie storage"),
     with_writes c (cleanup_writes this)).
Proof.
  intros Hpayload Hlen. unfold CookieStore.persistSessionData.
  rewrite Hpayload. unfold CookieStore.CHUNK_SIZE. cbn zeta.
  rewrite clear_cookies_cleanup.
  destruct (Z.eqb_spec
              (Z.of_nat (length (chunkStringByBytes payload 4000))) 1);
    [lia|].
  by destruct (Z.gtb_spec
                 (Z.of_nat (length (chunkStringByBytes payload 4000))) 10);
    [|lia].
Qed.

(** The number of chunks of a payload, against its size in bytes. *)
Lemma payload_chunk_count (payload : jsstring) :
  let count := Z.of_nat (length (chunkStringByBytes payload 4000)) in
  byte_length payload <= count * 4000 /\
  (byte_length payload <= 39970 -> count <= 10).
Proof.
  cbn zeta. destruct payload as [|u payload]; [by cbn|].
  destruct (groups_of_input 4000 (u :: payload) ltac:(lia) ltac:(done))
    as (-> & Hc & _ & Hchars & Hne & Hle & Hgreedy).
  rewrite length_map, byte_length_iterator.
  remember (groups 4000 (string_iterator (u :: payload)) []) as G eqn:EG.
  rewrite <- Hc. clear EG Hc.
  pose proof (byte_sum_concat_le _ _ Hle).
  pose proof (greedy_size _ _ Hgreedy Hchars Hne). lia.
Qed.

(** X8. The size a session may have in the cookie store, by the UTF-8
    size of its payload: a payload of at most 39970 bytes is always
    stored, for no chunk but the last holds fewer than 3997 bytes; a
    payload of more than 40000 bytes is always refused with the
    oversized-session error. *)
Theorem persist_size_thresholds `{Platform}
    (this : CookieStore.t) (c : Context) (session_data : SessionData)
    (payload : jsstring) :
  CookieStore.payload_of this session_data = Ok payload ->
  (byte_length payload <= 39970 ->
   fst (CookieStore.persistSessionData this c session_data) = Ok tt) /\
  (40000 < byte_length payload ->
   fst (CookieStore.persistSessionData this c session_data) =
     Throw (lit "Session too large for cookie storage")).
Proof.
  intros Hp. destruct (payload_chunk_count payload) as [Hlow Hhigh].
  cbn zeta in *. split; intros Hsize.
  - rewrite (persistSessionData_writes this c _ _ Hp); [done|].
    specialize (Hhigh Hsize). lia.
  - rewrite (persistSessionData_oversized this c _ _ Hp); [done|]. lia.
Qed.

Lemma persist_size_thresholds_witness :
  fst (@CookieStore.persistSessionData
         (platform_encrypting_to (lit "small-encrypted-data"))
         test_cookie_store (request_with ∅) test_session) = Ok tt /\
  fst (@CookieStore.persistSessionData
         (platform_encrypting_to veryLargePayload)
         test_cookie_store (request_with ∅) test_session) =
    Throw (lit "Session too large for cookie storage").
Proof.
  split.
  - apply (@persist_size_thresholds
             (platform_encrypting_to (lit "small-encrypted-data"))
             test_cookie_store (request_with ∅) test_session
             (lit "small-encrypted-data") eq_refl).
    vm_compute. discriminate.
  - apply (@persist_size_thresholds
             (platform_encrypting_to veryLargePayload)
             test_cookie_store (request_with ∅) test_session
             veryLargePayload eq_refl).
    rewrite byte_length_ascii_only by (apply ascii_only_repeat; lia).
    unfold veryLargePayload. rewrite repeat_length. lia.
Defined.

(** X9. [getSession] returns session data only as the parse of what the
    decryption of the joined cookies gives, under a non-empty key: with
    no key, an empty cookie, a failing decryption or a failing parse it
    never returns data. *)
Theorem getSession_data_is_decrypted `{Platform}
    (this : CookieStore.t) (c : Context) (session_data : SessionData) :
  CookieStore.getSession this c = Ok (Some session_data) ->
  exists key sessionCookie session_data_raw,
    CookieStore.encryptionKey this = Some key /\
    truthy key = true /\
    truthy sessionCookie = true /\
    sessionCookie =
      CookieStore.read_chunks this c
        (CookieStore.iterations
           (CookieStore.cookieCount
              (getCookie c (CookieStore.countCookieName this)))) 0 [] /\
    decrypt key sessionCookie = Ok session_data_raw /\
    JSON_parse session_data_raw = Ok (Some session_data).
Proof.
  unfold CookieStore.getSession. destruct (_ || _); [done|].
  unfold CookieStore.decode_session.
  destruct (CookieStore.encryptionKey this) as [key|]; [|done].
  destruct (truthy key) eqn:Hk; [|done].
  match goal with
  | |- context [CookieStore.read_chunks ?t ?c ?n ?i ?a] =>
      set (cookie := CookieStore.read_chunks t c n i a)
  end.
  destruct (truthy cookie) eqn:Hc; [|done]. cbn [andb].
  destruct (decrypt key cookie) as [raw|] eqn:Hd; [|done].
  destruct (JSON_parse raw) as [r|] eqn:Hr; [|done].
  intros [= ->]. by exists key, cookie, raw.
Qed.

Lemma getSession_data_is_decrypted_witness :
  let P := Reference.platform [test_session] in
  let c :=
    request_with
      {[ lit "test-session" :=
           lit "encrypted:" ++ Reference.stringify test_session ]} in
  exists key sessionCookie session_data_raw,
    CookieStore.encryptionKey test_cookie_store = Some key /\
    truthy key = true /\
    truthy sessionCookie = true /\
    sessionCookie =
      CookieStore.read_chunks test_cookie_store c
        (CookieStore.iterations
           (CookieStore.cookieCount
              (getCookie c (CookieStore.countCookieName test_cookie_store))))
        0 [] /\
    @decrypt P key sessionCookie = Ok session_data_raw /\
    @JSON_parse P session_data_raw = Ok (Some test_session).
Proof.
  apply (@getSession_data_is_decrypted (Reference.platform [test_session])).
  vm_compute. reflexivity.
Defined.

(** X10. A count cookie that announces more chunks than the request
    carries is no error: when the cookies of the indices below [m] are
    present and non-empty and the cookie of index [m] is missing or
    empty, with [m] below the announced count, [getSession] decodes the
    [m] chunks it found, joined. *)
Theorem getSession_partial_chunks `{Platform}
    (this : CookieStore.t) (c : Context) (raw : jsstring) (count : Z)
    (chunks : list jsstring) :
  getCookie c (CookieStore.countCookieName this) = Some raw ->
  truthy raw = true ->
  parseInt raw = Num count ->
  Z.of_nat (length chunks) < count ->
  (forall (j : nat) x,
     chunks !! j = Some x ->
     getCookie c
       (getCookieName (CookieStore.sessionCookieName this) (Z.of_nat j))
       = Some x /\ truthy x = true) ->
  truthy_opt
    (getCookie c
       (getCookieName (CookieStore.sessionCookieName this)
          (Z.of_nat (length chunks)))) = false ->
  CookieStore.getSession this c =
    CookieStore.decode_session this (concat chunks).
Proof.
  intros Hraw Ht Hparse Hm Hhit Hstop. unfold CookieStore.getSession.
  rewrite Hraw. cbn [CookieStore.cookieCount]. rewrite Ht, Hparse.
  cbn [isNaN orb number_lt CookieStore.iterations].
  destruct (Z.ltb_spec count 1); [lia|].
  by rewrite (read_chunks_spec this c chunks); [|lia|..].
Qed.

Lemma getSession_partial_chunks_witness :
  let c :=
    request_with
      (<[lit "test-session_count" := lit "3"]>
       (<[lit "test-session" := lit "encrypted:part1"]>
        {[ lit "test-session_2" := lit "part3" ]})) in
  @CookieStore.getSession (Reference.platform []) test_cookie_store c =
    @CookieStore.decode_session (Reference.platform []) test_cookie_store
      (concat [lit "encrypted:part1"]).
Proof.
  apply (@getSession_partial_chunks (Reference.platform [])
           test_cookie_store _ (lit "3") 3 [lit "encrypted:part1"]).
  - vm_compute. reflexivity.
  - reflexivity.
  - reflexivity.
  - cbn. lia.
  - intros [|[|j]] x Hj; try done. injection Hj as <-.
    split; vm_compute; reflexivity.
  - vm_compute. reflexivity.
Defined.

(** X11. After [deleteSession], [getSession] on a later request that
    presents the cookies as they were last set returns [null], and does
    not throw: the emptied count cookie is read as a count of 1 and the
    emptied cookie [N] as no chunk. *)
Theorem deleteSession_then_getSession `{Platform}
    (this : CookieStore.t) (c : Context) (jar : gmap jsstring jsstring) :
  presents (res_cookies (CookieStore.deleteSession this c)) jar ->
  CookieStore.getSession this (next_request c jar) = Ok None.
Proof.
  unfold CookieStore.deleteSession. rewrite clear_cookies_cleanup.
  cbn [with_writes res_cookies].
  replace (cleanup_writes this)
    with (cleanup_writes this ++ data_writes this []) by apply app_nil_r.
  intros Hjar.
  destruct (last_written_persisted this (res_cookies c) [] ltac:(cbn; lia))
    as (_ & Hstale & Hcount). cbn zeta in *.
  specialize (Hstale 0 ltac:(cbn; lia)).
  pose proof (Hjar _ _ Hstale) as HN. pose proof (Hjar _ _ Hcount) as HC.
  cbn [truthy] in HN, HC. unfold CookieStore.getSession.
  change (getCookie (next_request c jar) (CookieStore.countCookieName this))
    with (jar !! CookieStore.countCookieName this).
  assert (CookieStore.cookieCount (jar !! CookieStore.countCookieName this)
            = Num 1) as ->.
  { destruct (jar !! CookieStore.countCookieName this) as [raw|]; [|done].
    cbn in HC. cbn. by rewrite HC. }
  cbn [isNaN number_lt orb Z.ltb Z.compare Pos.compare
       Pos.compare_cont CookieStore.iterations].
  rewrite (read_chunks_spec this _ [] 1 0 []); [|cbn; lia|done|by intros _].
  unfold CookieStore.decode_session.
  destruct (CookieStore.encryptionKey this) as [key|]; [|done].
  by rewrite andb_false_r.
Qed.

Lemma deleteSession_then_getSession_witness :
  let c :=
    request_with
      {[ lit "test-session" :=
           lit "encrypted:" ++ Reference.stringify test_session ]} in
  @CookieStore.getSession (Reference.platform [test_session])
     test_cookie_store
     (next_request c
        (last_written
           (res_cookies (CookieStore.deleteSession test_cookie_store c))))
    = Ok None.
Proof.
  apply (@deleteSession_then_getSession (Reference.platform [test_session])).
  apply presents_last_written.
Defined.

(** ** The keyed backend store: failures, reads and compositions *)

Section KeyedBackendMore.

Import CloudflareKVStore.

Context `{Platform}.
Variable this : CloudflareKVStore.t.

Ltac enter_try Hid := rewrite Hid; cbn [negb]; unfold try_catch.

(** The binding resolves or the getter throws, and the world stays. *)
Lemma kv_cases (w : World) :
  (exists namespace, kv this w = (Ok namespace, w)) \/
  (binding_missing this w /\
   kv this w = (Throw (missing_binding_message this w), w)).
Proof.
  unfold kv, binding_missing, missing_binding_message.
  destruct (asyncLocalStore w) as [context|]; [|by right].
  destruct (env context) as [bindings|]; [|by right].
  destruct (bindings !! kvName this) as [namespace|]; [left|by right].
  by eexists.
Qed.

(** Putting back the state the binding already has changes nothing. *)
Lemma update_binding_same (w : World) (namespace : KVNamespace) :
  kv this w = (Ok namespace, w) -> update_binding this namespace w = w.
Proof.
  intros (context & bindings & Hc & He & Hb)%kv_resolves.
  unfold update_binding. rewrite Hc, He, (insert_id _ _ _ Hb).
  destruct w as [store errors]. cbn in *. subst store.
  destruct context as [req res e]. cbn in *. by subst e.
Qed.

Lemma record_of_reported (label error : jsstring) (w : World)
    (sessionId : jsstring) :
  record_of this (reported label error w) sessionId =
  record_of this w sessionId.
Proof.
  unfold record_of, reported, console_error, kv. cbn.
  destruct (asyncLocalStore w) as [context|]; [|done].
  destruct (env context) as [bindings|]; [|done].
  by destruct (bindings !! kvName this).
Qed.

Lemma record_of_errors (w : World) (errors : list (jsstring * jsstring))
    (sessionId : jsstring) :
  record_of this
    {| asyncLocalStore := asyncLocalStore w; console_errors := errors |}
    sessionId = record_of this w sessionId.
Proof.
  unfold record_of, kv. cbn.
  destruct (asyncLocalStore w) as [context|]; [|done].
  destruct (env context) as [bindings|]; [|done].
  by destruct (bindings !! kvName this).
Qed.

Lemma kv_reported (label error : jsstring) (w : World)
    (namespace : KVNamespace) :
  kv this w = (Ok namespace, w) ->
  kv this (reported label error w) =
    (Ok namespace, reported label error w).
Proof.
  intros (context & bindings & Hc & He & Hb)%kv_resolves.
  unfold kv, reported, console_error. cbn. by rewrite Hc, He, Hb.
Qed.

Lemma deleteSession_fault (w : World) (namespace : KVNamespace)
    (sessionId e : jsstring) :
  truthy sessionId = true ->
  kv this w = (Ok namespace, w) -> kv_fault namespace = Some e ->
  deleteSession this sessionId w =
    (Throw e, reported (lit "Error deleting session:") e w).
Proof.
  intros Hid Hkv Hfault. unfold deleteSession. enter_try Hid.
  unfold bind. rewrite Hkv. unfold backend_call, KV_delete.
  rewrite Hfault. cbn [fst snd]. by rewrite (update_binding_same _ _ Hkv).
Qed.

Lemma createSession_fault (w : World) (namespace : KVNamespace) (now : Z)
    (sessionId e : jsstring) (initialData : SessionData) :
  truthy sessionId = true ->
  kv this w = (Ok namespace, w) -> kv_fault namespace = Some e ->
  createSession this now sessionId initialData w =
    (Throw e, reported (lit "Error creating session:") e w).
Proof.
  intros Hid Hkv Hfault. unfold createSession. enter_try Hid.
  unfold bind. rewrite Hkv. unfold backend_call, KV_put.
  rewrite Hfault. cbn [fst snd]. by rewrite (update_binding_same _ _ Hkv).
Qed.

Lemma persistSessionData_fault (w : World) (namespace : KVNamespace)
    (now : Z) (sessionId e : jsstring) (sessionData : SessionData) :
  truthy sessionId = true ->
  kv this w = (Ok namespace, w) -> kv_fault namespace = Some e ->
  persistSessionData this now sessionId sessionData w =
    (Throw e,
     reported (lit "Error persisting session data:") e
       (if _delete sessionData
        then reported (lit "Error deleting session:") e w
        else w)).
Proof.
  intros Hid Hkv Hfault. unfold persistSessionData. enter_try Hid.
  cbn [set_accessed _delete]. destruct (_delete sessionData).
  - by rewrite (deleteSession_fault _ _ _ _ Hid Hkv Hfault).
  - unfold bind. rewrite Hkv. unfold backend_call, KV_put.
    rewrite Hfault. cbn [fst snd].
    by rewrite (update_binding_same _ _ Hkv).
Qed.

Lemma getSessionById_fault (w : World) (namespace : KVNamespace) (now : Z)
    (sessionId e : jsstring) :
  truthy sessionId = true ->
  kv this w = (Ok namespace, w) -> kv_fault namespace = Some e ->
  getSessionById this now (Some sessionId) w =
    (Ok Null, reported (lit "Error retrieving session:") e w).
Proof.
  intros Hid Hkv Hfault. unfold getSessionById. enter_try Hid.
  unfold bind at 1. rewrite Hkv. unfold bind at 1, lift, KV_get.
  by rewrite Hfault.
Qed.

Lemma getSessionById_absent (w : World) (namespace : KVNamespace) (now : Z)
    (sessionId : jsstring) :
  truthy sessionId = true -> bound_to this w namespace ->
  kv_records namespace !! getKeyFromSessionId this sessionId = None ->
  getSessionById this now (Some sessionId) w = (Ok Null, w).
Proof.
  intros Hid [Hkv Hfault] Hnone. unfold getSessionById. enter_try Hid.
  unfold bind at 1. rewrite Hkv. unfold bind at 1, lift, KV_get.
  by rewrite Hfault, Hnone.
Qed.

Lemma getSessionById_found (w : World) (namespace : KVNamespace) (now : Z)
    (sessionId : jsstring) (entry : KVEntry) (data : SessionData) :
  truthy sessionId = true -> bound_to this w namespace ->
  kv_records namespace !! getKeyFromSessionId this sessionId = Some entry ->
  JSON_parse (entry_value entry) = Ok (Some data) ->
  _delete data = false ->
  getSessionById this now (Some sessionId) w =
    (Ok (Session (set_accessed data (Some (Date_toISOString now)))), w).
Proof.
  intros Hid [Hkv Hfault] Hentry Hparse Hdel. unfold getSessionById.
  enter_try Hid. unfold bind at 1. rewrite Hkv.
  unfold bind at 1, lift, KV_get. rewrite Hfault, Hentry, Hparse.
  cbn [set_accessed _delete]. by rewrite Hdel.
Qed.

(** The state of the backend after a call that went through. *)
Lemma bound_to_update (w : World) (namespace : KVNamespace)
    (records : gmap jsstring KVEntry) :
  kv this w = (Ok namespace, w) ->
  bound_to this
    (update_binding this {| kv_records := records; kv_fault := None |} w)
    {| kv_records := records; kv_fault := None |}.
Proof. intros Hkv. split; [by eapply kv_update_binding | done]. Qed.

Lemma getKeyFromSessionId_inj (a b : jsstring) :
  getKeyFromSessionId this a = getKeyFromSessionId this b -> a = b.
Proof. apply app_inv_head. Qed.

End KeyedBackendMore.

(** X12. The check of the identifier comes before anything else: with an
    empty identifier the three writing operations throw the
    missing-identifier error and [getSessionById] resolves to
    [undefined], in every world, bound or not, answering or not, and the
    world is left as it was: no backend call, no report. *)
Theorem empty_identifier_touches_nothing `{Platform}
    (this : CloudflareKVStore.t) (w : CloudflareKVStore.World) (now : Z)
    (data : SessionData) :
  CloudflareKVStore.createSession this now [] data w =
    (Throw (lit "Session ID is required"), w) /\
  CloudflareKVStore.persistSessionData this now [] data w =
    (Throw (lit "Session ID is required"), w) /\
  CloudflareKVStore.deleteSession this [] w =
    (Throw (lit "Session ID is required"), w) /\
  CloudflareKVStore.getSessionById this now (Some []) w =
    (Ok CloudflareKVStore.Undefined, w) /\
  CloudflareKVStore.getSessionById this now None w =
    (Ok CloudflareKVStore.Undefined, w).
Proof. repeat split. Qed.

(** X13. [getSessionById] never throws: whatever the world, the
    identifier and the stored text, it resolves to a value. *)
Theorem getSessionById_never_throws `{Platform}
    (this : CloudflareKVStore.t) (w : CloudflareKVStore.World) (now : Z)
    (sessionId : option jsstring) :
  exists r w',
    CloudflareKVStore.getSessionById this now sessionId w = (Ok r, w').
Proof.
  unfold CloudflareKVStore.getSessionById.
  destruct sessionId as [sessionId|]; [|by eexists _, _].
  destruct (truthy sessionId); [|by eexists _, _]. cbn [negb].
  unfold CloudflareKVStore.try_catch, CloudflareKVStore.bind at 1.
  destruct (CloudflareKVStore.kv this w) as [[namespace|e] w1];
    [|by eexists _, _].
  unfold CloudflareKVStore.bind at 1, CloudflareKVStore.lift.
  destruct (CloudflareKVStore.KV_get namespace _) as [[data|]|e];
    [|by eexists _, _..].
  cbn [set_accessed _delete]. destruct (_delete data); [|by eexists _, _].
  unfold CloudflareKVStore.bind.
  destruct (CloudflareKVStore.deleteSession this sessionId w1) as [[u|e] w2];
    by eexists _, _.
Qed.

(** X14. While the backend fails with an error, with a non-empty
    identifier: [getSessionById] reports the error and resolves to
    [null]; [createSession], [persistSessionData] and [deleteSession]
    report it and throw it to the caller ([persistSessionData] of a
    session marked for deletion reports it twice, once as the deletion
    and once as the persisting).  No operation changes a record. *)
Theorem backend_failure_reported `{Platform}
    (this : CloudflareKVStore.t) (w : CloudflareKVStore.World)
    (namespace : KVNamespace) (now : Z) (sessionId e : jsstring)
    (data : SessionData) :
  truthy sessionId = true ->
  CloudflareKVStore.kv this w = (Ok namespace, w) ->
  kv_fault namespace = Some e ->
  CloudflareKVStore.getSessionById this now (Some sessionId) w =
    (Ok CloudflareKVStore.Null,
     reported (lit "Error retrieving session:") e w) /\
  CloudflareKVStore.createSession this now sessionId data w =
    (Throw e, reported (lit "Error creating session:") e w) /\
  CloudflareKVStore.deleteSession this sessionId w =
    (Throw e, reported (lit "Error deleting session:") e w) /\
  CloudflareKVStore.persistSessionData this now sessionId data w =
    (Throw e,
     reported (lit "Error persisting session data:") e
       (if _delete data
        then reported (lit "Error deleting session:") e w
        else w)) /\
  CloudflareKVStore.kv this
    (snd (CloudflareKVStore.persistSessionData this now sessionId data w))
    = (Ok namespace,
       snd (CloudflareKVStore.persistSessionData this now sessionId data w)).
Proof.
  intros Hid Hkv Hfault. split; [by eapply getSessionById_fault|].
  split; [by eapply createSession_fault|].
  split; [by eapply deleteSession_fault|].
  rewrite (persistSessionData_fault this w namespace now sessionId e data
             Hid Hkv Hfault).
  split; [done|]. cbn [snd]. apply kv_reported.
  destruct (_delete data); [by apply kv_reported | done].
Qed.

Lemma backend_failure_reported_witness :
  let P := Reference.platform [] in
  let id := lit "test-session-id" in
  let failing := {| kv_records := ∅; kv_fault := Some (lit "KV error") |} in
  let w := world_with (lit "MY_KV") failing in
  @CloudflareKVStore.getSessionById P test_kv_store test_now (Some id) w =
    (Ok CloudflareKVStore.Null,
     reported (lit "Error retrieving session:") (lit "KV error") w) /\
  @CloudflareKVStore.persistSessionData P test_kv_store test_now id
     deleted_session w =
    (Throw (lit "KV error"),
     reported (lit "Error persisting session data:") (lit "KV error")
       (reported (lit "Error deleting session:") (lit "KV error") w)).
Proof.
  cbn zeta.
  destruct (@backend_failure_reported (Reference.platform []) test_kv_store
              (world_with (lit "MY_KV")
                 {| kv_records := ∅; kv_fault := Some (lit "KV error") |})
              {| kv_records := ∅; kv_fault := Some (lit "KV error") |}
              test_now (lit "test-session-id") (lit "KV error")
              deleted_session eq_refl eq_refl eq_refl)
    as (Hget & _ & _ & Hpersist & _).
  split; [exact Hget | exact Hpersist].
Defined.

(** X15. Round trip of the keyed store.  With a non-empty identifier, the
    backend bound and answering, and a session not marked for deletion
    whose stored serialisation parses back to what was serialised: after
    [createSession] or [persistSessionData], [getSessionById] at a later
    time resolves to the session with [_accessed] set to that later
    time, and leaves the backend as the write left it. *)
Theorem keyed_round_trip `{Platform}
    (this : CloudflareKVStore.t) (w : CloudflareKVStore.World)
    (namespace : KVNamespace) (now later : Z) (sessionId : jsstring)
    (data : SessionData) :
  truthy sessionId = true ->
  bound_to this w namespace ->
  _delete data = false ->
  (JSON_parse (JSON_stringify (created now data))
     = Ok (Some (created now data)) ->
   exists w1,
     CloudflareKVStore.createSession this now sessionId data w
       = (Ok tt, w1) /\
     CloudflareKVStore.getSessionById this later (Some sessionId) w1 =
       (Ok (CloudflareKVStore.Session
              (set_accessed data (Some (Date_toISOString later)))), w1)) /\
  (JSON_parse
     (JSON_stringify (set_accessed data (Some (Date_toISOString now))))
     = Ok (Some (set_accessed data (Some (Date_toISOString now)))) ->
   exists w1,
     CloudflareKVStore.persistSessionData this now sessionId data w
       = (Ok tt, w1) /\
     CloudflareKVStore.getSessionById this later (Some sessionId) w1 =
       (Ok (CloudflareKVStore.Session
              (set_accessed data (Some (Date_toISOString later)))), w1)).
Proof.
  intros Hid Hbound Hdel. pose proof Hbound as [Hkv _]. split; intros Hparse.
  - eexists. split.
    { exact (createSession_ok this w namespace now sessionId data
               Hid Hbound). }
    erewrite getSessionById_found; [| done | exact (bound_to_update this w namespace _ Hkv)
      | cbn [kv_records]; apply lookup_insert_eq | exact Hparse |].
    + unfold created. by destruct (truthy_opt (_accessed data)).
    + unfold created. by destruct (truthy_opt (_accessed data)).
  - eexists. split.
    { exact (persistSessionData_ok this w namespace now sessionId data
               Hid Hbound Hdel). }
    erewrite getSessionById_found; [| done | exact (bound_to_update this w namespace _ Hkv)
      | cbn [kv_records]; apply lookup_insert_eq | exact Hparse |]; done.
Qed.

Lemma keyed_round_trip_witness :
  let P :=
    Reference.platform
      [accessed_session;
       set_accessed accessed_session
         (Some (lit "2024-10-27T03:33:20.000Z"))] in
  let id := lit "test-session-id" in
  let w := world_with (lit "MY_KV") empty_namespace in
  exists w1,
    @CloudflareKVStore.persistSessionData P test_kv_store test_now id
       accessed_session w = (Ok tt, w1) /\
    @CloudflareKVStore.getSessionById P test_kv_store (test_now + 1000)
       (Some id) w1 =
      (Ok (CloudflareKVStore.Session
             (set_accessed accessed_session
                (Some (lit "2024-10-27T03:33:21.000Z")))), w1).
Proof.
  cbn zeta.
  destruct (@keyed_round_trip
              (Reference.platform
                 [accessed_session;
                  set_accessed accessed_session
                    (Some (lit "2024-10-27T03:33:20.000Z"))])
              test_kv_store (world_with (lit "MY_KV") empty_namespace)
              empty_namespace test_now (test_now + 1000)
              (lit "test-session-id") accessed_session
              eq_refl (conj eq_refl eq_refl) eq_refl) as [_ Hpersist].
  apply Hpersist. vm_compute. reflexivity.
Defined.

(** X16. After [deleteSession], with a non-empty identifier and the
    backend bound and answering, the backend holds no record under the
    key of the session and [getSessionById] resolves to [null], without
    a report. *)
Theorem deleteSession_then_getSessionById `{Platform}
    (this : CloudflareKVStore.t) (w : CloudflareKVStore.World)
    (namespace : KVNamespace) (now : Z) (sessionId : jsstring) :
  truthy sessionId = true ->
  bound_to this w namespace ->
  exists w1,
    CloudflareKVStore.deleteSession this sessionId w = (Ok tt, w1) /\
    record_of this w1 sessionId = None /\
    CloudflareKVStore.console_errors w1 = CloudflareKVStore.console_errors w /\
    CloudflareKVStore.getSessionById this now (Some sessionId) w1
      = (Ok CloudflareKVStore.Null, w1).
Proof.
  intros Hid Hbound. pose proof Hbound as [Hkv _].
  eexists. split.
  { exact (deleteSession_ok this w namespace sessionId Hid Hbound). }
  split; [|split; [done|]].
  - rewrite (record_of_update _ _ _ _ _ Hkv). cbn [kv_records].
    apply lookup_delete_eq.
  - eapply getSessionById_absent;
      [done | exact (bound_to_update this w namespace _ Hkv) |].
    cbn [kv_records]. apply lookup_delete_eq.
Qed.

Lemma deleteSession_then_getSessionById_witness :
  let P := Reference.platform [accessed_session] in
  let w := world_with (lit "MY_KV") (namespace_holding accessed_session) in
  exists w1,
    CloudflareKVStore.deleteSession test_kv_store (lit "test-session-id") w
      = (Ok tt, w1) /\
    record_of test_kv_store w1 (lit "test-session-id") = None /\
    CloudflareKVStore.console_errors w1 = [] /\
    @CloudflareKVStore.getSessionById P test_kv_store test_now
       (Some (lit "test-session-id")) w1 = (Ok CloudflareKVStore.Null, w1).
Proof.
  exact (@deleteSession_then_getSessionById
           (Reference.platform [accessed_session]) test_kv_store
           (world_with (lit "MY_KV") (namespace_holding accessed_session))
           (namespace_holding accessed_session) test_now
           (lit "test-session-id") eq_refl (conj eq_refl eq_refl)).
Defined.

(** X17. Reading does not write.  With a non-empty identifier and the
    backend bound and answering: when there is no record under the key,
    [getSessionById] resolves to [null]; when the record parses to a
    session that is not marked for deletion, it resolves to that session
    with [_accessed] set to the current time.  In both cases the world
    is left as it was: the refreshed [_accessed] is not stored. *)
Theorem getSessionById_reads_only `{Platform}
    (this : CloudflareKVStore.t) (w : CloudflareKVStore.World)
    (namespace : KVNamespace) (now : Z) (sessionId : jsstring) :
  truthy sessionId = true ->
  bound_to this w namespace ->
  let key := CloudflareKVStore.getKeyFromSessionId this sessionId in
  (kv_records namespace !! key = None ->
   CloudflareKVStore.getSessionById this now (Some sessionId) w =
     (Ok CloudflareKVStore.Null, w)) /\
  (forall entry data,
     kv_records namespace !! key = Some entry ->
     JSON_parse (entry_value entry) = Ok (Some data) ->
     _delete data = false ->
     CloudflareKVStore.getSessionById this now (Some sessionId) w =
       (Ok (CloudflareKVStore.Session
              (set_accessed data (Some (Date_toISOString now)))), w)).
Proof.
  intros Hid Hbound. cbn zeta. split.
  - intros Hnone. by eapply getSessionById_absent.
  - intros entry data He Hp Hd. by eapply getSessionById_found.
Qed.

Lemma getSessionById_reads_only_witness :
  let P := Reference.platform [accessed_session] in
  let w := world_with (lit "MY_KV") (namespace_holding accessed_session) in
  @CloudflareKVStore.getSessionById P test_kv_store test_now
     (Some (lit "test-session-id")) w =
    (Ok (CloudflareKVStore.Session
           (set_accessed accessed_session
              (Some (Date_toISOString test_now)))), w).
Proof.
  cbn zeta.
  destruct (@getSessionById_reads_only
              (Reference.platform [accessed_session]) test_kv_store
              (world_with (lit "MY_KV") (namespace_holding accessed_session))
              (namespace_holding accessed_session) test_now
              (lit "test-session-id") eq_refl (conj eq_refl eq_refl))
    as [_ Hfound].
  refine (Hfound _ accessed_session _ _ eq_refl).
  - vm_compute. reflexivity.
  - vm_compute. reflexivity.
Defined.

Section KeyedBackendFrame.

Import CloudflareKVStore.

Context `{Platform}.
Variable this : CloudflareKVStore.t.
Variables sessionId other : jsstring.
Hypothesis Hother : other <> sessionId.

Lemma other_key :
  getKeyFromSessionId this sessionId <> getKeyFromSessionId this other.
Proof. intros E%getKeyFromSessionId_inj. by apply Hother. Qed.

Lemma record_of_bound (w : World) (namespace : KVNamespace) :
  kv this w = (Ok namespace, w) ->
  record_of this w other =
    kv_records namespace !! getKeyFromSessionId this other.
Proof. intros Hkv. unfold record_of. by rewrite Hkv. Qed.

Lemma deleteSession_frame (w : World) :
  record_of this (snd (deleteSession this sessionId w)) other =
  record_of this w other.
Proof.
  destruct (truthy sessionId) eqn:Hid;
    [|unfold deleteSession; by rewrite Hid].
  destruct (kv_cases this w) as [[namespace Hkv]|[Hmiss _]].
  - destruct (kv_fault namespace) as [e|] eqn:Hfault.
    + rewrite (deleteSession_fault this w namespace _ e Hid Hkv Hfault).
      apply record_of_reported.
    + rewrite (deleteSession_ok this w namespace _ Hid (conj Hkv Hfault)).
      cbn [snd]. rewrite (record_of_update _ _ _ _ _ Hkv).
      rewrite (record_of_bound _ _ Hkv). cbn [kv_records].
      apply lookup_delete_ne, other_key.
  - rewrite (deleteSession_missing this w _ Hid Hmiss).
    apply record_of_reported.
Qed.

Lemma createSession_frame (w : World) (now : Z) (data : SessionData) :
  record_of this (snd (createSession this now sessionId data w)) other =
  record_of this w other.
Proof.
  destruct (truthy sessionId) eqn:Hid;
    [|unfold createSession; by rewrite Hid].
  destruct (kv_cases this w) as [[namespace Hkv]|[Hmiss _]].
  - destruct (kv_fault namespace) as [e|] eqn:Hfault.
    + rewrite (createSession_fault this w namespace now _ e data
                 Hid Hkv Hfault).
      apply record_of_reported.
    + rewrite (createSession_ok this w namespace now _ data
                 Hid (conj Hkv Hfault)).
      cbn [snd]. rewrite (record_of_update _ _ _ _ _ Hkv).
      rewrite (record_of_bound _ _ Hkv). cbn [kv_records].
      apply lookup_insert_ne, other_key.
  - rewrite (createSession_missing this w now _ data Hid Hmiss).
    apply record_of_reported.
Qed.

Lemma persistSessionData_frame (w : World) (now : Z) (data : SessionData) :
  record_of this (snd (persistSessionData this now sessionId data w)) other =
  record_of this w other.
Proof.
  destruct (truthy sessionId) eqn:Hid;
    [|unfold persistSessionData; by rewrite Hid].
  destruct (kv_cases this w) as [[namespace Hkv]|[Hmiss Hthrow]].
  - destruct (kv_fault namespace) as [e|] eqn:Hfault.
    + rewrite (persistSessionData_fault this w namespace now _ e data
                 Hid Hkv Hfault).
      cbn [snd]. rewrite record_of_reported.
      destruct (_delete data); [apply record_of_reported | done].
    + destruct (_delete data) eqn:Hdel.
      * rewrite (persistSessionData_deletes this w namespace now _ data
                   Hid (conj Hkv Hfault) Hdel).
        cbn [snd]. rewrite (record_of_update _ _ _ _ _ Hkv).
        rewrite (record_of_bound _ _ Hkv). cbn [kv_records].
        apply lookup_delete_ne, other_key.
      * rewrite (persistSessionData_ok this w namespace now _ data
                   Hid (conj Hkv Hfault) Hdel).
        cbn [snd]. rewrite (record_of_update _ _ _ _ _ Hkv).
        rewrite (record_of_bound _ _ Hkv). cbn [kv_records].
        apply lookup_insert_ne, other_key.
  - unfold persistSessionData. rewrite Hid. cbn [negb set_accessed _delete].
    unfold try_catch. destruct (_delete data).
    + rewrite (deleteSession_missing this w _ Hid Hmiss).
      unfold bind, console_error, throw. cbn [snd].
      by rewrite record_of_errors, record_of_reported.
    + unfold bind at 1. rewrite Hthrow.
      unfold bind, console_error, throw. cbn [snd].
      apply record_of_errors.
Qed.

Lemma getSessionById_frame (w : World) (now : Z) :
  record_of this (snd (getSessionById this now (Some sessionId) w)) other =
  record_of this w other.
Proof.
  assert (forall e label w',
            record_of this w' other = record_of this w other ->
            record_of this
              (snd ((let* _ := console_error label e in ret Null) w')) other
              = record_of this w other) as Hreport.
  { intros e label w' Hw'. unfold bind, console_error, ret. cbn [snd].
    by rewrite record_of_errors. }
  unfold getSessionById. destruct (truthy sessionId); [|done]. cbn [negb].
  unfold try_catch, bind at 1.
  destruct (kv_cases this w) as [[namespace ->]|[_ ->]];
    [|by apply Hreport].
  unfold bind at 1, lift.
  destruct (KV_get namespace _) as [[data|]|e];
    [|done|by apply Hreport].
  cbn [set_accessed _delete]. destruct (_delete data); [|done].
  unfold bind at 1. pose proof (deleteSession_frame w) as Hframe.
  destruct (deleteSession this sessionId w) as [[u|e] w2]; cbn [snd] in *;
    [done | by apply Hreport].
Qed.

End KeyedBackendFrame.

(** X18. Sessions do not interfere: whatever the world and the outcome,
    an operation of the store on one identifier leaves the record of
    every other identifier as it was (the keys, the prefix followed by
    the identifier, are distinct for distinct identifiers). *)
Theorem other_sessions_untouched `{Platform}
    (this : CloudflareKVStore.t) (w : CloudflareKVStore.World) (now : Z)
    (sessionId other : jsstring) (data : SessionData) :
  other <> sessionId ->
  record_of this
    (snd (CloudflareKVStore.createSession this now sessionId data w)) other
    = record_of this w other /\
  record_of this
    (snd (CloudflareKVStore.persistSessionData this now sessionId data w))
    other = record_of this w other /\
  record_of this (snd (CloudflareKVStore.deleteSession this sessionId w))
    other = record_of this w other /\
  record_of this
    (snd (CloudflareKVStore.getSessionById this now (Some sessionId) w))
    other = record_of this w other.
Proof.
  intros Hother. split; [by apply createSession_frame|].
  split; [by apply persistSessionData_frame|].
  split; [by apply deleteSession_frame | by apply getSessionById_frame].
Qed.

Lemma other_sessions_untouched_witness :
  let P := Reference.platform [deleted_session] in
  let w := world_with (lit "MY_KV") (namespace_holding deleted_session) in
  record_of test_kv_store
    (snd (@CloudflareKVStore.persistSessionData P test_kv_store test_now
            (lit "another-id") deleted_session w))
    (lit "test-session-id")
    = record_of test_kv_store w (lit "test-session-id").
Proof.
  cbn zeta.
  destruct (@other_sessions_untouched (Reference.platform [deleted_session])
              test_kv_store
              (world_with (lit "MY_KV") (namespace_holding deleted_session))
              test_now (lit "another-id") (lit "test-session-id")
              deleted_session ltac:(discriminate)) as (_ & Hpersist & _).
  exact Hpersist.
Defined.

(** ** Configure: the choice of the store *)

Section ConfigureProperties.

Import Configure.

Variable Custom : Type.

Lemma store_from_env_none (options : SessionOptions Custom)
    (env : ProcessEnv) :
  store_from_env options env = None <->
  truthy_opt (SESSION_STORE_NAMESPACE env) = false /\
  exists s, SESSION_STORE env = Some s /\ truthy s = true /\
            s <> lit "cloudflare-kv" /\ s <> lit "cookie".
Proof.
  unfold store_from_env.
  destruct (truthy_opt (SESSION_STORE_NAMESPACE env)) eqn:Hns.
  { rewrite orb_true_r. split; [done | by intros [? _]]. }
  rewrite orb_false_r.
  destruct (SESSION_STORE env) as [s|] eqn:Hs; cbn [truthy_opt negb].
  - case_bool_decide as Hkv.
    { injection Hkv as ->. split; [done|].
      by intros [_ (s & [= <-] & _ & Hne & _)]. }
    destruct (truthy s) eqn:Ht; cbn [negb orb].
    + case_bool_decide as Hc.
      { injection Hc as ->. split; [done|].
        by intros [_ (s & [= <-] & _ & _ & Hne)]. }
      split; [|done]. intros _. split; [done|]. exists s.
      repeat split; [done | congruence | congruence].
    + split; [done|]. intros [_ (s' & [= <-] & Ht' & _)]. congruence.
  - case_bool_decide; [done|]. cbn [orb]. split; [done|].
    by intros [_ (s & ? & _)].
Qed.

End ConfigureProperties.

(** X19. [configure] throws exactly when the options give no store, the
    variable [SESSION_STORE_NAMESPACE] is unset or empty, and
    [SESSION_STORE] is set to a non-empty value other than
    [cloudflare-kv] and [cookie]; the error is then the
    no-session-store error.  In particular it never throws when the
    options give a store. *)
Theorem configure_throws_iff (Custom : Type)
    (options : Configure.SessionOptions Custom)
    (env : Configure.ProcessEnv) :
  ((exists message, Configure.configure options env = Throw message) <->
   Configure.opt_store options = None /\
   truthy_opt (Configure.SESSION_STORE_NAMESPACE env) = false /\
   exists s, Configure.SESSION_STORE env = Some s /\ truthy s = true /\
             s <> lit "cloudflare-kv" /\ s <> lit "cookie") /\
  (forall message,
     Configure.configure options env = Throw message ->
     message = lit "No session store provided. Please provide a session store or set the SESSION_STORE environment variable.").
Proof.
  pose proof (store_from_env_none Custom options env) as Hnone.
  unfold Configure.configure.
  destruct (Configure.opt_store options) as [st|].
  - split; [|done]. split; [by intros [? ?] | by intros [? _]].
  - destruct (Configure.store_from_env options env) as [st|].
    + split; [|done]. split; [by intros [? ?]|].
      intros (_ & Hrest). by apply Hnone in Hrest.
    + split; [|by intros ? [= <-]]. split.
      * intros _. split; [done|]. by apply Hnone.
      * intros _. by eexists.
Qed.

(** X20. The store [configure] builds when the options give none.  When
    [SESSION_STORE_NAMESPACE] is non-empty the keyed backend store is
    chosen, bound to that name, whatever [SESSION_STORE] says (also
    [cookie]); its time-to-live is the [expireAfterSeconds] of the
    options when that is given and not zero, and 86400 otherwise: the
    variable [SESSION_EXPIRE_AFTER_SECONDS] does not reach it.  When the
    namespace is unset or empty and [SESSION_STORE] is unset, empty or
    [cookie], a cookie store is chosen, made without options: it has no
    encryption key and the cookie name [session], whatever key and name
    the options give. *)
Theorem configure_store_from_environment (Custom : Type)
    (options : Configure.SessionOptions Custom)
    (env : Configure.ProcessEnv) :
  Configure.opt_store options = None ->
  (forall name,
     Configure.SESSION_STORE_NAMESPACE env = Some name ->
     truthy name = true ->
     exists settings,
       Configure.configure options env = Ok settings /\
       Configure.chosen_store settings =
         Configure.KV
           {| CloudflareKVStore.kvName := name;
              CloudflareKVStore.expirationTtl :=
                match Configure.opt_expireAfterSeconds options with
                | Some seconds => if seconds =? 0 then 86400 else seconds
                | None => 86400
                end;
              CloudflareKVStore.prefix := lit "session:" |}) /\
  (truthy_opt (Configure.SESSION_STORE_NAMESPACE env) = false ->
   truthy_opt (Configure.SESSION_STORE env) = false \/
   Configure.SESSION_STORE env = Some (lit "cookie") ->
   exists settings,
     Configure.configure options env = Ok settings /\
     Configure.chosen_store settings =
       Configure.Cookie
         {| CookieStore.encryptionKey := None;
            CookieStore.cookieOptions := None;
            CookieStore.sessionCookieName := lit "session" |}).
Proof.
  intros Hstore. unfold Configure.configure. rewrite Hstore.
  unfold Configure.store_from_env. split.
  - intros name Hname Ht. rewrite Hname. cbn [truthy_opt]. rewrite Ht.
    rewrite orb_true_r. by eexists.
  - intros Hns Hcookie. rewrite Hns, orb_false_r.
    destruct Hcookie as [Hfalsy|Hc].
    + case_bool_decide as Hkv; [by rewrite Hkv in Hfalsy|].
      rewrite Hfalsy. by eexists.
    + rewrite Hc. case_bool_decide as Hkv; [done|].
      case_bool_decide; [|done]. rewrite orb_true_r. by eexists.
Qed.

Lemma configure_store_from_environment_witness :
  exists settings,
    Configure.configure options_without_store env_with_namespace
      = Ok settings /\
    Configure.chosen_store settings = Configure.KV test_kv_store.
Proof.
  exact (proj1 (configure_store_from_environment unit
                  options_without_store env_with_namespace eq_refl)
           (lit "MY_KV") eq_refl eq_refl).
Defined.

(** X21. When the options give the store, the encryption key, the cookie
    name and the expiry, [configure] does not depend on the
    environment. *)
Theorem configure_options_before_environment (Custom : Type)
    (options : Configure.SessionOptions Custom)
    (env env' : Configure.ProcessEnv) :
  Configure.opt_store options <> None ->
  Configure.opt_encryptionKey options <> None ->
  Configure.opt_sessionCookieName options <> None ->
  Configure.opt_expireAfterSeconds options <> None ->
  Configure.configure options env = Configure.configure options env'.
Proof.
  unfold Configure.configure.
  destruct (Configure.opt_store options); [|done].
  destruct (Configure.opt_encryptionKey options); [|done].
  destruct (Configure.opt_sessionCookieName options); [|done].
  by destruct (Configure.opt_expireAfterSeconds options).
Qed.

Lemma configure_options_before_environment_witness :
  let options : Configure.SessionOptions unit :=
    {| Configure.opt_store := Some (Configure.Cookie test_cookie_store);
       Configure.opt_encryptionKey := Some (lit "a-key");
       Configure.opt_expireAfterSeconds := Some 3600;
       Configure.opt_cookieOptions := None;
       Configure.opt_sessionCookieName := Some (lit "sid");
       Configure.opt_autoExtendExpiration := None |} in
  Configure.configure options
    {| Configure.SESSION_STORE := Some (lit "redis");
       Configure.SESSION_STORE_NAMESPACE := None;
       Configure.SESSION_EXPIRE_AFTER_SECONDS := Some (lit "60");
       Configure.SESSION_COOKIE_NAME := Some (lit "other");
       Configure.SESSION_ENCRYPTION_KEY := Some (lit "other-key") |} =
  Configure.configure options
    {| Configure.SESSION_STORE := None;
       Configure.SESSION_STORE_NAMESPACE := None;
       Configure.SESSION_EXPIRE_AFTER_SECONDS := None;
       Configure.SESSION_COOKIE_NAME := None;
       Configure.SESSION_ENCRYPTION_KEY := None |}.
Proof.
  cbn zeta. apply configure_options_before_environment; discriminate.
Defined.

(** ** The keyed backend store: flagged and unreadable records *)

(** X22. [createSession] does not look at the deletion flag: with a
    non-empty identifier and the backend bound and answering, a session
    marked for deletion is stored like any other (where
    [persistSessionData] would delete).  When its serialisation parses
    back, the next [getSessionById] removes the record and resolves to
    [null]. *)
Theorem createSession_stores_flagged_session `{Platform}
    (this : CloudflareKVStore.t) (w : CloudflareKVStore.World)
    (namespace : KVNamespace) (now later : Z) (sessionId : jsstring)
    (data : SessionData) :
  truthy sessionId = true ->
  bound_to this w namespace ->
  _delete data = true ->
  JSON_parse (JSON_stringify (created now data))
    = Ok (Some (created now data)) ->
  exists w1 w2,
    CloudflareKVStore.createSession this now sessionId data w
      = (Ok tt, w1) /\
    entry_value <$> record_of this w1 sessionId =
      Some (JSON_stringify (created now data)) /\
    CloudflareKVStore.getSessionById this later (Some sessionId) w1
      = (Ok CloudflareKVStore.Null, w2) /\
    record_of this w2 sessionId = None.
Proof.
  intros Hid Hbound Hdel Hparse. pose proof Hbound as [Hkv _].
  pose proof (bound_to_update this w namespace
    (<[CloudflareKVStore.getKeyFromSessionId this sessionId :=
         {| entry_value := JSON_stringify (created now data);
            entry_options :=
              CloudflareKVStore.put_options this
                (CloudflareKVStore.expiration_of (created now data)) |}]>
       (kv_records namespace)) Hkv) as Hbound1.
  eexists _, _. split.
  { exact (createSession_ok this w namespace now sessionId data
             Hid Hbound). }
  split.
  { rewrite (record_of_update _ _ _ _ _ Hkv). cbn [kv_records].
    by rewrite lookup_insert_eq. }
  split.
  { eapply (getSessionById_deletes this _ _ later sessionId);
      [done | exact Hbound1 | cbn [kv_records]; apply lookup_insert_eq
      | exact Hparse |].
    unfold created. by destruct (truthy_opt (_accessed data)). }
  destruct Hbound1 as [Hkv1 _].
  rewrite (record_of_update _ _ _ _ _ Hkv1). cbn [kv_records].
  apply lookup_delete_eq.
Qed.

Lemma createSession_stores_flagged_session_witness :
  let P := Reference.platform [deleted_session] in
  let id := lit "test-session-id" in
  let w := world_with (lit "MY_KV") empty_namespace in
  exists w1 w2,
    @CloudflareKVStore.createSession P test_kv_store test_now id
       deleted_session w = (Ok tt, w1) /\
    entry_value <$> record_of test_kv_store w1 id =
      Some (Reference.stringify deleted_session) /\
    @CloudflareKVStore.getSessionById P test_kv_store test_now (Some id) w1
      = (Ok CloudflareKVStore.Null, w2) /\
    record_of test_kv_store w2 id = None.
Proof.
  apply (@createSession_stores_flagged_session
           (Reference.platform [deleted_session]) test_kv_store
           (world_with (lit "MY_KV") empty_namespace) empty_namespace
           test_now test_now (lit "test-session-id") deleted_session
           eq_refl (conj eq_refl eq_refl) eq_refl).
  vm_compute. reflexivity.
Defined.

(** X23. A record that cannot be read is no error for the caller and is
    kept: with a non-empty identifier and the backend bound and
    answering, when the stored text does not parse [getSessionById]
    reports the error and resolves to [null], and when it parses to
    [null] it resolves to [null] without a report; the record stays in
    the backend in both cases. *)
Theorem getSessionById_unreadable_record `{Platform}
    (this : CloudflareKVStore.t) (w : CloudflareKVStore.World)
    (namespace : KVNamespace) (now : Z) (sessionId : jsstring)
    (entry : KVEntry) :
  truthy sessionId = true ->
  bound_to this w namespace ->
  kv_records namespace
    !! CloudflareKVStore.getKeyFromSessionId this sessionId = Some entry ->
  (forall e,
     JSON_parse (entry_value entry) = Throw e ->
     CloudflareKVStore.getSessionById this now (Some sessionId) w =
       (Ok CloudflareKVStore.Null,
        reported (lit "Error retrieving session:") e w) /\
     record_of this (reported (lit "Error retrieving session:") e w)
       sessionId = Some entry) /\
  (JSON_parse (entry_value entry) = Ok None ->
   CloudflareKVStore.getSessionById this now (Some sessionId) w =
     (Ok CloudflareKVStore.Null, w) /\
   record_of this w sessionId = Some entry).
Proof.
  intros Hid [Hkv Hfault] Hentry.
  assert (record_of this w sessionId = Some entry) as Hrecord.
  { unfold record_of. by rewrite Hkv. }
  split.
  - intros e Hparse. split; [|by rewrite record_of_reported].
    unfold CloudflareKVStore.getSessionById. rewrite Hid. cbn [negb].
    unfold CloudflareKVStore.try_catch, CloudflareKVStore.bind at 1.
    rewrite Hkv.
    unfold CloudflareKVStore.bind at 1, CloudflareKVStore.lift,
      CloudflareKVStore.KV_get.
    by rewrite Hfault, Hentry, Hparse.
  - intros Hparse. split; [|done].
    unfold CloudflareKVStore.getSessionById. rewrite Hid. cbn [negb].
    unfold CloudflareKVStore.try_catch, CloudflareKVStore.bind at 1.
    rewrite Hkv.
    unfold CloudflareKVStore.bind at 1, CloudflareKVStore.lift,
      CloudflareKVStore.KV_get.
    by rewrite Hfault, Hentry, Hparse.
Qed.

Lemma getSessionById_unreadable_record_witness :
  let P := Reference.platform [] in
  let w := world_with (lit "MY_KV") (namespace_holding accessed_session) in
  @CloudflareKVStore.getSessionById P test_kv_store test_now
     (Some (lit "test-session-id")) w =
    (Ok CloudflareKVStore.Null,
     reported (lit "Error retrieving session:")
       (lit "Unexpected token in JSON") w) /\
  record_of test_kv_store
    (reported (lit "Error retrieving session:")
       (lit "Unexpected token in JSON") w) (lit "test-session-id")
    = kv_records (namespace_holding accessed_session)
        !! lit "session:test-session-id".
Proof.
  cbn zeta.
  destruct (@getSessionById_unreadable_record (Reference.platform [])
              test_kv_store
              (world_with (lit "MY_KV") (namespace_holding accessed_session))
              (namespace_holding accessed_session) test_now
              (lit "test-session-id")
              {| entry_value := Reference.stringify accessed_session;
                 entry_options :=
                   {| put_expirationTtl := Some 86400;
                      put_expiration := None |} |}
              eq_refl (conj eq_refl eq_refl)
              ltac:(vm_compute; reflexivity)) as [Hthrow _].
  destruct (Hthrow (lit "Unexpected token in JSON")
              ltac:(vm_compute; reflexivity)) as [Hget Hrecord].
  split; [exact Hget|]. rewrite Hrecord. vm_compute. reflexivity.
Defined.
